(** * Word2vec window sampling, weight-tied CBOW / Skip-Gram, Hard-Debias
      and the WEAT permutation test: a shallow embedding of [code.py]

    The development follows the Python source function by function.

    - Python lists and tuples are Rocq lists; Python integers that can be
      negative (slice bounds, [window_size], [k]) are [Z].
    - Python dictionaries are stdpp finite maps ([gmap]).
    - Python exceptions are the [Raise] outcomes of the [result] monad.
    - numpy [float64] scalars are extended reals ([float]): arithmetic on
      finite values is exact, the IEEE rules for [inf], [-inf] and [nan]
      are kept, rounding, overflow and the sign of zero are abstracted.
    - torch parameters live in an object store addressed by locations, so
      that two modules holding the same tensor really alias it. *)

From Stdlib Require Import Reals Lra Lia ZArith.
From stdpp Require Import gmap strings list fin_maps sorting.

(** ** Outcomes of Python calls *)

Inductive exn : Set :=
  | KeyError        (* missing dictionary key *)
  | ValueError      (* numpy shape mismatch *)
  | IndexError      (* torch embedding index out of range *)
  | RuntimeError    (* torch shape or argument error *)
  | ZeroDivisionError.  (* division of Python integers by zero *)

Inductive result (A : Type) : Type :=
  | Ok (a : A)
  | Raise (e : exn).
Arguments Ok {A} a.
Arguments Raise {A} e.

Global Instance result_ret : MRet result := λ A a, Ok a.
Global Instance result_bind : MBind result := λ A B f m,
  match m with Ok a => f a | Raise e => Raise e end.
Global Instance result_fmap : FMap result := λ A B f m,
  match m with Ok a => Ok (f a) | Raise e => Raise e end.

(** [d[k]] on a dictionary. *)
Definition getitem `{Countable K} {V} (d : gmap K V) (k : K) : result V :=
  match d !! k with Some v => Ok v | None => Raise KeyError end.

(** [[f(x) for x in l]] where [f] may raise: the first exception, in list
    order, ends the comprehension. *)
Fixpoint comprehension {A B} (f : A → result B) (l : list A) : result (list B) :=
  match l with
  | [] => Ok []
  | x :: l' => y ← f x; ys ← comprehension f l'; Ok (y :: ys)
  end.

(** ** Part 1: window sampling *)

(** Normalisation of one bound of a slice with step 1 against [len]:
    a negative bound counts from the end, and both are clamped. *)
Definition adjust_index (len i : Z) : Z :=
  if (i <? 0)%Z then Z.max 0 (i + len) else Z.min i len.

(** [l[start:stop]] *)
Definition py_slice {A} (l : list A) (start stop : Z) : list A :=
  let len := Z.of_nat (length l) in
  let lo := adjust_index len start in
  let hi := adjust_index len stop in
  take (Z.to_nat (hi - lo)) (drop (Z.to_nat lo) l).

Section WindowSampler.
Context {A : Type}.

Definition build_current_surrounding_pairs
    (indices : list A) (window_size : Z) : list (list A) * list A :=
  (* Drop start + end tokens *)
  let current_indices := py_slice indices window_size (- window_size) in
  let surrounding_indices :=
    py_slice
      (imap (λ (i : nat) (cur : A),
               py_slice indices (Z.of_nat i - window_size) (Z.of_nat i)
               ++ py_slice indices (Z.of_nat i + 1)
                                   (Z.of_nat i + window_size + 1))
            indices)
      window_size (- window_size) in
  (surrounding_indices, current_indices).

Definition expand_surrounding_words
    (ix_surroundings : list (list A)) (ix_current : list A)
    : list A * list A :=
  match ix_surroundings with
  | [] => ([], [])
  | first :: _ =>
      let window_size := length first in
      let flatten_list {B} (l : list (list B)) : list B := concat l in
      let ix_surroundings_expanded := flatten_list ix_surroundings in
      let ix_current_expanded :=
        flatten_list (map (λ x, replicate window_size x) ix_current) in
      (ix_surroundings_expanded, ix_current_expanded)
  end.

Definition cbow_preprocessing
    (indices_list : list (list A)) (window_size : Z)
    : list (list A) * list A :=
  foldl (λ '(sources, targets) indices,
           let '(surrounding, current) :=
             build_current_surrounding_pairs indices window_size in
           (sources ++ surrounding, targets ++ current))
        ([], []) indices_list.

Definition skipgram_preprocessing
    (indices_list : list (list A)) (window_size : Z)
    : list A * list A :=
  foldl (λ '(sources, targets) indices,
           let '(surrounding, current) :=
             build_current_surrounding_pairs indices window_size in
           let '(surroundings_expanded, current_expanded) :=
             expand_surrounding_words surrounding current in
           (sources ++ surroundings_expanded, targets ++ current_expanded))
        ([], []) indices_list.

(** What the sampler is meant to produce for the centre at position
    [k + w]: the [w] tokens before it and the [w] tokens after it. *)
Definition window_at (l : list A) (w k : nat) : list A :=
  take w (drop k l) ++ take w (drop (k + w + 1) l).

(** The pairs the sampler owes for a sequence [indices] and a window size
    [w]: nothing when the sequence has at most [2 * w] tokens; otherwise
    [length indices - 2 * w] pairs, the [k]-th made of the centre at
    position [k + w] and of a context of width [2 * w] holding the [w]
    tokens before the centre followed by the [w] tokens after it. *)
Definition sampler_post (indices : list A) (w : nat)
    (surrounding : list (list A)) (current : list A) : Prop :=
  let L := length indices in
  (L ≤ 2 * w → surrounding = [] ∧ current = []) ∧
  (2 * w + 1 ≤ L →
     length surrounding = L - 2 * w ∧ length current = L - 2 * w ∧
     ∀ k, k < L - 2 * w →
       ∃ ctx c,
         surrounding !! k = Some ctx ∧ current !! k = Some c ∧
         indices !! (k + w) = Some c ∧
         length ctx = 2 * w ∧
         ∀ j, j < w →
           is_Some (indices !! (k + j)) ∧
           ctx !! j = indices !! (k + j) ∧
           is_Some (indices !! (k + w + 1 + j)) ∧
           ctx !! (w + j) = indices !! (k + w + 1 + j)).

(** The flattening owed for windows of width [width] paired with their
    centres: every window contributes, in order, one (token, centre) pair
    per token, and windows follow each other in their original order. *)
Definition expansion_post (ix_surroundings : list (list A)) (ix_current : list A)
    (width : nat) (sources targets : list A) : Prop :=
  length sources = width * length ix_surroundings ∧
  length targets = width * length ix_surroundings ∧
  zip sources targets
  = concat (zip_with (λ win c, (λ t, (t, c)) <$> win)
                     ix_surroundings ix_current).

End WindowSampler.


(** ** Part 1: the weight-tied model

    Tensor entries are finite floats, modelled as reals. *)

Open Scope R_scope.

(** A 1-D float tensor is a list; higher ranks carry their shape, which
    the data alone does not determine when a dimension is 0. *)
Record tensor2 : Type := Tensor2 { shape2 : nat * nat; data2 : list (list R) }.
Record tensor3 : Type :=
  Tensor3 { shape3 : nat * nat * nat; data3 : list (list (list R)) }.
(** A 2-D [int64] tensor. *)
Record itensor2 : Type := ITensor2 { ishape2 : nat * nat; idata2 : list (list Z) }.

Definition tabulate2 (sh : nat * nat) (f : nat → nat → R) : tensor2 :=
  Tensor2 sh ((λ i, f i <$> seq 0 sh.2) <$> seq 0 sh.1).

Definition rdot (a b : list R) : R := foldr Rplus 0 (zip_with Rmult a b).
Definition vadd (a b : list R) : list R := zip_with Rplus a b.
Definition vsub (a b : list R) : list R := zip_with Rminus a b.
Definition vscale (c : R) (a : list R) : list R := Rmult c <$> a.
Definition vzero (d : nat) : list R := replicate d 0.
Definition vsum (d : nat) (vs : list (list R)) : list R := foldr vadd (vzero d) vs.

(** Objects of the Python heap that the model touches: parameters and the
    two kinds of [nn.Module] that refer to them. *)
Definition loc := nat.

Inductive obj : Type :=
  | Param1 (v : list R)
  | Param2 (t : tensor2)
  | Embedding (weight : loc)
  | Linear (weight : loc) (bias : option loc).

Abbreviation store := (gmap loc obj).

Definition alloc (o : obj) (σ : store) : loc * store :=
  let l := fresh (dom σ) in (l, <[l := o]> σ).

(** [nn.Embedding(num_embeddings, embedding_dim)]; [rand] stands for the
    random initial value of each entry. *)
Definition nn_Embedding (num_embeddings embedding_dim : nat)
    (rand : nat → nat → R) (σ : store) : loc * store :=
  let '(w, σ) := alloc (Param2 (tabulate2 (num_embeddings, embedding_dim) rand)) σ in
  alloc (Embedding w) σ.

(** [nn.Linear(in_features, out_features, bias=bias)]: the weight has
    shape [(out_features, in_features)]. *)
Definition nn_Linear (in_features out_features : nat) (bias : bool)
    (rand : nat → nat → R) (rand_bias : nat → R) (σ : store) : loc * store :=
  let '(w, σ) := alloc (Param2 (tabulate2 (out_features, in_features) rand)) σ in
  if bias then
    let '(b, σ) := alloc (Param1 (rand_bias <$> seq 0 out_features)) σ in
    alloc (Linear w (Some b)) σ
  else alloc (Linear w None) σ.

(** An in-place update of a parameter ([p.data.add_(...)] of an optimizer
    step): the object stays where it is, its entries change, its shape
    does not. *)
Definition inplace_update (l : loc) (new : nat → nat → R) (σ : store) : store :=
  match σ !! l with
  | Some (Param2 t) => <[l := Param2 (tabulate2 (shape2 t) new)]> σ
  | _ => σ
  end.

Definition optimizer_steps (updates : list (loc * (nat → nat → R))) (σ : store)
    : store :=
  foldl (λ σ u, inplace_update u.1 u.2 σ) σ updates.

(** [module.weight] and [module.bias], through the store. *)
Definition weight_loc (σ : store) (m : loc) : option loc :=
  match σ !! m with
  | Some (Embedding w) => Some w
  | Some (Linear w _) => Some w
  | _ => None
  end.

Definition bias_loc (σ : store) (m : loc) : option loc :=
  match σ !! m with
  | Some (Linear _ b) => b
  | _ => None
  end.

Definition param2 (σ : store) (l : loc) : option tensor2 :=
  match σ !! l with Some (Param2 t) => Some t | _ => None end.

Definition weight (σ : store) (m : loc) : option tensor2 :=
  weight_loc σ m ≫= param2 σ.

Module SharedNNLM.
Record t : Type := Build { embedding : loc; projection : loc }.

Definition get_emb (self : t) : loc := embedding self.
Definition get_proj (self : t) : loc := projection self.

(** [proj.weight = emb.weight]: the projection module now refers to the
    parameter object of the embedding module. *)
Definition bind_weights (self : t) (σ : store) : store :=
  let emb := get_emb self in
  let proj := get_proj self in
  match σ !! proj, weight_loc σ emb with
  | Some (Linear _ b), Some w => <[proj := Linear w b]> σ
  | _, _ => σ
  end.

Definition init (num_words embed_dim : nat)
    (rand_emb rand_proj : nat → nat → R) (σ : store) : t * store :=
  let '(embedding, σ) := nn_Embedding num_words embed_dim rand_emb σ in
  let '(projection, σ) :=
    nn_Linear embed_dim num_words false rand_proj (λ _, 0) σ in
  let self := Build embedding projection in
  (self, bind_weights self σ).
End SharedNNLM.

(** [F.embedding(x, weight)] for a 1-D and for a 2-D index tensor. *)
Definition embedding_row (w : tensor2) (i : Z) : result (list R) :=
  if bool_decide (0 ≤ i < Z.of_nat (shape2 w).1)%Z then
    match data2 w !! Z.to_nat i with
    | Some row => Ok row
    | None => Raise IndexError
    end
  else Raise IndexError.

Definition F_embedding1 (x : list Z) (w : tensor2) : result tensor2 :=
  rows ← comprehension (embedding_row w) x;
  Ok (Tensor2 (length x, (shape2 w).2) rows).

Definition F_embedding2 (x : itensor2) (w : tensor2) : result tensor3 :=
  rows ← comprehension (comprehension (embedding_row w)) (idata2 x);
  Ok (Tensor3 (ishape2 x, (shape2 w).2) rows).

(** [t.sum(axis=1)] of a 3-D tensor. *)
Definition sum_axis1 (t : tensor3) : tensor2 :=
  let '(b, _, d) := shape3 t in
  Tensor2 (b, d) (vsum d <$> data3 t).

(** [F.linear(input, weight, bias)]: [input @ weight.T + bias]. *)
Definition F_linear (input w : tensor2) (bias : option (list R)) : result tensor2 :=
  if bool_decide ((shape2 input).2 = (shape2 w).2) then
    let out := (λ v, (λ row, rdot v row) <$> data2 w) <$> data2 input in
    Ok (Tensor2 ((shape2 input).1, (shape2 w).1)
          match bias with
          | None => out
          | Some b => (λ o, vadd o b) <$> out
          end)
  else Raise RuntimeError.

(** Calling an [nn.Embedding] or [nn.Linear] module held in the store. A
    location that holds no such module stands for a Python object without
    the attribute: [RuntimeError]. *)
Definition call_embedding1 (σ : store) (m : loc) (x : list Z) : result tensor2 :=
  match σ !! m with
  | Some (Embedding wl) =>
      match param2 σ wl with
      | Some w => F_embedding1 x w
      | None => Raise RuntimeError
      end
  | _ => Raise RuntimeError
  end.

Definition call_embedding2 (σ : store) (m : loc) (x : itensor2) : result tensor3 :=
  match σ !! m with
  | Some (Embedding wl) =>
      match param2 σ wl with
      | Some w => F_embedding2 x w
      | None => Raise RuntimeError
      end
  | _ => Raise RuntimeError
  end.

Definition call_linear (σ : store) (m : loc) (input : tensor2) : result tensor2 :=
  match σ !! m with
  | Some (Linear wl bl) =>
      match param2 σ wl with
      | Some w =>
          match bl with
          | None => F_linear input w None
          | Some l =>
              match σ !! l with
              | Some (Param1 b) => F_linear input w (Some b)
              | _ => Raise RuntimeError
              end
          end
      | None => Raise RuntimeError
      end
  | _ => Raise RuntimeError
  end.

Module SkipGram.
Record t : Type := Build { nnlm : SharedNNLM.t; emb : loc; proj : loc }.

Definition init (num_words embed_dim : nat)
    (rand_emb rand_proj : nat → nat → R) (σ : store) : t * store :=
  let '(nnlm, σ) := SharedNNLM.init num_words embed_dim rand_emb rand_proj σ in
  (Build nnlm (SharedNNLM.get_emb nnlm) (SharedNNLM.get_proj nnlm), σ).

Definition forward (σ : store) (self : t) (x : list Z) : result tensor2 :=
  emb_x ← call_embedding1 σ (emb self) x;
  proj_x ← call_linear σ (proj self) emb_x;
  Ok proj_x.
End SkipGram.

Module CBOW.
Record t : Type := Build { nnlm : SharedNNLM.t; emb : loc; proj : loc }.

Definition init (num_words embed_dim : nat)
    (rand_emb rand_proj : nat → nat → R) (σ : store) : t * store :=
  let '(nnlm, σ) := SharedNNLM.init num_words embed_dim rand_emb rand_proj σ in
  (Build nnlm (SharedNNLM.get_emb nnlm) (SharedNNLM.get_proj nnlm), σ).

Definition forward (σ : store) (self : t) (x : itensor2) : result tensor2 :=
  emb_x ← sum_axis1 <$> call_embedding2 σ (emb self) x;
  proj_x ← call_linear σ (proj self) emb_x;
  Ok proj_x.
End CBOW.

(** *** Nearest neighbours *)

(** [F.normalize(v, dim=0)] of a 1-D tensor: [v / max(‖v‖₂, eps)] with
    torch's default [eps = 1e-12]. *)
Definition eps : R := / 10 ^ 12.
Definition l2_norm (v : list R) : R := sqrt (rdot v v).
Definition F_normalize (v : list R) : list R :=
  (λ x, x / Rmax (l2_norm v) eps) <$> v.

(** [F.normalize(w, dim=1)] of a 2-D tensor: every row is normalised. *)
Definition F_normalize_rows (w : tensor2) : tensor2 :=
  Tensor2 (shape2 w) (F_normalize <$> data2 w).

(** [torch.matmul] of a 2-D tensor with a 1-D tensor. *)
Definition matmul_mv (w : tensor2) (v : list R) : result (list R) :=
  if decide ((shape2 w).2 = length v) then
    Ok ((λ row, rdot row v) <$> data2 w)
  else Raise RuntimeError.

(** The positions of a 1-D tensor paired with their values, ordered by
    decreasing value. torch leaves the order of equal values open; the
    model fixes it by a merge sort. *)
Definition higher (p q : nat * R) : Prop := q.2 <= p.2.
Global Instance higher_dec p q : Decision (higher p q) := Rle_dec q.2 p.2.

Definition ranked (v : list R) : list (nat * R) :=
  merge_sort higher (imap (λ i x, (i, x)) v).

(** [torch.topk(v, k)]: the [k] largest values and their positions. *)
Definition torch_topk (v : list R) (k : Z) : result (list R * list nat) :=
  if decide (0 ≤ k ≤ Z.of_nat (length v))%Z then
    let top := take (Z.to_nat k) (ranked v) in
    Ok (top.*2, top.*1)
  else Raise RuntimeError.

Definition compute_topk_similar
    (word_emb : list R) (w2v_emb_weight : tensor2) (k : Z)
    : result (list nat) :=
  (* Normalize word embedding + embedding tensor *)
  let word_emb_normalized := F_normalize word_emb in
  let w2v_emb_weight_normalized := F_normalize_rows w2v_emb_weight in
  (* Calculate similarity matrix *)
  similarity ← matmul_mv w2v_emb_weight_normalized word_emb_normalized;
  (* Get top k most similar *)
  top_k ← torch_topk similarity (k + 1);
  (* Skip the first entry, which will be the original vector *)
  Ok (py_slice top_k.2 1 (Z.of_nat (length top_k.2))).

(** [w[i]] on a 2-D tensor: a negative index counts from the end. *)
Definition tensor_getrow (w : tensor2) (i : Z) : result (list R) :=
  let n := Z.of_nat (shape2 w).1 in
  if decide (- n ≤ i < n)%Z then
    match data2 w !! Z.to_nat (if decide (i < 0)%Z then i + n else i)%Z with
    | Some row => Ok row
    | None => Raise IndexError
    end
  else Raise IndexError.

(** [model.emb.weight], for a model whose [emb] module is at [emb]. *)
Definition emb_weight (σ : store) (emb : loc) : result tensor2 :=
  match weight σ emb with
  | Some w => Ok w
  | None => Raise RuntimeError
  end.

Definition retrieve_similar_words
    (σ : store) (model_emb : loc) (word : string)
    (index_map : gmap string Z) (index_to_word : gmap Z string) (k : Z)
    : result (list string) :=
  word_index ← getitem index_map word;
  w2v_emb_weight ← emb_weight σ model_emb;
  word_emb ← tensor_getrow w2v_emb_weight word_index;
  top_k ← compute_topk_similar word_emb w2v_emb_weight k;
  results ← comprehension (λ idx : nat, getitem index_to_word (Z.of_nat idx)) top_k;
  Ok results.

Definition word_analogy
    (σ : store) (model_emb : loc) (word_a word_b word_c : string)
    (index_map : gmap string Z) (index_to_word : gmap Z string) (k : Z)
    : result (list string) :=
  w2v_emb_weight ← emb_weight σ model_emb;
  word_a_index ← getitem index_map word_a;
  word_b_index ← getitem index_map word_b;
  word_c_index ← getitem index_map word_c;
  word_a_emb ← tensor_getrow w2v_emb_weight word_a_index;
  word_b_emb ← tensor_getrow w2v_emb_weight word_b_index;
  word_c_emb ← tensor_getrow w2v_emb_weight word_c_index;
  let analogy_emb := vadd (vsub word_a_emb word_b_emb) word_c_emb in
  analogy_top_k ← compute_topk_similar analogy_emb w2v_emb_weight k;
  results ←
    comprehension (λ idx : nat, getitem index_to_word (Z.of_nat idx))
                  analogy_top_k;
  Ok results.

(** The similarity of the query [q] to every row of [W] that
    [compute_topk_similar] ranks, and the ranking itself. *)
Definition similarities (W : tensor2) (q : list R) : list R :=
  (λ row, rdot (F_normalize row) (F_normalize q)) <$> data2 W.

Definition ranking (W : tensor2) (q : list R) : list nat :=
  (ranked (similarities W q)).*1.

(** The cosine of the angle of two vectors. *)
Definition cosine (a b : list R) : R := rdot a b / (l2_norm a * l2_norm b).

(** *** Notions used to state the properties of the model *)

(** The embedding module [emb] and the projection module [proj] refer to
    one and the same parameter object, which holds [W]; the projection has
    no bias. *)
Definition tied (σ : store) (emb proj : loc) (W : tensor2) : Prop :=
  ∃ l, σ !! emb = Some (Embedding l)
     ∧ σ !! proj = Some (Linear l None)
     ∧ σ !! l = Some (Param2 W).

(** The data of a 2-D tensor agrees with its shape. *)
Definition wf2 (t : tensor2) : Prop :=
  length (data2 t) = (shape2 t).1
  ∧ Forall (λ row, length row = (shape2 t).2) (data2 t).

Definition iwf2 (x : itensor2) : Prop :=
  length (idata2 x) = (ishape2 x).1
  ∧ Forall (λ row, length row = (ishape2 x).2) (idata2 x).

Global Instance R_inhabited : Inhabited R := populate 0.

(** [t[i]] and [t[i, j]] for indices in range. *)
Definition row (t : tensor2) (i : nat) : list R := data2 t !!! i.
Definition entry (t : tensor2) (i j : nat) : R := row t i !!! j.


(** The two forward modes as the specification words them, over the one
    shared matrix [W]: the logits of a vector are its dot products with
    every row of [W]; Skip-Gram projects the embedding of each index,
    CBOW projects the sum of the embeddings of each context. *)
Definition logits_of (W : tensor2) (v : list R) : list R :=
  (λ r, rdot v r) <$> data2 W.

Definition lookup_embedding (W : tensor2) (i : Z) : list R := row W (Z.to_nat i).

Definition skipgram_logits (W : tensor2) (x : list Z) : tensor2 :=
  Tensor2 (length x, (shape2 W).1)
          ((λ i, logits_of W (lookup_embedding W i)) <$> x).

Definition cbow_logits (W : tensor2) (x : itensor2) : tensor2 :=
  Tensor2 ((ishape2 x).1, (shape2 W).1)
          ((λ ctx, logits_of W (vsum (shape2 W).2 (lookup_embedding W <$> ctx)))
             <$> idata2 x).


(** All indices of a batch are valid rows of a vocabulary of size [V]. *)
Definition in_range (V : nat) (i : Z) : Prop := (0 ≤ i < Z.of_nat V)%Z.

(** ** Part 2: numpy floats

    A [float64] is a finite real or one of the three special values.
    Division by zero follows IEEE 754 and numpy: it yields [inf], [-inf]
    or [nan] (numpy only prints a warning) and never raises. The model's
    zero is unsigned and is divided by as [+0.0], which is what the sums
    of squares in this program produce. *)

Global Instance Rlt_decision (x y : R) : Decision (x < y) := Rlt_dec x y.
Global Instance Rle_decision (x y : R) : Decision (x <= y) := Rle_dec x y.
Global Instance Req_decision : EqDecision R := Req_dec_T.

Inductive float : Type :=
  | Fin (r : R)
  | PInf
  | NInf
  | NaN.

Definition inf (positive : bool) : float := if positive then PInf else NInf.

Definition fneg (x : float) : float :=
  match x with
  | Fin a => Fin (- a)
  | PInf => NInf
  | NInf => PInf
  | NaN => NaN
  end.

Definition fadd (x y : float) : float :=
  match x, y with
  | NaN, _ | _, NaN => NaN
  | Fin a, Fin b => Fin (a + b)
  | PInf, NInf | NInf, PInf => NaN
  | PInf, _ | _, PInf => PInf
  | NInf, _ | _, NInf => NInf
  end.

Definition fsub (x y : float) : float := fadd x (fneg y).

Definition fmul (x y : float) : float :=
  match x, y with
  | NaN, _ | _, NaN => NaN
  | Fin a, Fin b => Fin (a * b)
  | Fin a, PInf | PInf, Fin a =>
      if decide (a = 0) then NaN else inf (bool_decide (0 < a))
  | Fin a, NInf | NInf, Fin a =>
      if decide (a = 0) then NaN else inf (bool_decide (a < 0))
  | PInf, PInf | NInf, NInf => PInf
  | PInf, NInf | NInf, PInf => NInf
  end.

Definition fdiv (x y : float) : float :=
  match x, y with
  | NaN, _ | _, NaN => NaN
  | Fin a, Fin b =>
      if decide (b = 0) then
        if decide (a = 0) then NaN else inf (bool_decide (0 < a))
      else Fin (a / b)
  | Fin _, (PInf | NInf) => Fin 0
  | PInf, Fin b => inf (bool_decide (0 <= b))
  | NInf, Fin b => inf (bool_decide (b < 0))
  | (PInf | NInf), (PInf | NInf) => NaN
  end.

Definition fsqrt (x : float) : float :=
  match x with
  | Fin a => if decide (a < 0) then NaN else Fin (sqrt a)
  | PInf => PInf
  | NInf | NaN => NaN
  end.

(** [x > y]: false as soon as one side is [nan]. *)
Definition fgt (x y : float) : bool :=
  match x, y with
  | Fin a, Fin b => bool_decide (b < a)
  | PInf, (Fin _ | NInf) => true
  | Fin _, NInf => true
  | _, _ => false
  end.

(** [a / b] on Python integers (here: counters, so naturals). *)
Definition py_truediv (a b : nat) : result float :=
  if decide (b = 0%nat) then Raise ZeroDivisionError
  else Ok (Fin (INR a / INR b)).

(** *** numpy arrays *)

(** Arrays of rank 0, 1 and 2. The embedding table holds 1-D arrays,
    written as lists. *)
Inductive ndarray : Type :=
  | Scalar (x : float)
  | Vec (v : list float)
  | Mat (m : list (list float)).


Definition np_sum (l : list float) : float := foldr fadd (Fin 0) l.

(** [np.mean] of a list of scalars; the empty list gives [0 / 0 = nan]. *)
Definition np_mean (l : list float) : float :=
  fdiv (np_sum l) (Fin (INR (length l))).

Definition dot_sum (a b : list float) : float :=
  foldr fadd (Fin 0) (zip_with fmul a b).

(** [np.dot] of two 1-D arrays. *)
Definition np_dot (a b : list float) : result float :=
  if decide (length a = length b) then Ok (dot_sum a b) else Raise ValueError.

(** [np.linalg.norm] of a 1-D array. *)
Definition np_linalg_norm (a : list float) : float := fsqrt (dot_sum a a).


(** [np.mean(vs, axis=0)] of a Python list of 1-D arrays: the empty list
    is a 1-D array of length 0, whose mean is the scalar [nan]; arrays of
    different lengths do not form a 2-D array. *)
Definition column_sums (d : nat) (vs : list (list float)) : list float :=
  foldr (zip_with fadd) (replicate d (Fin 0)) vs.

Definition np_mean_axis0 (vs : list (list float)) : result ndarray :=
  match vs with
  | [] => Ok (Scalar NaN)
  | v :: _ =>
      if decide (Forall (λ u, length u = length v) vs) then
        Ok (Vec ((λ s, fdiv s (Fin (INR (length vs))))
                   <$> column_sums (length v) vs))
      else Raise ValueError
  end.

(** *** Debiaser *)

Abbreviation table := (gmap string (list float)).

Definition project (a b : list float) : result (float * list float) :=
  ab ← np_dot a b;
  bb ← np_dot b b;
  let scalar := fdiv ab bb in
  let vector_projection := fmul scalar <$> b in
  Ok (scalar, vector_projection).

Definition cosine_similarity (a b : list float) : result float :=
  let norm_a := np_linalg_norm a in
  let norm_b := np_linalg_norm b in
  ab ← np_dot a b;
  Ok (fdiv ab (fmul norm_a norm_b)).


(** *** Profession embeddings *)

(** Python's [str.isspace] on the code points below 256. *)
Definition is_space (c : Ascii.ascii) : bool :=
  let n := Ascii.nat_of_ascii c in
  ((9 <=? n) && (n <=? 13) || (28 <=? n) && (n <=? 32)
   || (n =? 133) || (n =? 160))%nat.

(** [s.split()]: the maximal runs of non-space characters, in order.
    [cur] is the run being read. *)
Fixpoint split_from (cur : string) (s : string) : list string :=
  match s with
  | EmptyString => if decide (cur = EmptyString) then [] else [cur]
  | String c s' =>
      if is_space c then
        if decide (cur = EmptyString) then split_from EmptyString s'
        else cur :: split_from EmptyString s'
      else split_from (cur +:+ String c EmptyString) s'
  end.

Definition py_split (s : string) : list string := split_from EmptyString s.

(** The body of the loop of [compute_profession_embeddings]: the [try]
    looks the whole profession up, the [except KeyError] handler looks up
    its words, and a [KeyError] raised in the handler propagates. *)
Definition profession_embedding
    (word_to_embedding : table) (profession : string) : result ndarray :=
  embeddings ←
    match getitem word_to_embedding profession with
    | Ok e => Ok [e]
    | Raise KeyError =>
        comprehension (getitem word_to_embedding) (py_split profession)
    | Raise e => Raise e
    end;
  np_mean_axis0 embeddings.

Fixpoint profession_loop (word_to_embedding : table)
    (profession_embeddings : gmap string ndarray) (professions : list string)
    : result (gmap string ndarray) :=
  match professions with
  | [] => Ok profession_embeddings
  | profession :: rest =>
      v ← profession_embedding word_to_embedding profession;
      profession_loop word_to_embedding
        (<[profession := v]> profession_embeddings) rest
  end.

Definition compute_profession_embeddings
    (word_to_embedding : table) (professions : list string)
    : result (gmap string ndarray) :=
  profession_loop word_to_embedding ∅ professions.

(** *** WEAT *)

(** [itertools.combinations(l, r)]: the sub-sequences of [l] of length
    [r], chosen by position, in lexicographic order of the positions. *)
Fixpoint combinations {A} (l : list A) (r : nat) : list (list A) :=
  match l, r with
  | _, O => [[]]
  | [], S _ => []
  | x :: l', S r' => (cons x <$> combinations l' r') ++ combinations l' r
  end.

Definition compute_partitions (XY : list string) : list (list string) :=
  combinations XY (length XY / 2).

Definition weat_association
    (w : string) (A B : list string) (word_to_embedding : table) : result float :=
  w_embedding ← getitem word_to_embedding w;
  A_embeddings ← comprehension (getitem word_to_embedding) A;
  B_embeddings ← comprehension (getitem word_to_embedding) B;
  cos_A_w ← comprehension (cosine_similarity w_embedding) A_embeddings;
  cos_B_w ← comprehension (cosine_similarity w_embedding) B_embeddings;
  Ok (fsub (np_mean cos_A_w) (np_mean cos_B_w)).

(** The source takes the association function as an argument and does
    not use it: it calls [weat_association] directly. *)
Definition weat_differential_association
    (X Y A B : list string) (word_to_embedding : table)
    (weat_association_func :
       string → list string → list string → table → result float)
    : result float :=
  sx_AB ← comprehension (λ x, weat_association x A B word_to_embedding) X;
  sy_AB ← comprehension (λ y, weat_association y A B word_to_embedding) Y;
  Ok (fsub (np_sum sx_AB) (np_sum sy_AB)).

(** The complement set of one partition. *)
Definition complement (XY X_i : list string) : list string :=
  filter (λ w, w ∉ X_i) XY.

(** The loop over the partitions, with its two counters. *)
Fixpoint permutation_loop (s : float) (XY A B : list string)
    (word_to_embedding : table) (partitions : list (list string))
    (total total_true : nat) : result (nat * nat) :=
  match partitions with
  | [] => Ok (total, total_true)
  | X_i :: rest =>
      (* Compute the complement set. *)
      let Y_i := complement XY X_i in
      s_i ← weat_differential_association
               X_i Y_i A B word_to_embedding weat_association;
      let total_true := if fgt s_i s then S total_true else total_true in
      permutation_loop s XY A B word_to_embedding rest (S total) total_true
  end.

Definition p_value_permutation_test
    (X Y A B : list string) (word_to_embedding : table) : result float :=
  (* Compute the actual test statistic. *)
  s ← weat_differential_association X Y A B word_to_embedding weat_association;
  let XY := X ++ Y in
  let partitions := compute_partitions XY in
  '(total, total_true) ←
    permutation_loop s XY A B word_to_embedding partitions 0 0;
  py_truediv total_true total.

(** The binomial coefficient, by Pascal's rule. *)
Fixpoint binom (n k : nat) : nat :=
  match n, k with
  | _, O => 1
  | O, S _ => 0
  | S n', S k' => binom n' k' + binom n' k
  end.

(** The statistic of every partition, in the order of enumeration. *)
Definition partition_statistics
    (XY A B : list string) (word_to_embedding : table)
    (partitions : list (list string)) : result (list float) :=
  comprehension
    (λ X_i, weat_differential_association
              X_i (complement XY X_i) A B word_to_embedding weat_association)
    partitions.

(** How many statistics are strictly greater than [s]. *)
Definition count_exceeding (s : float) (stats : list float) : nat :=
  length (filter (λ s_i, fgt s_i s = true) stats).

(** The word [w] is a key of the embedding table. *)
Definition present (word_to_embedding : table) (w : string) : Prop :=
  is_Some (word_to_embedding !! w).

Close Scope R_scope.

(** ** Part 1: vocabulary and indices *)

(** A Python [dict] whose order of keys matters (the word counts, which are
    sorted by a stable sort) is an association list in insertion order. *)
Definition odict_get {V} (d : list (string * V)) (k : string) (default : V) : V :=
  match list_find (λ kv, kv.1 = k) d with
  | Some (_, kv) => kv.2
  | None => default
  end.

(** [d[k] = v]: the value of an existing key is replaced where it is, a
    new key goes to the end. *)
Fixpoint odict_set {V} (d : list (string * V)) (k : string) (v : V)
    : list (string * V) :=
  match d with
  | [] => [(k, v)]
  | kv :: d' => if decide (kv.1 = k) then (k, v) :: d' else kv :: odict_set d' k v
  end.

Definition build_word_counts (token_list : list (list string))
    : list (string * nat) :=
  foldl (λ word_counts words,
           foldl (λ word_counts word,
                    odict_set word_counts word
                              (odict_get word_counts word 0 + 1))
                 word_counts words)
        [] token_list.

(** [sorted(items, key=lambda item: item[1], reverse=True)]: Python's sort
    is stable, also with [reverse=True], so items of equal count keep
    their order. Every item is put behind the items seen before it whose
    count is not smaller. *)
Fixpoint insert_by_count (x : string * nat) (l : list (string * nat))
    : list (string * nat) :=
  match l with
  | [] => [x]
  | y :: l' => if decide (y.2 < x.2) then x :: l else y :: insert_by_count x l'
  end.

Definition sorted_by_count (items : list (string * nat)) : list (string * nat) :=
  foldl (λ acc x, insert_by_count x acc) [] items.

(** [{word: ix for ix, word in enumerate(words)}]: a later occurrence of a
    word replaces the index of an earlier one. *)
Definition index_dict (words : list string) : gmap string Z :=
  foldl (λ m iw, <[iw.2 := Z.of_nat iw.1]> m) ∅ (imap (λ ix word, (ix, word)) words).

(** [max_words] is [None] or an integer; [if max_words:] is false for
    [None] and for 0. *)
Definition build_index_map (word_counts : list (string * nat))
    (max_words : option Z) : gmap string Z :=
  let sorted_counts := sorted_by_count word_counts in
  let sorted_counts :=
    match max_words with
    | Some m => if decide (m = 0%Z) then sorted_counts
                else py_slice sorted_counts 0 (m - 1)
    | None => sorted_counts
    end in
  let sorted_words := "[PAD]" :: (sorted_counts.*1) in
  index_dict sorted_words.

Definition tokens_to_ix (tokens : list (list string)) (index_map : gmap string Z)
    : list (list Z) :=
  (λ words : list string, omap (λ word, index_map !! word) words) <$> tokens.

(** How often [w] occurs in a list of words. *)
Definition occurrences (w : string) (words : list string) : nat :=
  length (filter (λ x, x = w) words).

(** How many words [build_index_map] keeps besides ["[PAD]"], for [n]
    distinct words: all of them when [max_words] is [None] or 0, the
    [max_words - 1] most frequent ones when [max_words >= 1], and all but
    the last [1 - max_words] when [max_words] is negative. *)
Definition kept_words (n : nat) (max_words : option Z) : nat :=
  match max_words with
  | None => n
  | Some m =>
      if decide (m = 0%Z) then n
      else if decide (1 ≤ m)%Z then Z.to_nat (m - 1) `min` n
      else n - Z.to_nat (1 - m)
  end.

(** ** Part 1: tokenization

    Strings are sequences of code points below 256. *)

(** [str.lower] on one such code point: the letters A-Z and the capital
    letters of the Latin-1 supplement move up by 32. *)
Definition py_lower (c : Ascii.ascii) : Ascii.ascii :=
  let n := Ascii.nat_of_ascii c in
  if ((65 <=? n) && (n <=? 90)
      || (192 <=? n) && (n <=? 222) && negb (n =? 215))%nat
  then Ascii.ascii_of_nat (n + 32) else c.

(** The characters that the pattern [[^a-zA-Z ]+] leaves in place. *)
Definition is_letter_or_blank (c : Ascii.ascii) : bool :=
  let n := Ascii.nat_of_ascii c in
  ((97 <=? n) && (n <=? 122) || (65 <=? n) && (n <=? 90) || (n =? 32))%nat.

Fixpoint lower (s : string) : string :=
  match s with
  | EmptyString => EmptyString
  | String c s' => String (py_lower c) (lower s')
  end.

(** [regexp.sub("", s)] for the pattern [[^a-zA-Z ]+]. *)
Fixpoint regexp_sub (s : string) : string :=
  match s with
  | EmptyString => EmptyString
  | String c s' =>
      if is_letter_or_blank c then String c (regexp_sub s') else regexp_sub s'
  end.

(** [l[:stop]] where [stop] may be [None]. *)
Definition py_slice_to {A} (l : list A) (stop : option Z) : list A :=
  match stop with
  | None => l
  | Some m => py_slice l 0 m
  end.

Definition tokenize_w2v (text : list string) (max_length : option Z)
    (normalize : bool) : list (list string) :=
  let text :=
    if normalize then
      (* Lowercase, Remove non-alphanum *)
      (λ t, regexp_sub (lower t)) <$> text
    else text in
  (λ t, py_slice_to (py_split t) max_length) <$> text.

Definition is_lower_letter (c : Ascii.ascii) : bool :=
  let n := Ascii.nat_of_ascii c in ((97 <=? n) && (n <=? 122))%nat.

(** A non-empty word made of the letters a-z only. *)
Definition lowercase_word (s : string) : Prop :=
  s ≠ EmptyString
  ∧ Forall (λ c, is_lower_letter c = true) (String.list_ascii_of_string s).

(** ** The dataset *)

(** [l[idx]] on a Python list: a negative index counts from the end. *)
Definition list_getitem {A} (l : list A) (idx : Z) : result A :=
  let n := Z.of_nat (length l) in
  if decide (- n ≤ idx < n)%Z then
    match l !! Z.to_nat (if decide (idx < 0)%Z then idx + n else idx)%Z with
    | Some x => Ok x
    | None => Raise IndexError
    end
  else Raise IndexError.

Module Word2VecDataset.
Section Dataset.
Context {Src Tgt : Type}.

Record t : Type := Build { sources : list Src; targets : list Tgt }.

(** [__init__]: [None] stands for the [AssertionError] of the [assert]. *)
Definition init (sources : list Src) (targets : list Tgt) : option t :=
  if decide (length sources = length targets)
  then Some (Build sources targets) else None.

Definition len (self : t) : nat := length (sources self).

Definition getitem (self : t) (idx : Z) : result (Src * Tgt) :=
  s ← list_getitem (sources self) idx;
  t ← list_getitem (targets self) idx;
  Ok (s, t).

End Dataset.
Arguments t : clear implicits.
End Word2VecDataset.

(** ** Part 2: the gender subspace and hard debiasing *)




Section GenderSubspace.

(** [PCA(n_components=n).fit(X).components_] of scikit-learn. The
    decomposition is not modelled: everything below holds for any function
    in its place. *)
Variable pca_components : Z → list (list float) → result (list (list float)).



End GenderSubspace.





Close Scope R_scope.

(** * Properties *)

(** ** Window sampling *)

Example build_pairs_demo :
  build_current_surrounding_pairs [10; 11; 12; 13; 14]%nat 1
  = ([[10; 12]; [11; 13]; [12; 14]], [11; 12; 13])%nat.
Proof. reflexivity. Qed.

Example build_pairs_short :
  build_current_surrounding_pairs [10; 11; 12; 13]%nat 2 = ([], []).
Proof. reflexivity. Qed.

Example skipgram_preprocessing_demo :
  skipgram_preprocessing [[10; 11; 12; 13]; [20; 21]; [30; 31; 32]] 1
  = ([10; 12; 11; 13; 30; 32], [11; 11; 12; 12; 31; 31]).
Proof. reflexivity. Qed.

Example expand_demo :
  expand_surrounding_words [[10; 12]; [11; 13]]%nat [11; 12]%nat
  = ([10; 12; 11; 13], [11; 11; 12; 12])%nat.
Proof. reflexivity. Qed.

Section WindowSamplerFacts.
Context {A : Type}.
Implicit Types (l indices : list A) (w k : nat).

Lemma py_slice_nonneg {B} (m : list B) (i j : nat) :
  i ≤ j → j ≤ length m →
  py_slice m (Z.of_nat i) (Z.of_nat j) = take (j - i) (drop i m).
Proof.
  intros Hij Hj. unfold py_slice, adjust_index.
  destruct (Z.ltb_spec (Z.of_nat i) 0); [lia|].
  destruct (Z.ltb_spec (Z.of_nat j) 0); [lia|].
  f_equal; [|f_equal]; lia.
Qed.

Lemma py_slice_trim {B} (m : list B) (w : nat) :
  1 ≤ w →
  py_slice m (Z.of_nat w) (- Z.of_nat w) = take (length m - 2 * w) (drop w m).
Proof.
  intros Hw. unfold py_slice, adjust_index.
  destruct (Z.ltb_spec (Z.of_nat w) 0); [lia|].
  destruct (Z.ltb_spec (- Z.of_nat w) 0); [|lia].
  destruct (decide (w ≤ length m)) as [Hle|Hgt].
  - f_equal; [|f_equal]; lia.
  - rewrite !drop_ge by lia. by rewrite !take_nil.
Qed.

Lemma window_at_length l w k :
  k + 2 * w + 1 ≤ length l → length (window_at l w k) = 2 * w.
Proof.
  intros H. unfold window_at.
  rewrite length_app, !length_take, !length_drop. lia.
Qed.

Lemma window_at_lookup_before l w k j :
  j < w → k + 2 * w + 1 ≤ length l →
  window_at l w k !! j = l !! (k + j).
Proof.
  intros Hj H. unfold window_at.
  rewrite lookup_app_l by (rewrite length_take, length_drop; lia).
  rewrite lookup_take_lt by lia. by rewrite lookup_drop.
Qed.

Lemma window_at_lookup_after l w k j :
  j < w → k + 2 * w + 1 ≤ length l →
  window_at l w k !! (w + j) = l !! (k + w + 1 + j).
Proof.
  intros Hj H. unfold window_at.
  rewrite lookup_app_r by (rewrite length_take, length_drop; lia).
  rewrite length_take, length_drop.
  replace (w + j - w `min` (length l - k)) with j by lia.
  rewrite lookup_take_lt by lia. by rewrite lookup_drop.
Qed.

Lemma build_pairs_unfold indices w :
  1 ≤ w →
  build_current_surrounding_pairs indices (Z.of_nat w)
  = (window_at indices w <$> seq 0 (length indices - 2 * w),
     take (length indices - 2 * w) (drop w indices)).
Proof.
  intros Hw. unfold build_current_surrounding_pairs. f_equal.
  - rewrite py_slice_trim by done.
    rewrite imap_seq_0, length_fmap, length_seq.
    rewrite <-fmap_drop, <-fmap_take, drop_seq, take_seq. simpl.
    replace ((length indices - 2 * w) `min` (length indices - w))
      with (length indices - 2 * w) by lia.
    apply list_eq. intros k. rewrite !list_lookup_fmap.
    destruct (decide (k < length indices - 2 * w)) as [Hk|Hk].
    + rewrite !lookup_seq_lt by lia. simpl. f_equal. unfold window_at.
      replace (Z.of_nat (w + k) - Z.of_nat w)%Z with (Z.of_nat k) by lia.
      replace (Z.of_nat (w + k) + 1)%Z with (Z.of_nat (k + w + 1)) by lia.
      replace (Z.of_nat (k + w + 1) + Z.of_nat w)%Z
        with (Z.of_nat (k + w + 1 + w)) by lia.
      replace (Z.of_nat (w + k) + Z.of_nat w + 1)%Z
        with (Z.of_nat (k + w + 1 + w)) by lia.
      rewrite !py_slice_nonneg by lia.
      do 2 f_equal; lia.
    + rewrite !lookup_seq_ge by lia. done.
  - by apply py_slice_trim.
Qed.
End WindowSamplerFacts.

Section WindowSamplerTheorems.
Context {A : Type}.

(** C3. For a window size of at least 1, [build_current_surrounding_pairs]
    returns no pair for a sequence of at most [2 * window_size] tokens and
    otherwise exactly [L - 2 * window_size] pairs, each context of width
    [2 * window_size]: the [window_size] tokens before the centre and the
    [window_size] tokens after it, all taken from inside the sequence. *)
Theorem build_current_surrounding_pairs_windows
    (indices : list A) (window_size : Z) surrounding current :
  (1 ≤ window_size)%Z →
  build_current_surrounding_pairs indices window_size
    = (surrounding, current) →
  sampler_post indices (Z.to_nat window_size) surrounding current.
Proof.
  intros Hw Hrun. unfold sampler_post.
  set (w := Z.to_nat window_size).
  assert (Hws : window_size = Z.of_nat w) by (subst w; lia).
  assert (1 ≤ w) by lia.
  rewrite Hws, build_pairs_unfold in Hrun by done.
  remember (length indices - 2 * w) as n eqn:Hn.
  injection Hrun as <- <-. split.
  - intros HL. by replace n with 0 by lia.
  - intros HL. rewrite length_fmap, length_seq, length_take, length_drop.
    split_and!; [lia | lia |].
    intros k Hk.
    assert (is_Some (indices !! (k + w))) as [c Hc]
      by (apply lookup_lt_is_Some_2; lia).
    exists (window_at indices w k), c.
    rewrite list_lookup_fmap, lookup_seq_lt by lia.
    rewrite lookup_take_lt, lookup_drop by lia.
    rewrite (Nat.add_comm w k).
    split_and!; [done | done | done | |].
    + apply window_at_length. lia.
    + intros j Hj. split_and!.
      * apply lookup_lt_is_Some_2. lia.
      * apply window_at_lookup_before; lia.
      * apply lookup_lt_is_Some_2. lia.
      * apply window_at_lookup_after; lia.
Qed.

Lemma zip_replicate_r (win : list A) (c : A) :
  zip win (replicate (length win) c) = (λ t, (t, c)) <$> win.
Proof. induction win as [|t win IH]; simpl; [done | by rewrite IH]. Qed.

Lemma zip_expanded (S : list (list A)) (C : list A) width :
  Forall (λ win, length win = width) S →
  zip (concat S) (concat (map (λ x, replicate width x) C))
  = concat (zip_with (λ win c, (λ t, (t, c)) <$> win) S C).
Proof.
  intros HS. revert C.
  induction HS as [|win S Hwin _ IH]; intros [|c C]; simpl; try done.
  - by rewrite zip_with_nil_r.
  - rewrite zip_with_app by (by rewrite length_replicate).
    rewrite <-Hwin at 1. by rewrite zip_replicate_r, IH.
Qed.

Lemma length_concat_uniform (S : list (list A)) width :
  Forall (λ win, length win = width) S →
  length (concat S) = width * length S.
Proof.
  induction 1 as [|win S Hwin _ IH]; simpl; [lia|].
  rewrite length_app, IH. lia.
Qed.

(** C4. On a non-empty list of windows that all have width [width], with
    as many centres as windows, [expand_surrounding_words] turns every
    (window, centre) pair into [width] (token, centre) pairs, in the order
    of the tokens in the window, window after window; on an empty list of
    windows it returns two empty lists. *)
Theorem expand_surrounding_words_flattens
    (ix_surroundings : list (list A)) (ix_current : list A) (width : nat) :
  expand_surrounding_words [] ix_current = ([], [])
  ∧ (ix_surroundings ≠ [] →
     Forall (λ win, length win = width) ix_surroundings →
     length ix_surroundings = length ix_current →
     expansion_post ix_surroundings ix_current width
       (expand_surrounding_words ix_surroundings ix_current).1
       (expand_surrounding_words ix_surroundings ix_current).2).
Proof.
  split; [done|]. intros Hne Hwidth Hlen.
  destruct ix_surroundings as [|first rest]; [done|].
  assert (Hfirst : length first = width) by by inversion Hwidth.
  unfold expand_surrounding_words, expansion_post. rewrite Hfirst.
  cbn [fst snd]. split_and!.
  - by apply length_concat_uniform.
  - rewrite Hlen, length_concat_uniform with (width := width).
    + by rewrite length_map.
    + apply Forall_forall. intros r [c [-> _]]%list_elem_of_fmap.
      apply length_replicate.
  - by apply zip_expanded.
Qed.

(** The two preprocessing loops on a corpus of one sequence. *)
Lemma cbow_preprocessing_single (indices : list A) (window_size : Z) :
  cbow_preprocessing [indices] window_size
  = build_current_surrounding_pairs indices window_size.
Proof.
  unfold cbow_preprocessing. cbn [foldl].
  by destruct (build_current_surrounding_pairs indices window_size).
Qed.

Lemma skipgram_preprocessing_single (indices : list A) (window_size : Z) :
  skipgram_preprocessing [indices] window_size
  = expand_surrounding_words
      (build_current_surrounding_pairs indices window_size).1
      (build_current_surrounding_pairs indices window_size).2.
Proof.
  unfold skipgram_preprocessing. cbn [foldl].
  destruct (build_current_surrounding_pairs indices window_size) as [s c].
  cbn [fst snd]. by destruct (expand_surrounding_words s c).
Qed.
End WindowSamplerTheorems.

Lemma build_current_surrounding_pairs_windows_witness :
  (1 ≤ 1)%Z
  ∧ build_current_surrounding_pairs [10; 11; 12; 13; 14] 1
    = ([[10; 12]; [11; 13]; [12; 14]], [11; 12; 13])
  ∧ sampler_post [10; 11; 12; 13; 14] 1
      [[10; 12]; [11; 13]; [12; 14]] [11; 12; 13].
Proof.
  split; [lia|]. split; [reflexivity|].
  apply (build_current_surrounding_pairs_windows [10; 11; 12; 13; 14] 1);
    [lia | reflexivity].
Defined.

Lemma expand_surrounding_words_flattens_witness :
  [[10; 12]; [11; 13]] ≠ []
  ∧ Forall (λ win : list nat, length win = 2) [[10; 12]; [11; 13]]
  ∧ length [[10; 12]; [11; 13]] = length [11; 12]
  ∧ expansion_post [[10; 12]; [11; 13]] [11; 12] 2
      [10; 12; 11; 13] [11; 11; 12; 12].
Proof.
  split; [discriminate|]. split; [by repeat constructor|].
  split; [reflexivity|].
  apply (expand_surrounding_words_flattens [[10; 12]; [11; 13]] [11; 12] 2);
    [discriminate | by repeat constructor | reflexivity].
Defined.

(** ** The weight-tied model *)

Lemma alloc_fresh o (σ : store) :
  ∃ l, σ !! l = None ∧ alloc o σ = (l, <[l := o]> σ).
Proof.
  exists (fresh (dom σ)). split; [|done].
  apply not_elem_of_dom, is_fresh.
Qed.

Lemma tabulate2_wf sh f : wf2 (tabulate2 sh f).
Proof.
  unfold wf2, tabulate2. simpl. split.
  - by rewrite length_fmap, length_seq.
  - apply Forall_fmap, Forall_forall. intros i _. simpl.
    by rewrite length_fmap, length_seq.
Qed.

Lemma SharedNNLM_init_tied num_words embed_dim rand_emb rand_proj (σ0 : store) :
  let '(self, σ) := SharedNNLM.init num_words embed_dim rand_emb rand_proj σ0 in
  tied σ (SharedNNLM.get_emb self) (SharedNNLM.get_proj self)
       (tabulate2 (num_words, embed_dim) rand_emb).
Proof.
  unfold SharedNNLM.init, nn_Embedding, nn_Linear.
  set (o1 := Param2 (tabulate2 (num_words, embed_dim) rand_emb)).
  set (o3 := Param2 (tabulate2 (num_words, embed_dim) rand_proj)).
  destruct (alloc_fresh o1 σ0) as (w1 & F1 & ->).
  destruct (alloc_fresh (Embedding w1) (<[w1:=o1]> σ0)) as (e & F2 & ->).
  destruct (alloc_fresh o3 (<[e:=Embedding w1]> (<[w1:=o1]> σ0)))
    as (w2 & F3 & ->).
  destruct (alloc_fresh (Linear w2 None)
              (<[w2:=o3]> (<[e:=Embedding w1]> (<[w1:=o1]> σ0))))
    as (p & F4 & ->).
  assert (e ≠ w1) by (intros ->; by rewrite lookup_insert_eq in F2).
  assert (w2 ≠ e) by (intros ->; by rewrite lookup_insert_eq in F3).
  assert (w2 ≠ w1).
  { intros ->. by rewrite lookup_insert_ne, lookup_insert_eq in F3. }
  assert (p ≠ w2) by (intros ->; by rewrite lookup_insert_eq in F4).
  assert (p ≠ e).
  { intros ->. by rewrite lookup_insert_ne, lookup_insert_eq in F4. }
  assert (p ≠ w1).
  { intros ->.
    by rewrite lookup_insert_ne, lookup_insert_ne, lookup_insert_eq in F4. }
  unfold SharedNNLM.bind_weights, weight_loc, SharedNNLM.get_emb,
    SharedNNLM.get_proj; simpl.
  rewrite lookup_insert_eq.
  rewrite (lookup_insert_ne _ p e), (lookup_insert_ne _ w2 e) by done.
  rewrite lookup_insert_eq.
  exists w1. split_and!.
  - by rewrite lookup_insert_ne, lookup_insert_ne, lookup_insert_ne,
       lookup_insert_eq.
  - by rewrite lookup_insert_eq.
  - by rewrite lookup_insert_ne, lookup_insert_ne, lookup_insert_ne,
       lookup_insert_ne, lookup_insert_eq.
Qed.

(** Before [bind_weights], the two modules hold two distinct parameters. *)
Lemma modules_are_created_untied V d rand_emb rand_proj (σ0 : store) :
  let e := nn_Embedding V d rand_emb σ0 in
  let p := nn_Linear d V false rand_proj (λ _, 0%R) e.2 in
  ∃ we wp, weight_loc p.2 e.1 = Some we ∧ weight_loc p.2 p.1 = Some wp
           ∧ we ≠ wp.
Proof.
  unfold nn_Embedding, nn_Linear.
  set (o1 := Param2 (tabulate2 (V, d) rand_emb)).
  set (o3 := Param2 (tabulate2 (V, d) rand_proj)).
  destruct (alloc_fresh o1 σ0) as (w1 & F1 & ->).
  destruct (alloc_fresh (Embedding w1) (<[w1:=o1]> σ0)) as (e & F2 & ->).
  cbn [fst snd].
  destruct (alloc_fresh o3 (<[e:=Embedding w1]> (<[w1:=o1]> σ0)))
    as (w2 & F3 & ->).
  destruct (alloc_fresh (Linear w2 None)
              (<[w2:=o3]> (<[e:=Embedding w1]> (<[w1:=o1]> σ0))))
    as (p & F4 & ->).
  cbn [fst snd].
  assert (w2 ≠ e) by (intros ->; by rewrite lookup_insert_eq in F3).
  assert (w2 ≠ w1).
  { intros ->. by rewrite lookup_insert_ne, lookup_insert_eq in F3. }
  assert (p ≠ e).
  { intros ->. by rewrite lookup_insert_ne, lookup_insert_eq in F4. }
  exists w1, w2. unfold weight_loc. split_and!; [| |done].
  - by rewrite lookup_insert_ne, lookup_insert_ne, lookup_insert_eq.
  - by rewrite lookup_insert_eq.
Qed.

Lemma tied_inplace_update σ emb proj W l new :
  tied σ emb proj W →
  ∃ W', tied (inplace_update l new σ) emb proj W'
        ∧ shape2 W' = shape2 W
        ∧ (weight_loc σ emb = Some l → W' = tabulate2 (shape2 W) new).
Proof.
  intros (l0 & He & Hp & Hl). unfold inplace_update, weight_loc. rewrite He.
  destruct (σ !! l) as [[v|t|w|w b]|] eqn:El;
    try (exists W; split_and!; [by exists l0 | done | intros [= ->]; congruence]).
  assert (l ≠ emb) by congruence. assert (l ≠ proj) by congruence.
  destruct (decide (l = l0)) as [->|Hne].
  - assert (t = W) as -> by congruence.
    exists (tabulate2 (shape2 W) new). split_and!; [|done|done].
    exists l0. split_and!.
    + by rewrite lookup_insert_ne.
    + by rewrite lookup_insert_ne.
    + by rewrite lookup_insert_eq.
  - exists W. split_and!; [|done|intros [= ->]; done].
    exists l0. split_and!; by rewrite lookup_insert_ne.
Qed.

Lemma tied_optimizer_steps updates σ emb proj W :
  tied σ emb proj W →
  ∃ W', tied (optimizer_steps updates σ) emb proj W' ∧ shape2 W' = shape2 W.
Proof.
  revert σ W. induction updates as [|[l new] us IH]; intros σ W HT; simpl.
  - by exists W.
  - destruct (tied_inplace_update σ emb proj W l new HT) as (W1 & HT1 & Hs1 & _).
    destruct (IH _ _ HT1) as (W' & HT' & Hs'). exists W'. split; [done|congruence].
Qed.

Lemma tied_weight σ emb proj W :
  tied σ emb proj W →
  ∃ l, weight_loc σ emb = Some l ∧ weight_loc σ proj = Some l
       ∧ bias_loc σ proj = None
       ∧ weight σ emb = Some W ∧ weight σ proj = Some W.
Proof.
  intros (l & He & Hp & Hl). exists l.
  unfold weight, weight_loc, bias_loc, param2. rewrite He, Hp. simpl.
  by rewrite Hl.
Qed.

(** C2. In [SharedNNLM], and so in [SkipGram] and [CBOW] which keep its two
    modules, the embedding weight and the projection weight are one
    parameter object and the projection has no bias. Whatever in-place
    updates an optimizer applies afterwards, both modules read the same
    tensor [W] (so row [i] of one is row [i] of the other, for every [i]),
    and an update written through the location reached from one module is
    what the other module reads. *)
Theorem weight_tying_is_aliasing
    num_words embed_dim rand_emb rand_proj (σ0 : store) updates :
  let '(self, σ) := SharedNNLM.init num_words embed_dim rand_emb rand_proj σ0 in
  let emb := SharedNNLM.get_emb self in
  let proj := SharedNNLM.get_proj self in
  let σ' := optimizer_steps updates σ in
  SkipGram.init num_words embed_dim rand_emb rand_proj σ0
    = (SkipGram.Build self emb proj, σ)
  ∧ CBOW.init num_words embed_dim rand_emb rand_proj σ0
    = (CBOW.Build self emb proj, σ)
  ∧ ∃ l W,
      weight_loc σ' emb = Some l ∧ weight_loc σ' proj = Some l
      ∧ bias_loc σ' proj = None
      ∧ weight σ' emb = Some W ∧ weight σ' proj = Some W
      ∧ shape2 W = (num_words, embed_dim)
      ∧ (∀ i, (λ t, row t i) <$> weight σ' emb = Some (row W i)
              ∧ (λ t, row t i) <$> weight σ' proj = Some (row W i))
      ∧ ∀ new,
          weight (inplace_update l new σ') emb
            = Some (tabulate2 (num_words, embed_dim) new)
          ∧ weight (inplace_update l new σ') proj
            = Some (tabulate2 (num_words, embed_dim) new).
Proof.
  unfold SkipGram.init, CBOW.init.
  pose proof (SharedNNLM_init_tied num_words embed_dim rand_emb rand_proj σ0)
    as HT.
  destruct (SharedNNLM.init num_words embed_dim rand_emb rand_proj σ0)
    as [self σ].
  split; [done|]. split; [done|].
  destruct (tied_optimizer_steps updates _ _ _ _ HT) as (W & HT' & Hshape).
  destruct (tied_weight _ _ _ _ HT') as (l & Hle & Hlp & Hb & Hwe & Hwp).
  exists l, W. simpl in Hshape. split_and!; try done.
  - intros i. by rewrite Hwe, Hwp.
  - intros new.
    destruct (tied_inplace_update _ _ _ _ l new HT') as (W' & HT'' & _ & HW').
    rewrite (HW' Hle), Hshape in HT''.
    destruct (tied_weight _ _ _ _ HT'') as (_ & _ & _ & _ & -> & ->). done.
Qed.

Lemma comprehension_ok {A B} (f : A → result B) (g : A → B) (l : list A) :
  Forall (λ x, f x = Ok (g x)) l → comprehension f l = Ok (g <$> l).
Proof. induction 1 as [|x l Hx _ IH]; simpl; [done|]. by rewrite Hx, IH. Qed.

Lemma embedding_row_ok W V i :
  wf2 W → (shape2 W).1 = V → in_range V i →
  embedding_row W i = Ok (lookup_embedding W i).
Proof.
  intros [Hlen _] <- Hi. unfold embedding_row, lookup_embedding, row.
  rewrite bool_decide_eq_true_2 by done.
  destruct (lookup_lt_is_Some_2 (data2 W) (Z.to_nat i)) as [r Hr].
  { rewrite Hlen. unfold in_range in Hi. lia. }
  by rewrite (list_lookup_total_correct _ _ _ Hr), Hr.
Qed.

Lemma SkipGram_forward_tied σ (self : SkipGram.t) W x :
  tied σ (SkipGram.emb self) (SkipGram.proj self) W → wf2 W →
  Forall (in_range (shape2 W).1) x →
  SkipGram.forward σ self x = Ok (skipgram_logits W x).
Proof.
  intros (l & He & Hp & Hl) HW Hx.
  unfold SkipGram.forward, call_embedding1, call_linear, param2.
  rewrite He, Hp, Hl. unfold F_embedding1.
  rewrite (comprehension_ok _ (lookup_embedding W)).
  - simpl. unfold F_linear. simpl.
    rewrite bool_decide_eq_true_2 by done. simpl.
    unfold skipgram_logits. do 2 f_equal.
    rewrite <-list_fmap_compose. done.
  - eapply Forall_impl; [exact Hx|]. intros i Hi.
    by eapply embedding_row_ok.
Qed.

Lemma CBOW_forward_tied σ (self : CBOW.t) W x :
  tied σ (CBOW.emb self) (CBOW.proj self) W → wf2 W →
  Forall (Forall (in_range (shape2 W).1)) (idata2 x) →
  CBOW.forward σ self x = Ok (cbow_logits W x).
Proof.
  intros (l & He & Hp & Hl) HW Hx.
  unfold CBOW.forward, call_embedding2, call_linear, param2.
  rewrite He, Hp, Hl. unfold F_embedding2.
  rewrite (comprehension_ok _ (fmap (lookup_embedding W))).
  - simpl. unfold sum_axis1. simpl. destruct (ishape2 x) as [b c] eqn:Hsh.
    simpl. unfold F_linear. simpl.
    rewrite bool_decide_eq_true_2 by done. simpl.
    unfold cbow_logits. rewrite Hsh. simpl. do 2 f_equal.
    rewrite <-!list_fmap_compose. done.
  - eapply Forall_impl; [exact Hx|]. intros ctx Hctx.
    apply comprehension_ok.
    eapply Forall_impl; [exact Hctx|]. intros i Hi.
    by eapply embedding_row_ok.
Qed.

(** ** Linearity of the bias-free projection *)

Section Linearity.
Local Open Scope R_scope.









End Linearity.

Lemma length_logits_of W v : wf2 W → length (logits_of W v) = (shape2 W).1.
Proof. intros [HV _]. unfold logits_of. by rewrite length_fmap. Qed.

Lemma skipgram_logits_wf W x : wf2 W → wf2 (skipgram_logits W x).
Proof.
  intros HW. split; simpl.
  - by rewrite length_fmap.
  - apply Forall_fmap, Forall_forall. intros i _. simpl.
    by apply length_logits_of.
Qed.

Lemma cbow_logits_wf W x : wf2 W → iwf2 x → wf2 (cbow_logits W x).
Proof.
  intros HW [Hx _]. split; simpl.
  - by rewrite length_fmap.
  - apply Forall_fmap, Forall_forall. intros ctx _. simpl.
    by apply length_logits_of.
Qed.

(** C5. With the embedding and the projection tied to the matrix [W] of
    shape (vocabulary size, embedding dimension), on indices in range:
    [SkipGram.forward] returns, for each index of the batch, the dot
    products of its embedding with every row of [W]; [CBOW.forward]
    returns, for each context, the dot products of the sum of the
    embeddings of the context with every row of [W]. Both results have one
    row per batch element and one column per vocabulary entry, and are the
    raw dot products (no normalisation is applied). *)
Theorem forward_modes
    (σs σc : store) (sg : SkipGram.t) (cb : CBOW.t) (Ws Wc : tensor2)
    (xs : list Z) (xc : itensor2) :
  tied σs (SkipGram.emb sg) (SkipGram.proj sg) Ws → wf2 Ws →
  tied σc (CBOW.emb cb) (CBOW.proj cb) Wc → wf2 Wc →
  Forall (in_range (shape2 Ws).1) xs →
  iwf2 xc → Forall (Forall (in_range (shape2 Wc).1)) (idata2 xc) →
  SkipGram.forward σs sg xs = Ok (skipgram_logits Ws xs)
  ∧ shape2 (skipgram_logits Ws xs) = (length xs, (shape2 Ws).1)
  ∧ wf2 (skipgram_logits Ws xs)
  ∧ CBOW.forward σc cb xc = Ok (cbow_logits Wc xc)
  ∧ shape2 (cbow_logits Wc xc) = ((ishape2 xc).1, (shape2 Wc).1)
  ∧ wf2 (cbow_logits Wc xc).
Proof.
  intros HTs HWs HTc HWc Hxs Hwf Hxc. split_and!.
  - by apply SkipGram_forward_tied.
  - done.
  - by apply skipgram_logits_wf.
  - by apply CBOW_forward_tied.
  - done.
  - by apply cbow_logits_wf.
Qed.




Lemma SkipGram_init_tied V d rand_emb rand_proj (σ0 : store) :
  tied (SkipGram.init V d rand_emb rand_proj σ0).2
       (SkipGram.emb (SkipGram.init V d rand_emb rand_proj σ0).1)
       (SkipGram.proj (SkipGram.init V d rand_emb rand_proj σ0).1)
       (tabulate2 (V, d) rand_emb).
Proof.
  unfold SkipGram.init.
  pose proof (SharedNNLM_init_tied V d rand_emb rand_proj σ0) as HT.
  by destruct (SharedNNLM.init V d rand_emb rand_proj σ0).
Qed.

Lemma CBOW_init_tied V d rand_emb rand_proj (σ0 : store) :
  tied (CBOW.init V d rand_emb rand_proj σ0).2
       (CBOW.emb (CBOW.init V d rand_emb rand_proj σ0).1)
       (CBOW.proj (CBOW.init V d rand_emb rand_proj σ0).1)
       (tabulate2 (V, d) rand_emb).
Proof.
  unfold CBOW.init.
  pose proof (SharedNNLM_init_tied V d rand_emb rand_proj σ0) as HT.
  by destruct (SharedNNLM.init V d rand_emb rand_proj σ0).
Qed.

Lemma in_range_demo : Forall (in_range 3) [0; 2; 1]%Z.
Proof. repeat constructor; unfold in_range; lia. Qed.

Lemma forward_modes_witness :
  let rand := λ i j : nat, INR (i + j) in
  let W := tabulate2 (3, 2)%nat rand in
  let sg := SkipGram.init 3 2 rand rand ∅ in
  let cb := CBOW.init 3 2 rand rand ∅ in
  let xs := [0; 2; 1]%Z in
  let xc := ITensor2 (2, 3)%nat [[0; 2; 1]; [1; 1; 0]]%Z in
  (tied sg.2 (SkipGram.emb sg.1) (SkipGram.proj sg.1) W ∧ wf2 W
   ∧ tied cb.2 (CBOW.emb cb.1) (CBOW.proj cb.1) W
   ∧ Forall (in_range 3) xs
   ∧ iwf2 xc ∧ Forall (Forall (in_range 3)) (idata2 xc))
  ∧ SkipGram.forward sg.2 sg.1 xs = Ok (skipgram_logits W xs)
  ∧ CBOW.forward cb.2 cb.1 xc = Ok (cbow_logits W xc).
Proof.
  intros rand W sg cb xs xc.
  assert (Hs : tied sg.2 (SkipGram.emb sg.1) (SkipGram.proj sg.1) W)
    by apply SkipGram_init_tied.
  assert (Hc : tied cb.2 (CBOW.emb cb.1) (CBOW.proj cb.1) W)
    by apply CBOW_init_tied.
  assert (HW : wf2 W) by apply tabulate2_wf.
  assert (Hxs : Forall (in_range 3) xs)
    by (repeat constructor; unfold in_range; lia).
  assert (Hwf : iwf2 xc) by (split; simpl; [done | by repeat constructor]).
  assert (Hxc : Forall (Forall (in_range 3)) (idata2 xc))
    by (repeat constructor; unfold in_range; lia).
  split; [done|].
  destruct (forward_modes sg.2 cb.2 sg.1 cb.1 W W xs xc Hs HW Hc HW Hxs Hwf Hxc)
    as (H1 & _ & _ & H2 & _).
  by split.
Defined.


(** ** Projection and debiasing *)

Section Projection.
Local Open Scope R_scope.

Lemma dot_sum_Fin (a b : list R) :
  dot_sum (Fin <$> a) (Fin <$> b) = Fin (rdot a b).
Proof.
  unfold dot_sum, rdot. revert b.
  induction a as [|x a IH]; intros [|y b]; simpl; try done.
  by rewrite IH.
Qed.

Lemma np_dot_Fin (a b : list R) :
  length a = length b → np_dot (Fin <$> a) (Fin <$> b) = Ok (Fin (rdot a b)).
Proof.
  intros H. unfold np_dot. rewrite !length_fmap, decide_True by done.
  by rewrite dot_sum_Fin.
Qed.

Lemma fmul_Fin_map (c : R) (b : list R) :
  fmul (Fin c) <$> (Fin <$> b) = Fin <$> vscale c b.
Proof. unfold vscale. rewrite <-!list_fmap_compose. done. Qed.



Lemma rdot_vscale_l (c : R) (b r : list R) :
  rdot (vscale c b) r = c * rdot b r.
Proof.
  revert r. induction b as [|y b IH]; intros [|z r];
    unfold rdot in *; simpl; try lra.
  unfold vscale in IH. rewrite IH. lra.
Qed.

Lemma rdot_self_nonneg (b : list R) : 0 <= rdot b b.
Proof.
  induction b as [|y b IH]; unfold rdot in *; simpl; [lra|]. nra.
Qed.


Lemma rdot_self_zero (b : list R) : Forall (λ x, x = 0) b → rdot b b = 0.
Proof.
  induction 1 as [|y b -> _ IH]; unfold rdot in *; simpl; [done|].
  rewrite IH. lra.
Qed.

Lemma rdot_zero_r (a b : list R) : Forall (λ x, x = 0) b → rdot a b = 0.
Proof.
  intros Hb. revert a. induction Hb as [|y b -> _ IH]; intros [|x a];
    unfold rdot in *; simpl; try done.
  rewrite IH. lra.
Qed.



Lemma project_Fin (a b : list R) :
  length a = length b → rdot b b ≠ 0 →
  project (Fin <$> a) (Fin <$> b)
  = Ok (Fin (rdot a b / rdot b b), Fin <$> vscale (rdot a b / rdot b b) b).
Proof.
  intros Hlen Hb. unfold project.
  rewrite !np_dot_Fin by done. simpl.
  rewrite decide_False by done. by rewrite fmul_Fin_map.
Qed.




End Projection.


(** ** Division by zero *)

Section ZeroDivision.
Local Open Scope R_scope.

Lemma np_dot_raise (a b : list float) e :
  np_dot a b = Raise e ↔ length a ≠ length b ∧ e = ValueError.
Proof.
  unfold np_dot. case_decide; split.
  - done.
  - by intros [? _].
  - by intros [= <-].
  - by intros [_ ->].
Qed.

Lemma project_raise (a b : list float) e :
  project a b = Raise e ↔ length a ≠ length b ∧ e = ValueError.
Proof.
  unfold project, np_dot.
  rewrite (decide_True (P := length b = length b)) by done.
  case_decide; simpl; split.
  - done.
  - by intros [? _].
  - by intros [= <-].
  - by intros [_ ->].
Qed.

Lemma cosine_similarity_raise (a b : list float) e :
  cosine_similarity a b = Raise e ↔ length a ≠ length b ∧ e = ValueError.
Proof.
  unfold cosine_similarity, np_dot.
  case_decide; simpl; split.
  - done.
  - by intros [? _].
  - by intros [= <-].
  - by intros [_ ->].
Qed.

Lemma np_linalg_norm_Fin (a : list R) :
  np_linalg_norm (Fin <$> a) = Fin (sqrt (rdot a a)).
Proof.
  unfold np_linalg_norm. rewrite dot_sum_Fin. simpl.
  pose proof (rdot_self_nonneg a). by rewrite decide_False by lra.
Qed.

Lemma project_zero_vector (a b : list R) :
  length a = length b → Forall (λ x, x = 0) b →
  project (Fin <$> a) (Fin <$> b) = Ok (NaN, replicate (length b) NaN).
Proof.
  intros Hlen Hb. unfold project. rewrite !np_dot_Fin by done. simpl.
  rewrite (rdot_self_zero b), (rdot_zero_r a b) by done.
  rewrite !decide_True by done. do 2 f_equal.
  clear. induction b as [|y b IH]; simpl; [done|]. f_equal. apply IH.
Qed.

Lemma cosine_similarity_zero_vector_r (a b : list R) :
  length a = length b → Forall (λ x, x = 0) b →
  cosine_similarity (Fin <$> a) (Fin <$> b) = Ok NaN.
Proof.
  intros Hlen Hb. unfold cosine_similarity.
  rewrite !np_linalg_norm_Fin, np_dot_Fin by done. simpl.
  rewrite (rdot_self_zero b), (rdot_zero_r a b), sqrt_0, Rmult_0_r by done.
  by rewrite !decide_True by done.
Qed.

Lemma rdot_comm (a b : list R) : rdot a b = rdot b a.
Proof.
  unfold rdot. revert b. induction a as [|x a IH]; intros [|y b]; simpl;
    try done.
  rewrite IH. lra.
Qed.

Lemma cosine_similarity_zero_vector_l (a b : list R) :
  length a = length b → Forall (λ x, x = 0) b →
  cosine_similarity (Fin <$> b) (Fin <$> a) = Ok NaN.
Proof.
  intros Hlen Hb. unfold cosine_similarity.
  rewrite !np_linalg_norm_Fin, np_dot_Fin by done. simpl.
  rewrite (rdot_self_zero b), (rdot_comm b a), (rdot_zero_r a b), sqrt_0,
    Rmult_0_l by done.
  by rewrite !decide_True by done.
Qed.

(** C6, as the code has it. [project] and [cosine_similarity] contain no
    test of their arguments: the only exception they raise is the shape
    error of [np.dot] on arrays of different lengths. On finite arrays of
    one length they perform the division also when [b] (for
    [cosine_similarity]: either argument) is the zero vector, and return
    [nan] instead of raising. *)
Theorem zero_vector_division_is_not_guarded (a b : list R) :
  length a = length b → Forall (λ x, x = 0) b →
  project (Fin <$> a) (Fin <$> b) = Ok (NaN, replicate (length b) NaN)
  ∧ cosine_similarity (Fin <$> a) (Fin <$> b) = Ok NaN
  ∧ cosine_similarity (Fin <$> b) (Fin <$> a) = Ok NaN
  ∧ ∀ (u v : list float) e,
      (project u v = Raise e ↔ length u ≠ length v ∧ e = ValueError)
      ∧ (cosine_similarity u v = Raise e
         ↔ length u ≠ length v ∧ e = ValueError).
Proof.
  intros Hlen Hb. split_and!.
  - by apply project_zero_vector.
  - by apply cosine_similarity_zero_vector_r.
  - by apply cosine_similarity_zero_vector_l.
  - intros u v e. split; [apply project_raise | apply cosine_similarity_raise].
Qed.

Lemma zero_vector_division_is_not_guarded_witness :
  (length [1; 2] = length [0; 0] ∧ Forall (λ x, x = 0) [0; 0])
  ∧ project (Fin <$> [1; 2]) (Fin <$> [0; 0]) = Ok (NaN, [NaN; NaN])
  ∧ cosine_similarity (Fin <$> [1; 2]) (Fin <$> [0; 0]) = Ok NaN.
Proof.
  assert (Hlen : length [1; 2] = length [0; 0]) by reflexivity.
  assert (Hz : Forall (λ x, x = 0) [0; 0]) by (by repeat constructor).
  split; [done|].
  destruct (zero_vector_division_is_not_guarded [1; 2] [0; 0] Hlen Hz)
    as (H1 & H2 & _).
  by split.
Defined.

(** The claim that a zero vector is answered with a domain error fails on
    [project([1.0], [0.0])] and [cosine_similarity([1.0], [0.0])]: both
    return [nan]. *)
Lemma zero_vector_raises_no_domain_error :
  project [Fin 1] [Fin 0] = Ok (NaN, [NaN])
  ∧ cosine_similarity [Fin 1] [Fin 0] = Ok NaN
  ∧ ¬ (∃ e, project [Fin 1] [Fin 0] = Raise e)
  ∧ ¬ (∃ e, cosine_similarity [Fin 1] [Fin 0] = Raise e).
Proof.
  assert (H1 : project [Fin 1] [Fin 0] = Ok (NaN, [NaN])).
  { apply (project_zero_vector [1] [0]); [done | by repeat constructor]. }
  assert (H2 : cosine_similarity [Fin 1] [Fin 0] = Ok NaN).
  { apply (cosine_similarity_zero_vector_r [1] [0]);
      [done | by repeat constructor]. }
  split_and!; [done | done | |].
  - intros [e He]. by rewrite H1 in He.
  - intros [e He]. by rewrite H2 in He.
Qed.
End ZeroDivision.

(** ** Profession embeddings *)

Example py_split_demo :
  py_split "  registered   nurse " = ["registered"; "nurse"].
Proof. reflexivity. Qed.

Example py_split_blank : py_split "   " = [].
Proof. reflexivity. Qed.

Lemma comprehension_raise {A B} (f : A → result B) (l : list A) e :
  comprehension f l = Raise e
  ↔ ∃ l1 x l2, l = l1 ++ x :: l2
               ∧ Forall (λ y, ∃ v, f y = Ok v) l1 ∧ f x = Raise e.
Proof.
  induction l as [|y l IH]; simpl.
  - split; [done|]. intros (l1 & x & l2 & Hl & _). by destruct l1.
  - destruct (f y) as [v|e'] eqn:Hy; simpl.
    + destruct (comprehension f l) as [vs|e''] eqn:Hl; simpl.
      * split; [done|]. intros (l1 & x & l2 & Heq & Hl1 & Hx).
        destruct l1 as [|y' l1]; simplify_eq/=; [congruence|].
        apply Forall_cons in Hl1 as [_ Hl1].
        assert ((Ok vs : result (list B)) = Raise e); [|done].
        apply IH. by exists l1, x, l2.
      * split.
        -- intros [= ->]. destruct (proj1 IH eq_refl) as (l1 & x & l2 & -> & H1 & Hx).
           exists (y :: l1), x, l2. split_and!; [done| |done].
           apply Forall_cons. eauto.
        -- intros (l1 & x & l2 & Heq & Hl1 & Hx).
           destruct l1 as [|y' l1]; simplify_eq/=; [congruence|].
           apply Forall_cons in Hl1 as [_ Hl1]. f_equal.
           assert (Raise e'' = (Raise e : result (list B))); [|by simplify_eq].
           apply IH. by exists l1, x, l2.
    + split.
      * intros [= ->]. exists [], y, l. by split_and!.
      * intros (l1 & x & l2 & Heq & Hl1 & Hx).
        destruct l1 as [|y' l1]; simplify_eq/=; [congruence|].
        apply Forall_cons in Hl1 as [[v Hv] _]. congruence.
Qed.

Lemma comprehension_getitem_ok (E : table) ws es :
  Forall2 (λ w e, E !! w = Some e) ws es →
  comprehension (getitem E) ws = Ok es.
Proof.
  induction 1 as [|w e ws es Hw _ IH]; simpl; [done|].
  rewrite IH. unfold getitem. by rewrite Hw.
Qed.

Lemma comprehension_getitem_raise (E : table) ws e :
  comprehension (getitem E) ws = Raise e
  ↔ e = KeyError ∧ ∃ w, w ∈ ws ∧ E !! w = None.
Proof.
  rewrite comprehension_raise. split.
  - intros (l1 & w & l2 & -> & _ & Hw). unfold getitem in Hw.
    destruct (E !! w) eqn:Ew; simplify_eq. split; [done|].
    exists w. split; [|done]. set_solver.
  - intros [-> (w & Hin & Hw)].
    induction ws as [|w' ws IH]; [by apply elem_of_nil in Hin|].
    destruct (E !! w') as [v|] eqn:Ew'.
    + assert (w ∈ ws) as Hin'.
      { apply elem_of_cons in Hin as [->|]; [congruence|done]. }
      destruct (IH Hin') as (l1 & x & l2 & -> & Hl1 & Hx).
      exists (w' :: l1), x, l2. split_and!; [done| |done].
      apply Forall_cons. split; [|done]. exists v. unfold getitem. by rewrite Ew'.
    + exists [], w', ws. split_and!; [done|done|].
      unfold getitem. by rewrite Ew'.
Qed.

Lemma np_mean_axis0_not_KeyError vs : np_mean_axis0 vs ≠ Raise KeyError.
Proof. unfold np_mean_axis0. destruct vs; [done|]. by case_decide. Qed.

Section MeanOfOne.
Local Open Scope R_scope.

Lemma fdiv_fadd_one (x : float) : fdiv (fadd x (Fin 0)) (Fin (INR 1)) = x.
Proof.
  destruct x as [r| | |]; simpl.
  - rewrite decide_False by lra. f_equal. field.
  - by rewrite bool_decide_eq_true_2 by lra.
  - by rewrite bool_decide_eq_false_2 by lra.
  - done.
Qed.

Lemma np_mean_axis0_singleton (e : list float) :
  np_mean_axis0 [e] = Ok (Vec e).
Proof.
  unfold np_mean_axis0. rewrite decide_True by (by repeat constructor).
  do 2 f_equal. unfold column_sums. cbn [foldr length].
  induction e as [|x e IH]; simpl; [done|].
  f_equal; [apply fdiv_fadd_one | apply IH].
Qed.
End MeanOfOne.

Lemma profession_embedding_whole (E : table) p e :
  E !! p = Some e → profession_embedding E p = Ok (Vec e).
Proof.
  intros Hp. unfold profession_embedding, getitem. rewrite Hp. simpl.
  apply np_mean_axis0_singleton.
Qed.

Lemma profession_embedding_parts (E : table) p es :
  E !! p = None → Forall2 (λ w e, E !! w = Some e) (py_split p) es →
  profession_embedding E p = np_mean_axis0 es.
Proof.
  intros Hp Hws. unfold profession_embedding, getitem at 1. rewrite Hp.
  by rewrite (comprehension_getitem_ok _ _ _ Hws).
Qed.

Lemma profession_embedding_KeyError (E : table) p :
  profession_embedding E p = Raise KeyError
  ↔ E !! p = None ∧ ∃ w, w ∈ py_split p ∧ E !! w = None.
Proof.
  destruct (E !! p) as [e|] eqn:Hp.
  - rewrite (profession_embedding_whole _ _ _ Hp).
    split; [done | by intros [? _]].
  - unfold profession_embedding, getitem at 1. rewrite Hp.
    destruct (comprehension (getitem E) (py_split p)) as [es|e] eqn:Hc;
      cbv beta iota delta [mbind result_bind].
    + split.
      * intros H. by apply np_mean_axis0_not_KeyError in H.
      * intros [_ Hw].
        assert (comprehension (getitem E) (py_split p) = Raise KeyError)
          by (by apply comprehension_getitem_raise).
        congruence.
    + apply comprehension_getitem_raise in Hc as [-> Hw]. done.
Qed.

Lemma profession_loop_ok (E : table) acc ps d :
  profession_loop E acc ps = Ok d →
  (∀ p, p ∈ ps → ∃ v, profession_embedding E p = Ok v ∧ d !! p = Some v)
  ∧ (∀ p, p ∉ ps → d !! p = acc !! p).
Proof.
  revert acc. induction ps as [|q ps IH]; intros acc; simpl.
  - intros [= ->]. split; [|done]. intros p Hp. by apply elem_of_nil in Hp.
  - destruct (profession_embedding E q) as [v|e] eqn:Hq; simpl; [|done].
    intros Hloop. destruct (IH _ Hloop) as [Hin Hout]. split.
    + intros p Hp. destruct (decide (p ∈ ps)) as [Hps|Hps]; [by apply Hin|].
      apply elem_of_cons in Hp as [->|]; [|done].
      exists v. split; [done|]. by rewrite Hout, lookup_insert_eq.
    + intros p Hp. apply not_elem_of_cons in Hp as [Hne Hps].
      by rewrite Hout, lookup_insert_ne.
Qed.

Lemma profession_loop_raise (E : table) acc ps e :
  profession_loop E acc ps = Raise e
  ↔ ∃ l1 p l2, ps = l1 ++ p :: l2
               ∧ Forall (λ q, ∃ v, profession_embedding E q = Ok v) l1
               ∧ profession_embedding E p = Raise e.
Proof.
  revert acc. induction ps as [|q ps IH]; intros acc; simpl.
  - split; [done|]. intros (l1 & x & l2 & Hl & _). by destruct l1.
  - destruct (profession_embedding E q) as [v|e'] eqn:Hq; simpl.
    + rewrite IH. split.
      * intros (l1 & p & l2 & -> & Hl1 & Hp).
        exists (q :: l1), p, l2. split_and!; [done| |done].
        apply Forall_cons. eauto.
      * intros (l1 & p & l2 & Heq & Hl1 & Hp).
        destruct l1 as [|q' l1]; simplify_eq/=; [congruence|].
        apply Forall_cons in Hl1 as [_ Hl1]. by exists l1, p, l2.
    + split.
      * intros [= ->]. exists [], q, ps. by split_and!.
      * intros (l1 & p & l2 & Heq & Hl1 & Hp).
        destruct l1 as [|q' l1]; simplify_eq/=; [congruence|].
        apply Forall_cons in Hl1 as [[v Hv] _]. congruence.
Qed.

(** C9. [compute_profession_embeddings] handles each profession in list
    order. A profession found in the table as a whole is mapped to its own
    embedding; one that is not found is mapped to the mean of the
    embeddings of its words; the lookup error ([KeyError]) arises for a
    profession exactly when it is not in the table and one of its words is
    not either. The first profession that raises ends the call; when none
    does, the returned dictionary holds the value of every profession. *)
Theorem compute_profession_embeddings_fallback
    (word_to_embedding : table) (professions : list string) :
  (∀ p e, word_to_embedding !! p = Some e →
          profession_embedding word_to_embedding p = Ok (Vec e))
  ∧ (∀ p es, word_to_embedding !! p = None →
             Forall2 (λ w e, word_to_embedding !! w = Some e) (py_split p) es →
             profession_embedding word_to_embedding p = np_mean_axis0 es)
  ∧ (∀ p, profession_embedding word_to_embedding p = Raise KeyError
          ↔ word_to_embedding !! p = None
            ∧ ∃ w, w ∈ py_split p ∧ word_to_embedding !! w = None)
  ∧ (∀ d, compute_profession_embeddings word_to_embedding professions = Ok d →
          ∀ p, p ∈ professions →
               ∃ v, profession_embedding word_to_embedding p = Ok v
                    ∧ d !! p = Some v)
  ∧ (∀ e, compute_profession_embeddings word_to_embedding professions = Raise e
          ↔ ∃ l1 p l2,
              professions = l1 ++ p :: l2
              ∧ Forall (λ q, ∃ v, profession_embedding word_to_embedding q = Ok v) l1
              ∧ profession_embedding word_to_embedding p = Raise e).
Proof.
  split_and!.
  - apply profession_embedding_whole.
  - apply profession_embedding_parts.
  - apply profession_embedding_KeyError.
  - intros d Hd. by apply (profession_loop_ok _ _ _ _ Hd).
  - intros e. apply profession_loop_raise.
Qed.

Lemma compute_profession_embeddings_fallback_witness :
  let E : table := <["nurse" := [Fin 1; Fin 3]]> ∅ in
  (E !! "flight nurse" = None
   ∧ "flight" ∈ py_split "flight nurse" ∧ E !! "flight" = None)
  ∧ profession_embedding E "flight nurse" = Raise KeyError
  ∧ profession_embedding E "nurse" = Ok (Vec [Fin 1; Fin 3])
  ∧ compute_profession_embeddings E ["nurse"; "flight nurse"] = Raise KeyError.
Proof.
  intros E.
  assert (H1 : E !! "flight nurse" = None) by done.
  assert (H2 : "flight" ∈ py_split "flight nurse")
    by (change (py_split "flight nurse") with ["flight"; "nurse"]; set_solver).
  assert (H3 : E !! "flight" = None) by done.
  assert (H4 : E !! "nurse" = Some [Fin 1; Fin 3]) by done.
  destruct (compute_profession_embeddings_fallback E ["nurse"; "flight nurse"])
    as (Hwhole & _ & Hkey & _ & Hraise).
  assert (H5 : profession_embedding E "flight nurse" = Raise KeyError).
  { apply Hkey. split; [done|]. by exists "flight". }
  split_and!; [done.. | by apply Hwhole |].
  apply Hraise. exists ["nurse"], "flight nurse", []. split_and!; [done| |done].
  apply Forall_singleton. exists (Vec [Fin 1; Fin 3]). by apply Hwhole.
Defined.

(** ** The WEAT permutation test *)

Example combinations_demo :
  combinations ["a"; "b"; "c"; "d"] 2
  = [["a"; "b"]; ["a"; "c"]; ["a"; "d"]; ["b"; "c"]; ["b"; "d"]; ["c"; "d"]].
Proof. reflexivity. Qed.

Example compute_partitions_demo :
  compute_partitions ["a"; "b"] = [["a"]; ["b"]].
Proof. reflexivity. Qed.

Section Combinations.
Context {A : Type}.
Implicit Types (l c : list A) (k : nat).

Lemma length_combinations l k : length (combinations l k) = binom (length l) k.
Proof.
  revert k. induction l as [|x l IH]; intros [|k]; simpl; try done.
  by rewrite length_app, length_fmap, !IH.
Qed.

Lemma combinations_0 l : combinations l 0 = [[]].
Proof. by destruct l. Qed.

Lemma elem_of_combinations l k c :
  c ∈ combinations l k ↔ c `sublist_of` l ∧ length c = k.
Proof.
  revert k c. induction l as [|x l IH]; intros k c.
  - destruct k; simpl.
    + rewrite list_elem_of_singleton. split.
      * by intros ->.
      * intros [_ Hc]. by apply nil_length_inv.
    + split; [by intros ?%elem_of_nil|].
      intros [Hs Hc]. apply sublist_nil_r in Hs as ->. done.
  - destruct k as [|k].
    + rewrite combinations_0, list_elem_of_singleton. split.
      * intros ->. split; [apply sublist_nil_l | done].
      * intros [_ Hc]. by apply nil_length_inv.
    + simpl. rewrite elem_of_app, list_elem_of_fmap. split.
      * intros [(c' & -> & [Hs Hc]%IH)|[Hs Hc]%IH].
        -- split; [by apply sublist_skip | by rewrite <-Hc].
        -- split; [by apply sublist_cons | done].
      * intros [Hs Hc]. apply sublist_cons_r in Hs as [Hs|(c' & -> & Hs)].
        -- right. by apply IH.
        -- left. exists c'. split; [done|]. apply IH. simpl in Hc.
           split; [done | lia].
Qed.
End Combinations.

Lemma binom_gt n k : n < k → binom n k = 0.
Proof.
  revert k. induction n as [|n IH]; intros [|k] H; simpl; try lia.
  rewrite !IH by lia. done.
Qed.

Lemma binom_diag n : binom n n = 1.
Proof. induction n as [|n IH]; simpl; [done|]. by rewrite IH, binom_gt by lia. Qed.

(** [binom] is the binomial coefficient [n! / (k! (n - k)!)]. *)
Lemma binom_fact n k :
  k ≤ n → binom n k * (fact k * fact (n - k)) = fact n.
Proof.
  revert k. induction n as [|n IH]; intros k Hk.
  - replace k with 0 by lia. done.
  - destruct k as [|k]; [simpl; lia|].
    destruct (decide (k = n)) as [->|Hne].
    + simpl binom. rewrite binom_diag, binom_gt by lia.
      replace (S n - S n) with 0 by lia. simpl. lia.
    + assert (Hk1 : k ≤ n) by lia. assert (Hk2 : S k ≤ n) by lia.
      pose proof (IH k Hk1) as IH1. pose proof (IH (S k) Hk2) as IH2.
      replace (n - k) with (S (n - S k)) in IH1 by lia.
      replace (S n - S k) with (S (n - S k)) by lia.
      change (binom (S n) (S k)) with (binom n k + binom n (S k)).
      change (fact (S n)) with (S n * fact n).
      change (fact (S k)) with (S k * fact k) in *.
      change (fact (S (n - S k))) with (S (n - S k) * fact (n - S k)) in *.
      set (a := binom n k) in *. set (b := binom n (S k)) in *.
      set (fk := fact k) in *. set (fr := fact (n - S k)) in *.
      set (r := n - S k) in *.
      assert (Hn : S n = S k + S r) by lia. rewrite Hn.
      rewrite <-IH1 at 1. nia.
Qed.

Lemma binom_pos n k : k ≤ n → 0 < binom n k.
Proof.
  intros Hk. pose proof (binom_fact n k Hk) as H.
  pose proof (lt_O_fact n). destruct (binom n k); lia.
Qed.

Lemma comprehension_total {A B} (f : A → result B) (l : list A) :
  Forall (λ x, ∃ v, f x = Ok v) l →
  ∃ vs, comprehension f l = Ok vs ∧ length vs = length l.
Proof.
  induction 1 as [|x l [v Hv] _ (vs & IH & Hlen)]; simpl.
  - by exists [].
  - exists (v :: vs). rewrite Hv, IH. simpl. by rewrite Hlen.
Qed.

Lemma comprehension_length {A B} (f : A → result B) (l : list A) vs :
  comprehension f l = Ok vs → length vs = length l.
Proof.
  revert vs. induction l as [|x l IH]; intros vs; simpl.
  - by intros [= <-].
  - destruct (f x) as [v|]; simpl; [|done].
    destruct (comprehension f l) as [vs'|]; simpl; [|done].
    intros [= <-]. simpl. by rewrite (IH vs').
Qed.

Section Totality.
Context (E : table) (d : nat).
Hypothesis uniform : map_Forall (λ _ v, length v = d) E.

Lemma getitem_all_present ws :
  Forall (present E) ws →
  ∃ es, comprehension (getitem E) ws = Ok es ∧ Forall (λ e, length e = d) es.
Proof.
  induction 1 as [|w ws [e He] _ (es & IH & Hes)]; simpl.
  - by exists [].
  - exists (e :: es). rewrite IH. unfold getitem. rewrite He. simpl.
    split; [done|]. apply Forall_cons. split; [|done].
    by apply (uniform w).
Qed.

Lemma cosine_similarity_all e es :
  length e = d → Forall (λ e', length e' = d) es →
  ∃ cs, comprehension (cosine_similarity e) es = Ok cs.
Proof.
  intros He Hes.
  destruct (comprehension_total (cosine_similarity e) es) as (cs & Hcs & _).
  - eapply Forall_impl; [exact Hes|]. intros e' He'. simpl.
    unfold cosine_similarity, np_dot. rewrite decide_True by congruence.
    simpl. eauto.
  - eauto.
Qed.

Lemma weat_association_ok w A B :
  present E w → Forall (present E) A → Forall (present E) B →
  ∃ v, weat_association w A B E = Ok v.
Proof.
  intros [e He] HA HB. unfold weat_association.
  destruct (getitem_all_present A HA) as (eA & -> & HeA).
  destruct (getitem_all_present B HB) as (eB & -> & HeB).
  unfold getitem. rewrite He.
  assert (Hd : length e = d) by by apply (uniform w).
  destruct (cosine_similarity_all e eA Hd HeA) as (cA & HcA).
  destruct (cosine_similarity_all e eB Hd HeB) as (cB & HcB).
  simpl. rewrite HcA. simpl. rewrite HcB. simpl. eauto.
Qed.

Lemma weat_differential_association_ok X Y A B f :
  Forall (present E) X → Forall (present E) Y → Forall (present E) A → Forall (present E) B →
  ∃ s, weat_differential_association X Y A B E f = Ok s.
Proof.
  intros HX HY HA HB. unfold weat_differential_association.
  destruct (comprehension_total (λ x, weat_association x A B E) X)
    as (sx & -> & _).
  { eapply Forall_impl; [exact HX|]. intros x Hx. by apply weat_association_ok. }
  destruct (comprehension_total (λ y, weat_association y A B E) Y)
    as (sy & -> & _).
  { eapply Forall_impl; [exact HY|]. intros y Hy. by apply weat_association_ok. }
  simpl. eauto.
Qed.
End Totality.

Lemma permutation_loop_counts s XY A B E parts stats total total_true :
  partition_statistics XY A B E parts = Ok stats →
  permutation_loop s XY A B E parts total total_true
  = Ok (total + length parts, total_true + count_exceeding s stats).
Proof.
  unfold partition_statistics.
  revert stats total total_true.
  induction parts as [|X_i parts IH]; intros stats total total_true; simpl.
  - intros [= <-]. unfold count_exceeding. simpl. do 2 f_equal; lia.
  - destruct (weat_differential_association X_i (complement XY X_i) A B E
                weat_association) as [s_i|] eqn:Hs; simpl; [|done].
    destruct (comprehension _ parts) as [stats'|] eqn:Hc; simpl; [|done].
    intros [= <-]. rewrite (IH stats') by done.
    unfold count_exceeding. rewrite filter_cons.
    destruct (fgt s_i s) eqn:Hgt.
    + rewrite decide_True by done. simpl. do 2 f_equal; lia.
    + rewrite decide_False by done. do 2 f_equal; lia.
Qed.

Lemma count_exceeding_le s stats : count_exceeding s stats ≤ length stats.
Proof. apply length_filter. Qed.

Lemma complement_cons_in (l c : list string) x :
  x ∈ c → complement (x :: l) c = complement l c.
Proof.
  intros Hx. unfold complement. rewrite filter_cons. by rewrite decide_False by auto.
Qed.

Lemma complement_cons_notin (l c : list string) x :
  x ∉ c → complement (x :: l) c = x :: complement l c.
Proof.
  intros Hx. unfold complement. rewrite filter_cons. by rewrite decide_True.
Qed.

Lemma complement_skip (l c : list string) x :
  x ∉ l → complement l (x :: c) = complement l c.
Proof.
  induction l as [|w l IH]; intros Hx; [done|].
  apply not_elem_of_cons in Hx as [Hne Hx].
  destruct (decide (w ∈ c)) as [Hw|Hw].
  - rewrite !complement_cons_in, IH; [done..|]. by apply list_elem_of_further.
  - rewrite !complement_cons_notin, IH; [done..|].
    intros [?|?]%elem_of_cons; [congruence|done].
Qed.

Lemma complement_sublist (XY c : list string) :
  NoDup XY → c `sublist_of` XY →
  length (complement XY c) + length c = length XY
  ∧ c ++ complement XY c ≡ₚ XY.
Proof.
  intros Hnd Hs. revert Hnd.
  induction Hs as [|x c l Hs IH|x c l Hs IH]; intros Hnd.
  - done.
  - apply NoDup_cons in Hnd as [Hx Hnd]. destruct (IH Hnd) as [IH1 IH2].
    rewrite complement_cons_in by apply list_elem_of_here.
    rewrite complement_skip by done.
    simpl. split; [lia | by f_equiv].
  - apply NoDup_cons in Hnd as [Hx Hnd]. destruct (IH Hnd) as [IH1 IH2].
    assert (x ∉ c) by (intros Hc; apply Hx; by eapply elem_of_sublist).
    rewrite complement_cons_notin by done.
    simpl. split; [lia|].
    by rewrite <-Permutation_middle, IH2.
Qed.

Lemma half_double n : (n + n) / 2 = n.
Proof. replace (n + n) with (n * 2) by lia. by rewrite Nat.div_mul. Qed.

Section PValue.
Local Open Scope R_scope.

Lemma fraction_bounds (c t : nat) :
  (c ≤ t)%nat → (0 < t)%nat → 0 <= INR c / INR t <= 1.
Proof.
  intros Hc Ht.
  assert (0 < INR t) by (by apply lt_0_INR).
  assert (0 <= INR c) by apply pos_INR.
  assert (INR c <= INR t) by (by apply le_INR).
  split.
  - apply Rmult_le_pos; [done|]. left. by apply Rinv_0_lt_compat.
  - apply (Rmult_le_reg_r (INR t)); [done|].
    unfold Rdiv. rewrite Rmult_assoc, Rinv_l by lra. lra.
Qed.

(** C1. For target lists [X] and [Y] of one length [n] (all words of [X],
    [Y], [A], [B] in the table, whose vectors have one dimension),
    [p_value_permutation_test] computes the statistic [s] of the given
    split, enumerates the combinations of size [n] of [X ++ Y], each once
    by position, which are [binom (2 n) n = (2 n)! / (n! n!)] many (6 for
    [n = 2]), pairs each combination with its complement, computed by
    filtering, and returns the number of partitions whose statistic is
    strictly greater than [s] divided by the number of partitions, a
    number between 0 and 1. When [X ++ Y] has no duplicates the complement
    has size [n] and forms with the combination a rearrangement of
    [X ++ Y]. *)
Theorem p_value_permutation_test_exact
    (X Y A B : list string) (E : table) (d : nat) :
  length X = length Y →
  Forall (present E) (X ++ Y ++ A ++ B) →
  map_Forall (λ _ v, length v = d) E →
  let XY := X ++ Y in
  let n := length X in
  ∃ (s : float) (stats : list float) (p : R),
    weat_differential_association X Y A B E weat_association = Ok s
    ∧ compute_partitions XY = combinations XY n
    ∧ length (compute_partitions XY) = binom (2 * n) n
    ∧ (binom (2 * n) n * (fact n * fact n) = fact (2 * n))%nat
    ∧ (∀ c, c ∈ compute_partitions XY ↔ c `sublist_of` XY ∧ length c = n)
    ∧ (NoDup XY → ∀ c, c ∈ compute_partitions XY →
         length (complement XY c) = n ∧ c ++ complement XY c ≡ₚ XY)
    ∧ partition_statistics XY A B E (compute_partitions XY) = Ok stats
    ∧ length stats = binom (2 * n) n
    ∧ p_value_permutation_test X Y A B E = Ok (Fin p)
    ∧ p = INR (count_exceeding s stats) / INR (binom (2 * n) n)
    ∧ 0 <= p <= 1
    ∧ (n = 2%nat → length (compute_partitions XY) = 6%nat).
Proof.
  intros Hlen Hpresent Huniform XY n.
  apply Forall_app in Hpresent as [HX Hrest].
  apply Forall_app in Hrest as [HY Hrest].
  apply Forall_app in Hrest as [HA HB].
  assert (HXY : Forall (present E) XY) by (by apply Forall_app).
  assert (HlenXY : length XY = (2 * n)%nat).
  { subst XY n. rewrite length_app. lia. }
  assert (Hparts : compute_partitions XY = combinations XY n).
  { unfold compute_partitions. f_equal. rewrite HlenXY.
    replace (2 * n)%nat with (n + n)%nat by lia. apply half_double. }
  assert (Hcount : length (compute_partitions XY) = binom (2 * n) n).
  { by rewrite Hparts, length_combinations, HlenXY. }
  assert (Hmem : ∀ c, c ∈ compute_partitions XY
                      ↔ c `sublist_of` XY ∧ length c = n).
  { intros c. rewrite Hparts. apply elem_of_combinations. }
  destruct (weat_differential_association_ok E d Huniform X Y A B
              weat_association HX HY HA HB) as [s Hs].
  destruct (comprehension_total
              (λ X_i, weat_differential_association
                        X_i (complement XY X_i) A B E weat_association)
              (compute_partitions XY)) as (stats & Hstats & Hstats_len).
  { apply Forall_forall. intros c [Hsub _]%Hmem.
    apply (weat_differential_association_ok E d Huniform); [| |done|done].
    - apply Forall_forall. intros w Hw.
      rewrite Forall_forall in HXY. apply HXY. by eapply elem_of_sublist.
    - apply Forall_forall. intros w Hw%list_elem_of_filter.
      rewrite Forall_forall in HXY. apply HXY. tauto. }
  assert (Hpos : (0 < binom (2 * n) n)%nat) by (apply binom_pos; lia).
  assert (Hbounds : 0 <= INR (count_exceeding s stats) / INR (binom (2 * n) n)
                    <= 1).
  { apply fraction_bounds; [|done].
    rewrite <-Hcount, <-Hstats_len. apply count_exceeding_le. }
  destruct Hbounds as [Hlo Hhi].
  exists s, stats, (INR (count_exceeding s stats) / INR (binom (2 * n) n)).
  split_and!; try done.
  - pose proof (binom_fact (2 * n) n ltac:(lia)) as Hf.
    by replace (2 * n - n)%nat with n in Hf by lia.
  - intros Hnd c [Hsub Hc]%Hmem.
    destruct (complement_sublist XY c Hnd Hsub) as [H1 H2].
    split; [lia | done].
  - congruence.
  - unfold p_value_permutation_test. rewrite Hs. simpl.
    fold XY. rewrite (permutation_loop_counts s XY A B E _ stats) by done.
    simpl. rewrite Hcount. unfold py_truediv.
    by rewrite decide_False by lia.
  - intros Hn. rewrite Hcount, Hn. reflexivity.
Qed.
End PValue.

Lemma p_value_permutation_test_exact_witness :
  let E : table :=
    <["a" := [Fin 1]]> (<["b" := [Fin 2]]> (<["c" := [Fin 3]]>
    (<["d" := [Fin 4]]> (<["p" := [Fin 1]]> (<["q" := [Fin (-1)]]> ∅))))) in
  let X := ["a"; "b"] in
  let Y := ["c"; "d"] in
  (length X = length Y
   ∧ Forall (present E) (X ++ Y ++ ["p"] ++ ["q"])
   ∧ map_Forall (λ _ v, length v = 1) E)
  ∧ length (compute_partitions (X ++ Y)) = 6
  ∧ ∃ p, p_value_permutation_test X Y ["p"] ["q"] E = Ok (Fin p)
         ∧ (0 <= p <= 1)%R.
Proof.
  intros E X Y.
  assert (H1 : length X = length Y) by reflexivity.
  assert (H2 : Forall (present E) (X ++ Y ++ ["p"] ++ ["q"])).
  { repeat apply Forall_cons_2; [..|apply Forall_nil_2]; by eexists. }
  assert (H3 : map_Forall (λ _ v, length v = 1) E).
  { repeat apply map_Forall_insert_2; [done..|apply map_Forall_empty]. }
  split; [done|].
  destruct (p_value_permutation_test_exact X Y ["p"] ["q"] E 1 H1 H2 H3)
    as (s & stats & p & _ & _ & _ & _ & _ & _ & _ & _ & Hp & _ & Hb & H6).
  split; [by apply H6|]. by exists p.
Defined.

(** ** Nearest neighbours *)

Section TopK.
Local Open Scope R_scope.

Lemma higher_total : Total higher.
Proof.
  intros p q. unfold higher.
  destruct (Rle_dec q.2 p.2); [by left | right; lra].
Qed.

Lemma higher_trans : Transitive higher.
Proof. intros p q r. unfold higher. lra. Qed.

Lemma fst_enumerate (v : list R) :
  (imap (λ i x, (i, x)) v).*1 = seq 0 (length v).
Proof.
  apply list_eq. intros i.
  rewrite list_lookup_fmap, list_lookup_imap.
  destruct (v !! i) as [x|] eqn:Hi; simpl.
  - rewrite lookup_seq_lt; [done|]. by eapply lookup_lt_Some.
  - rewrite lookup_seq_ge; [done|]. by apply lookup_ge_None.
Qed.

Lemma ranked_Permutation (v : list R) : ranked v ≡ₚ imap (λ i x, (i, x)) v.
Proof. apply merge_sort_Permutation. Qed.

Lemma ranked_sorted (v : list R) : StronglySorted higher (ranked v).
Proof.
  apply (@StronglySorted_merge_sort _ higher _ higher_trans higher_total).
Qed.

Lemma ranked_positions (v : list R) : (ranked v).*1 ≡ₚ seq 0 (length v).
Proof. by rewrite ranked_Permutation, fst_enumerate. Qed.

Lemma ranked_values (v : list R) p : p ∈ ranked v → v !! p.1 = Some p.2.
Proof.
  rewrite ranked_Permutation. intros (i & x & -> & Hx)%elem_of_lookup_imap.
  done.
Qed.

Lemma length_ranked (v : list R) : length (ranked v) = length v.
Proof. by rewrite ranked_Permutation, length_imap. Qed.

Lemma py_slice_from_1 {A} (l : list A) :
  py_slice l 1 (Z.of_nat (length l)) = drop 1 l.
Proof.
  unfold py_slice, adjust_index.
  destruct (Z.ltb_spec 1 0); [lia|].
  destruct (Z.ltb_spec (Z.of_nat (length l)) 0); [lia|].
  destruct l as [|x l]; [done|].
  replace (Z.to_nat (1 `min` Z.of_nat (length (x :: l)))) with 1%nat
    by (simpl length; lia).
  apply take_ge. rewrite length_drop. simpl length. lia.
Qed.

Lemma length_F_normalize (v : list R) : length (F_normalize v) = length v.
Proof. unfold F_normalize. by rewrite length_fmap. Qed.

Lemma compute_topk_similar_unfold (q : list R) (W : tensor2) (k : Z) :
  (shape2 W).2 = length q →
  (0 ≤ k)%Z → (k + 1 ≤ Z.of_nat (length (data2 W)))%Z →
  compute_topk_similar q W k
  = Ok (take (Z.to_nat k) (drop 1 (ranking W q))).
Proof.
  intros Hd Hk0 Hk. unfold compute_topk_similar, matmul_mv.
  cbn [F_normalize_rows shape2 data2].
  rewrite length_F_normalize, decide_True by done.
  cbv beta iota delta [mbind result_bind].
  rewrite <-list_fmap_compose.
  change ((λ row, rdot row (F_normalize q)) ∘ F_normalize <$> data2 W)
    with (similarities W q).
  unfold torch_topk.
  assert (Hlen : length (similarities W q) = length (data2 W))
    by (unfold similarities; by rewrite length_fmap).
  rewrite decide_True by lia.
  cbn [snd]. rewrite py_slice_from_1. f_equal.
  rewrite fmap_take. fold (ranking W q).
  rewrite take_drop_commute. do 2 f_equal. lia.
Qed.

Lemma eps_pos : 0 < eps.
Proof. unfold eps. apply Rinv_0_lt_compat, pow_lt. lra. Qed.

Lemma F_normalize_large (v : list R) :
  eps <= l2_norm v → F_normalize v = vscale (/ l2_norm v) v.
Proof.
  intros Hv. unfold F_normalize, vscale. rewrite Rmax_left by done.
  apply list_fmap_ext. intros _ x _. unfold Rdiv. lra.
Qed.

Lemma similarity_is_cosine (row q : list R) :
  eps <= l2_norm row → eps <= l2_norm q →
  rdot (F_normalize row) (F_normalize q) = cosine row q.
Proof.
  intros Hr Hq. pose proof eps_pos.
  rewrite !F_normalize_large by done.
  rewrite rdot_vscale_l, (rdot_comm row), rdot_vscale_l, (rdot_comm q).
  unfold cosine. field. split; lra.
Qed.

(** C8. For a query of the dimension of the matrix and [0 <= k],
    [k + 1] at most the number of rows: [compute_topk_similar] normalises
    the query and every row, ranks the rows by decreasing similarity
    (the cosine, for vectors whose norm is at least torch's [eps]), and
    returns the [k] positions ranked 2nd to [(k+1)]-th; the position ranked
    first is left out whatever it is. [word_analogy] runs the same routine
    on [emb(a) - emb(b) + emb(c)]. *)
Theorem compute_topk_similar_skips_first (q : list R) (W : tensor2) (k : Z) :
  wf2 W → (shape2 W).2 = length q →
  (0 ≤ k)%Z → (k + 1 ≤ Z.of_nat (shape2 W).1)%Z →
  let result := take (Z.to_nat k) (drop 1 (ranking W q)) in
  compute_topk_similar q W k = Ok result
  ∧ length result = Z.to_nat k
  ∧ ranking W q ≡ₚ seq 0 (shape2 W).1
  ∧ StronglySorted higher (ranked (similarities W q))
  ∧ (∀ p, p ∈ ranked (similarities W q) → similarities W q !! p.1 = Some p.2)
  ∧ (∀ i row, data2 W !! i = Some row →
       eps <= l2_norm row → eps <= l2_norm q →
       similarities W q !! i = Some (cosine row q))
  ∧ (∀ first, ranking W q !! 0%nat = Some first → first ∉ result)
  ∧ ∀ (σ : store) (emb : loc) (a b c : string)
      (index_map : gmap string Z) (index_to_word : gmap Z string)
      ia ib ic ea eb ec,
      weight σ emb = Some W →
      index_map !! a = Some ia → index_map !! b = Some ib →
      index_map !! c = Some ic →
      tensor_getrow W ia = Ok ea → tensor_getrow W ib = Ok eb →
      tensor_getrow W ic = Ok ec →
      word_analogy σ emb a b c index_map index_to_word k
      = (top ← compute_topk_similar (vadd (vsub ea eb) ec) W k;
         comprehension (λ idx : nat, getitem index_to_word (Z.of_nat idx)) top).
Proof.
  intros [HV HD] Hd Hk0 Hk result.
  assert (Hlen : length (ranking W q) = (shape2 W).1).
  { unfold ranking. rewrite length_fmap, length_ranked.
    unfold similarities. by rewrite length_fmap. }
  assert (Hperm : ranking W q ≡ₚ seq 0 (shape2 W).1).
  { unfold ranking. rewrite ranked_positions. unfold similarities.
    by rewrite length_fmap, HV. }
  split_and!.
  - apply compute_topk_similar_unfold; [done..|]. by rewrite HV.
  - subst result. rewrite length_take, length_drop, Hlen. lia.
  - done.
  - apply ranked_sorted.
  - apply ranked_values.
  - intros i row Hi Hr Hq. unfold similarities.
    rewrite list_lookup_fmap, Hi. simpl. f_equal.
    by apply similarity_is_cosine.
  - intros first Hfirst Hin. subst result.
    assert (Hnd : NoDup (ranking W q)) by (rewrite Hperm; apply NoDup_seq).
    destruct (ranking W q) as [|x rest]; [done|].
    simpl in Hfirst. injection Hfirst as ->.
    apply NoDup_cons in Hnd as [Hx _]. apply Hx.
    simpl in Hin. rewrite drop_0 in Hin.
    apply elem_of_take in Hin as (i & Hi & _).
    by eapply list_elem_of_lookup_2.
  - intros σ emb a b c index_map index_to_word ia ib ic ea eb ec
      HW Ha Hb Hc Hea Heb Hec.
    assert (Hget : ∀ w i, index_map !! w = Some i → getitem index_map w = Ok i).
    { intros w i Hw. unfold getitem. by rewrite Hw. }
    unfold word_analogy, emb_weight. rewrite HW.
    cbv beta iota delta [mbind result_bind].
    rewrite (Hget _ _ Ha), (Hget _ _ Hb), (Hget _ _ Hc), Hea, Heb, Hec.
    destruct (compute_topk_similar (vadd (vsub ea eb) ec) W k); [|done].
    by destruct (comprehension _ _).
Qed.
End TopK.

Lemma compute_topk_similar_skips_first_witness :
  let W := tabulate2 (3, 2)%nat (λ i j, INR (i + j)) in
  let q := [1; 0]%R in
  (wf2 W ∧ (shape2 W).2 = length q ∧ (0 ≤ 1)%Z
   ∧ (1 + 1 ≤ Z.of_nat (shape2 W).1)%Z)
  ∧ compute_topk_similar q W 1 = Ok (take 1 (drop 1 (ranking W q)))
  ∧ length (take 1 (drop 1 (ranking W q))) = 1.
Proof.
  intros W q.
  assert (H1 : wf2 W) by apply tabulate2_wf.
  assert (H2 : (shape2 W).2 = length q) by reflexivity.
  assert (H3 : (0 ≤ 1)%Z) by lia.
  assert (H4 : (1 + 1 ≤ Z.of_nat (shape2 W).1)%Z) by (simpl; lia).
  split; [done|].
  destruct (compute_topk_similar_skips_first q W 1 H1 H2 H3 H4)
    as (Hrun & Hlen & _).
  by split.
Defined.

(** ** Worked examples on concrete embeddings *)

Section Examples.
Local Open Scope R_scope.

Example project_demo :
  project [Fin 3; Fin 4] [Fin 1; Fin 0] = Ok (Fin 3, [Fin 3; Fin 0]).
Proof.
  change (project (Fin <$> [3; 4]) (Fin <$> [1; 0])
          = Ok (Fin 3, Fin <$> [3; 0])).
  rewrite project_Fin; [|done|unfold rdot; simpl; lra].
  unfold rdot, vscale. simpl.
  replace ((3 * 1 + (4 * 0 + 0)) / (1 * 1 + (0 * 0 + 0))) with 3 by field.
  repeat f_equal; lra.
Qed.

Lemma cosine_similarity_unit (x y : R) :
  x * x = 1 → y * y = 1 → cosine_similarity [Fin x] [Fin y] = Ok (Fin (x * y)).
Proof.
  intros Hx Hy.
  change (cosine_similarity (Fin <$> [x]) (Fin <$> [y]) = Ok (Fin (x * y))).
  unfold cosine_similarity.
  rewrite !np_linalg_norm_Fin, np_dot_Fin by done.
  unfold rdot. simpl.
  replace (x * x + 0) with 1 by lra. replace (y * y + 0) with 1 by lra.
  rewrite sqrt_1, decide_False by lra. do 2 f_equal. field.
Qed.

Lemma np_mean_singleton (x : float) : np_mean [x] = x.
Proof. unfold np_mean, np_sum. simpl foldr. apply fdiv_fadd_one. Qed.

(** The scenario of one target word on each side: the embeddings are the
    1-D unit vectors [a = p = 1] and [b = q = -1]. *)
Lemma weat_association_demo (E : table) (w : string) (x : R) :
  E !! w = Some [Fin x] → x * x = 1 →
  E !! "p" = Some [Fin 1] → E !! "q" = Some [Fin (-1)] →
  weat_association w ["p"] ["q"] E = Ok (Fin (2 * x)).
Proof.
  intros Hw Hx Hp Hq. unfold weat_association, getitem, comprehension.
  rewrite Hw, Hp, Hq. cbv beta iota delta [mbind result_bind mret result_ret].
  rewrite !cosine_similarity_unit by lra.
  rewrite !np_mean_singleton. simpl. do 2 f_equal. lra.
Qed.

Lemma weat_differential_association_demo (E : table) (u v : string) (x y : R) :
  E !! u = Some [Fin x] → x * x = 1 →
  E !! v = Some [Fin y] → y * y = 1 →
  E !! "p" = Some [Fin 1] → E !! "q" = Some [Fin (-1)] →
  weat_differential_association [u] [v] ["p"] ["q"] E weat_association
  = Ok (Fin (2 * x - 2 * y)).
Proof.
  intros Hu Hx Hv Hy Hp Hq. unfold weat_differential_association, comprehension.
  rewrite (weat_association_demo E u x), (weat_association_demo E v y) by done.
  simpl. do 2 f_equal. lra.
Qed.

Example p_value_permutation_test_demo :
  let E : table :=
    <["a" := [Fin 1]]> (<["b" := [Fin (-1)]]>
    (<["p" := [Fin 1]]> (<["q" := [Fin (-1)]]> ∅))) in
  weat_differential_association ["a"] ["b"] ["p"] ["q"] E weat_association
  = Ok (Fin 4)
  ∧ compute_partitions (["a"] ++ ["b"]) = [["a"]; ["b"]]
  ∧ p_value_permutation_test ["a"] ["b"] ["p"] ["q"] E = Ok (Fin 0).
Proof.
  intros E.
  assert (Ha : E !! "a" = Some [Fin 1]) by done.
  assert (Hb : E !! "b" = Some [Fin (-1)]) by done.
  assert (Hp : E !! "p" = Some [Fin 1]) by done.
  assert (Hq : E !! "q" = Some [Fin (-1)]) by done.
  assert (Hab : weat_differential_association ["a"] ["b"] ["p"] ["q"] E
                  weat_association = Ok (Fin (2 * 1 - 2 * -1))).
  { apply weat_differential_association_demo; (done || lra). }
  assert (Hba : weat_differential_association ["b"] ["a"] ["p"] ["q"] E
                  weat_association = Ok (Fin (2 * -1 - 2 * 1))).
  { apply weat_differential_association_demo; (done || lra). }
  split_and!.
  - rewrite Hab. do 2 f_equal. lra.
  - reflexivity.
  - unfold p_value_permutation_test. rewrite Hab.
    cbv beta iota delta [mbind result_bind].
    change (compute_partitions (["a"] ++ ["b"])) with [["a"]; ["b"]].
    unfold permutation_loop.
    change (complement (["a"] ++ ["b"]) ["a"]) with ["b"].
    change (complement (["a"] ++ ["b"]) ["b"]) with ["a"].
    rewrite Hab, Hba. cbv beta iota delta [mbind result_bind].
    unfold fgt. rewrite !bool_decide_eq_false_2 by lra.
    unfold py_truediv. rewrite decide_False by lia.
    do 2 f_equal. simpl. lra.
Qed.
End Examples.

(** * Further properties *)

(** ** The preprocessing loops over a corpus *)

Section Preprocessing.
Context {A : Type}.
Implicit Types (indices : list A) (indices_list : list (list A)).

Lemma length_py_slice {B} (l : list B) (a b : Z) :
  length (py_slice l a b)
  = Z.to_nat (adjust_index (Z.of_nat (length l)) b
              - adjust_index (Z.of_nat (length l)) a)
    `min` (length l - Z.to_nat (adjust_index (Z.of_nat (length l)) a)).
Proof. unfold py_slice. by rewrite length_take, length_drop. Qed.

Lemma length_py_slice_eq {B C} (l : list B) (m : list C) (a b : Z) :
  length l = length m → length (py_slice l a b) = length (py_slice m a b).
Proof. intros H. by rewrite !length_py_slice, H. Qed.

Lemma build_pairs_same_length indices (window_size : Z) :
  length (build_current_surrounding_pairs indices window_size).1
  = length (build_current_surrounding_pairs indices window_size).2.
Proof.
  unfold build_current_surrounding_pairs. cbn [fst snd].
  apply length_py_slice_eq. by rewrite length_imap.
Qed.

Lemma cbow_preprocessing_acc indices_list (window_size : Z) src tgt :
  foldl (λ '(sources, targets) indices,
           let '(surrounding, current) :=
             build_current_surrounding_pairs indices window_size in
           (sources ++ surrounding, targets ++ current))
        (src, tgt) indices_list
  = (src ++ concat ((λ s, (build_current_surrounding_pairs s window_size).1)
                      <$> indices_list),
     tgt ++ concat ((λ s, (build_current_surrounding_pairs s window_size).2)
                      <$> indices_list)).
Proof.
  revert src tgt. induction indices_list as [|s l IH]; intros src tgt.
  - simpl. by rewrite !app_nil_r.
  - cbn [foldl]. destruct (build_current_surrounding_pairs s window_size)
      as [sur cur] eqn:Hs.
    rewrite IH. rewrite !fmap_cons, Hs. cbn [concat fst snd].
    by rewrite !app_assoc.
Qed.

Lemma cbow_preprocessing_lengths indices_list (window_size : Z) :
  length (cbow_preprocessing indices_list window_size).1
  = length (cbow_preprocessing indices_list window_size).2.
Proof.
  unfold cbow_preprocessing. rewrite cbow_preprocessing_acc. cbn [fst snd app].
  induction indices_list as [|s l IH]; [done|].
  rewrite !fmap_cons. cbn [concat]. rewrite !length_app.
  by rewrite build_pairs_same_length, IH.
Qed.

(** X1. [cbow_preprocessing] treats every sequence on its own and puts the
    results one after the other, in the order of the corpus: no window
    spans two sequences. Whatever the window size (also 0 or negative),
    there are as many contexts as centres. *)
Theorem cbow_preprocessing_per_sequence indices_list (window_size : Z) :
  cbow_preprocessing indices_list window_size
  = (concat ((λ s, (build_current_surrounding_pairs s window_size).1)
               <$> indices_list),
     concat ((λ s, (build_current_surrounding_pairs s window_size).2)
               <$> indices_list))
  ∧ length (cbow_preprocessing indices_list window_size).1
    = length (cbow_preprocessing indices_list window_size).2.
Proof.
  split; [|apply cbow_preprocessing_lengths].
  unfold cbow_preprocessing. by rewrite cbow_preprocessing_acc.
Qed.

Lemma skipgram_preprocessing_acc indices_list (window_size : Z) src tgt :
  foldl (λ '(sources, targets) indices,
           let '(surrounding, current) :=
             build_current_surrounding_pairs indices window_size in
           let '(surroundings_expanded, current_expanded) :=
             expand_surrounding_words surrounding current in
           (sources ++ surroundings_expanded, targets ++ current_expanded))
        (src, tgt) indices_list
  = (src ++ concat ((λ s, (expand_surrounding_words
                             (build_current_surrounding_pairs s window_size).1
                             (build_current_surrounding_pairs s window_size).2).1)
                      <$> indices_list),
     tgt ++ concat ((λ s, (expand_surrounding_words
                             (build_current_surrounding_pairs s window_size).1
                             (build_current_surrounding_pairs s window_size).2).2)
                      <$> indices_list)).
Proof.
  revert src tgt. induction indices_list as [|s l IH]; intros src tgt.
  - simpl. by rewrite !app_nil_r.
  - cbn [foldl]. destruct (build_current_surrounding_pairs s window_size)
      as [sur cur] eqn:Hs.
    destruct (expand_surrounding_words sur cur) as [es ec] eqn:He.
    rewrite IH. rewrite !fmap_cons, Hs. cbn [concat fst snd]. rewrite He.
    cbn [fst snd]. by rewrite !app_assoc.
Qed.

Lemma expand_as_flattening (sur : list (list A)) (cur : list A) width :
  Forall (λ win, length win = width) sur →
  length sur = length cur →
  expand_surrounding_words sur cur
  = (concat sur, concat ((λ c, replicate width c) <$> cur)).
Proof.
  intros Hw Hlen. destruct sur as [|first rest].
  - by destruct cur.
  - apply Forall_cons in Hw as [<- _]. done.
Qed.

Lemma build_pairs_widths indices (w : nat) :
  1 ≤ w →
  Forall (λ win, length win = 2 * w)
         (build_current_surrounding_pairs indices (Z.of_nat w)).1.
Proof.
  intros Hw. rewrite build_pairs_unfold by done. cbn [fst].
  apply Forall_fmap, Forall_forall. intros k Hk%elem_of_seq. simpl.
  apply window_at_length. lia.
Qed.

Lemma concat_concat_fmap {B} (ll : list (list (list B))) :
  concat (concat ll) = concat ((λ l, concat l) <$> ll).
Proof.
  induction ll as [|l ll IH]; [done|].
  rewrite fmap_cons. cbn [concat]. by rewrite concat_app, IH.
Qed.

(** X2. For a window size [w >= 1], the Skip-Gram training data is the
    CBOW training data flattened: its sources are the CBOW windows put end
    to end, and its targets repeat every CBOW centre [2 * w] times. So
    there are as many sources as targets, [2 * w] per CBOW pair. *)
Theorem skipgram_preprocessing_flattens_cbow indices_list (window_size : Z) :
  (1 ≤ window_size)%Z →
  let cbow := cbow_preprocessing indices_list window_size in
  let skip := skipgram_preprocessing indices_list window_size in
  skip.1 = concat cbow.1
  ∧ skip.2 = concat ((λ c, replicate (2 * Z.to_nat window_size) c) <$> cbow.2)
  ∧ length skip.1 = length skip.2
  ∧ length skip.1 = 2 * Z.to_nat window_size * length cbow.1.
Proof.
  intros Hw cbow skip.
  set (w := Z.to_nat window_size).
  assert (Hws : window_size = Z.of_nat w) by (subst w; lia).
  assert (1 ≤ w) by lia.
  assert (Hexp : ∀ s : list A,
    expand_surrounding_words
      (build_current_surrounding_pairs s window_size).1
      (build_current_surrounding_pairs s window_size).2
    = (concat (build_current_surrounding_pairs s window_size).1,
       concat ((λ c, replicate (2 * w) c)
                 <$> (build_current_surrounding_pairs s window_size).2))).
  { intros s. apply expand_as_flattening.
    - rewrite Hws. by apply build_pairs_widths.
    - apply build_pairs_same_length. }
  assert (H1 : skip.1 = concat cbow.1).
  { subst skip cbow. unfold skipgram_preprocessing, cbow_preprocessing.
    rewrite skipgram_preprocessing_acc, cbow_preprocessing_acc. cbn [fst].
    rewrite !app_nil_l, concat_concat_fmap, <-list_fmap_compose.
    f_equal. apply list_fmap_ext. intros _ s _. unfold compose.
    by rewrite Hexp. }
  assert (H2 : skip.2 = concat ((λ c, replicate (2 * w) c) <$> cbow.2)).
  { subst skip cbow. unfold skipgram_preprocessing, cbow_preprocessing.
    rewrite skipgram_preprocessing_acc, cbow_preprocessing_acc. cbn [snd].
    rewrite !app_nil_l. clear H1.
    induction indices_list as [|s l IH]; [done|].
    rewrite !fmap_cons. cbn [concat]. rewrite fmap_app, concat_app, <-IH.
    by rewrite Hexp. }
  assert (Hwidths : Forall (λ win, length win = 2 * w) cbow.1).
  { subst cbow. unfold cbow_preprocessing. rewrite cbow_preprocessing_acc.
    cbn [fst]. rewrite app_nil_l. apply Forall_concat, Forall_fmap, Forall_forall.
    intros s _. simpl. rewrite Hws. by apply build_pairs_widths. }
  assert (H4 : length skip.1 = 2 * w * length cbow.1).
  { rewrite H1. by apply length_concat_uniform. }
  split_and!; [done | done | | done].
  rewrite H4, H2.
  rewrite (length_concat_uniform _ (2 * w)).
  - rewrite length_fmap. subst cbow.
    by rewrite cbow_preprocessing_lengths.
  - apply Forall_fmap, Forall_forall. intros c _. simpl. apply length_replicate.
Qed.
End Preprocessing.

Lemma skipgram_preprocessing_flattens_cbow_witness :
  (1 ≤ 1)%Z
  ∧ (skipgram_preprocessing [[10; 11; 12; 13]; [20; 21]; [30; 31; 32]] 1).1
    = concat (cbow_preprocessing [[10; 11; 12; 13]; [20; 21]; [30; 31; 32]] 1).1.
Proof.
  split; [lia|].
  apply (skipgram_preprocessing_flattens_cbow
           [[10; 11; 12; 13]; [20; 21]; [30; 31; 32]] 1). lia.
Defined.

(** ** Errors and symmetries of the WEAT statistics *)

Lemma getitem_lookup (E : table) (w : string) :
  getitem E w = match E !! w with Some v => Ok v | None => Raise KeyError end.
Proof. done. Qed.

Lemma comprehension_getitem_ok_inv (E : table) ws es :
  comprehension (getitem E) ws = Ok es →
  Forall2 (λ w e, E !! w = Some e) ws es.
Proof.
  revert es. induction ws as [|w ws IH]; intros es; simpl.
  - intros [= <-]. constructor.
  - rewrite (getitem_lookup E w). destruct (E !! w) as [e|] eqn:Hw; [|done].
    destruct (comprehension (getitem E) ws) as [es'|]; simpl; [|done].
    intros [= <-]. constructor; [done | by apply IH].
Qed.

Lemma comprehension_cosine_raise (x : list float) (es : list (list float)) e :
  comprehension (cosine_similarity x) es = Raise e
  ↔ e = ValueError ∧ Exists (λ y, length y ≠ length x) es.
Proof.
  rewrite comprehension_raise. split.
  - intros (l1 & y & l2 & -> & _ & [Hy ->]%cosine_similarity_raise).
    split; [done|]. apply Exists_app. right. by apply Exists_cons_hd.
  - intros [-> Hex]. induction es as [|y es IH]; [by apply Exists_nil in Hex|].
    destruct (decide (length x = length y)) as [Hxy|Hxy].
    + apply Exists_cons in Hex as [Hy|Hex]; [congruence|].
      destruct (IH Hex) as (l1 & z & l2 & -> & Hl1 & Hz).
      exists (y :: l1), z, l2. split_and!; [done| |done].
      apply Forall_cons. split; [|done].
      unfold cosine_similarity, np_dot. rewrite decide_True by done.
      simpl. eauto.
    + exists [], y, es. split_and!; [done|done|].
      by apply cosine_similarity_raise.
Qed.

(** The stages of [weat_association]: the three lookups, then the two
    lists of cosines. *)
Lemma weat_association_stages (w : string) (A B : list string) (E : table) :
  weat_association w A B E
  = match E !! w with
    | None => Raise KeyError
    | Some e =>
        match comprehension (getitem E) A with
        | Raise _ => Raise KeyError
        | Ok eA =>
            match comprehension (getitem E) B with
            | Raise _ => Raise KeyError
            | Ok eB =>
                match comprehension (cosine_similarity e) eA with
                | Raise _ => Raise ValueError
                | Ok cA =>
                    match comprehension (cosine_similarity e) eB with
                    | Raise _ => Raise ValueError
                    | Ok cB => Ok (fsub (np_mean cA) (np_mean cB))
                    end
                end
            end
        end
    end.
Proof.
  unfold weat_association. rewrite (getitem_lookup E w).
  destruct (E !! w) as [e|]; [|done].
  cbv beta iota delta [mbind result_bind].
  destruct (comprehension (getitem E) A) as [eA|e1] eqn:HA.
  2:{ by apply comprehension_getitem_raise in HA as [-> _]. }
  destruct (comprehension (getitem E) B) as [eB|e2] eqn:HB.
  2:{ by apply comprehension_getitem_raise in HB as [-> _]. }
  destruct (comprehension (cosine_similarity e) eA) as [cA|e3] eqn:HcA.
  2:{ by apply comprehension_cosine_raise in HcA as [-> _]. }
  destruct (comprehension (cosine_similarity e) eB) as [cB|e4] eqn:HcB.
  2:{ by apply comprehension_cosine_raise in HcB as [-> _]. }
  done.
Qed.

Section FloatNegation.
Local Open Scope R_scope.

Lemma fneg_fsub (x y : float) : fneg (fsub x y) = fsub y x.
Proof.
  destruct x as [a| | |], y as [b| | |]; simpl; try done.
  f_equal. lra.
Qed.
End FloatNegation.

Lemma weat_association_raise_kinds (w : string) (A B : list string) (E : table) e :
  weat_association w A B E = Raise e → e = KeyError ∨ e = ValueError.
Proof.
  rewrite weat_association_stages.
  destruct (E !! w); [|intros [= <-]; by left].
  destruct (comprehension (getitem E) A); [|intros [= <-]; by left].
  destruct (comprehension (getitem E) B); [|intros [= <-]; by left].
  destruct (comprehension (cosine_similarity _) _); [|intros [= <-]; by right].
  destruct (comprehension (cosine_similarity _) _); [done|].
  intros [= <-]. by right.
Qed.

(** X3. [weat_association] raises [KeyError] exactly when the word or one
    of the attribute words is not in the table, and [ValueError] exactly
    when all of them are in the table and the embedding of some attribute
    word has another length than the embedding of the word; it raises
    nothing else. *)
Theorem weat_association_errors (w : string) (A B : list string) (E : table) :
  (weat_association w A B E = Raise KeyError
   ↔ Exists (λ u, E !! u = None) (w :: A ++ B))
  ∧ (weat_association w A B E = Raise ValueError
     ↔ ∃ e, E !! w = Some e
            ∧ Forall (present E) (A ++ B)
            ∧ Exists (λ a, ∃ ea, E !! a = Some ea ∧ length ea ≠ length e)
                     (A ++ B))
  ∧ (∀ e, weat_association w A B E = Raise e → e = KeyError ∨ e = ValueError).
Proof.
  rewrite weat_association_stages.
  destruct (E !! w) as [e|] eqn:Hw.
  2:{ split_and!.
      - split; [intros _; by apply Exists_cons_hd | done].
      - split; [done | by intros (e & ? & _)].
      - intros e [= <-]. by left. }
  destruct (comprehension (getitem E) A) as [eA|e1] eqn:HA.
  2:{ apply comprehension_getitem_raise in HA as [-> (a & Ha & Hna)].
      split_and!.
      - split; [intros _|done]. apply Exists_cons_tl, Exists_app. left.
        apply Exists_exists. eauto.
      - split; [done|]. intros (e' & _ & Hall & _).
        apply Forall_app in Hall as [Hall _]. rewrite Forall_forall in Hall.
        destruct (Hall a Ha) as [? ?]. congruence.
      - intros e' [= <-]. by left. }
  destruct (comprehension (getitem E) B) as [eB|e2] eqn:HB.
  2:{ apply comprehension_getitem_raise in HB as [-> (a & Ha & Hna)].
      split_and!.
      - split; [intros _|done]. apply Exists_cons_tl, Exists_app. right.
        apply Exists_exists. eauto.
      - split; [done|]. intros (e' & _ & Hall & _).
        apply Forall_app in Hall as [_ Hall]. rewrite Forall_forall in Hall.
        destruct (Hall a Ha) as [? ?]. congruence.
      - intros e' [= <-]. by left. }
  apply comprehension_getitem_ok_inv in HA, HB.
  assert (Hpresent : Forall (present E) (A ++ B)).
  { apply Forall_app. split; apply Forall_forall; intros a Ha.
    - destruct (proj1 (list_elem_of_lookup _ _) Ha) as [i Hi].
      destruct (Forall2_lookup_l _ _ _ _ _ HA Hi) as (ea & _ & ?). by exists ea.
    - destruct (proj1 (list_elem_of_lookup _ _) Ha) as [i Hi].
      destruct (Forall2_lookup_l _ _ _ _ _ HB Hi) as (ea & _ & ?). by exists ea. }
  assert (Hnone : ¬ Exists (λ u, E !! u = None) (w :: A ++ B)).
  { intros [?|Hex]%Exists_cons; [congruence|].
    apply Exists_exists in Hex as (a & Ha & Hna).
    rewrite Forall_forall in Hpresent. destruct (Hpresent a Ha). congruence. }
  assert (Hmis : ∀ (ws : list string) (es : list (list float)),
            Forall2 (λ w e, E !! w = Some e) ws es →
            Exists (λ y, length y ≠ length e) es
            ↔ Exists (λ a, ∃ ea, E !! a = Some ea ∧ length ea ≠ length e) ws).
  { intros ws es H. induction H as [|a ea ws es Ha _ IH].
    - split; by intros ?%Exists_nil.
    - rewrite !Exists_cons, IH. split; (intros [?|?]; [left|by right]).
      + by exists ea.
      + destruct H as (ea' & ? & ?). by simplify_eq. }
  destruct (comprehension (cosine_similarity e) eA) as [cA|e3] eqn:HcA.
  2:{ apply comprehension_cosine_raise in HcA as [-> Hex].
      split_and!; [done| |intros ? [= <-]; by right].
      split; [intros _|done]. exists e. split_and!; [done..|].
      apply Exists_app. left. by apply (Hmis A eA). }
  destruct (comprehension (cosine_similarity e) eB) as [cB|e4] eqn:HcB.
  2:{ apply comprehension_cosine_raise in HcB as [-> Hex].
      split_and!; [done| |intros ? [= <-]; by right].
      split; [intros _|done]. exists e. split_and!; [done..|].
      apply Exists_app. right. by apply (Hmis B eB). }
  split_and!; [done| |done].
  split; [done|]. intros (e' & He' & _ & Hex). simplify_eq.
  apply Exists_app in Hex as [Hex|Hex].
  - apply (Hmis A eA HA) in Hex.
    assert (comprehension (cosine_similarity e') eA = Raise ValueError)
      by (by apply comprehension_cosine_raise). congruence.
  - apply (Hmis B eB HB) in Hex.
    assert (comprehension (cosine_similarity e') eB = Raise ValueError)
      by (by apply comprehension_cosine_raise). congruence.
Qed.

(** X4. Exchanging the two attribute lists negates the association, and
    leaves the exception, if any, unchanged. *)
Theorem weat_association_swap_attributes
    (w : string) (A B : list string) (E : table) :
  weat_association w B A E = fneg <$> weat_association w A B E.
Proof.
  rewrite !weat_association_stages.
  destruct (E !! w) as [e|]; [|done].
  destruct (comprehension (getitem E) A) as [eA|]; [|by destruct (comprehension _ B)].
  destruct (comprehension (getitem E) B) as [eB|]; [|done].
  destruct (comprehension (cosine_similarity e) eA) as [cA|];
    [|by destruct (comprehension _ eB)].
  destruct (comprehension (cosine_similarity e) eB) as [cB|]; [|done].
  simpl. by rewrite fneg_fsub.
Qed.

(** X5. When the statistic of [(X, Y)] can be computed, the statistic of
    [(Y, X)] is its negation. *)
Theorem weat_differential_association_swap_targets
    (X Y A B : list string) (E : table) f g (s : float) :
  weat_differential_association X Y A B E f = Ok s →
  weat_differential_association Y X A B E g = Ok (fneg s).
Proof.
  unfold weat_differential_association.
  destruct (comprehension _ X) as [sx|]; [|done].
  destruct (comprehension _ Y) as [sy|]; [|done].
  simpl. intros [= <-]. by rewrite fneg_fsub.
Qed.

Lemma weat_differential_association_swap_targets_witness :
  let E : table :=
    <["a" := [Fin 1]]> (<["b" := [Fin (-1)]]>
    (<["p" := [Fin 1]]> (<["q" := [Fin (-1)]]> ∅))) in
  weat_differential_association ["a"] ["b"] ["p"] ["q"] E weat_association
  = Ok (Fin (2 * 1 - 2 * -1))
  ∧ weat_differential_association ["b"] ["a"] ["p"] ["q"] E weat_association
    = Ok (fneg (Fin (2 * 1 - 2 * -1))).
Proof.
  intros E.
  assert (H : weat_differential_association ["a"] ["b"] ["p"] ["q"] E
                weat_association = Ok (Fin (2 * 1 - 2 * -1))).
  { apply weat_differential_association_demo; (done || lra). }
  split; [done|].
  exact (weat_differential_association_swap_targets
           ["a"] ["b"] ["p"] ["q"] E weat_association weat_association _ H).
Defined.

(** ** What the permutation test can and cannot return *)

Lemma weat_differential_association_raise (X Y A B : list string) (E : table) f e :
  weat_differential_association X Y A B E f = Raise e →
  e = KeyError ∨ e = ValueError.
Proof.
  unfold weat_differential_association.
  destruct (comprehension _ X) as [sx|e1] eqn:HX.
  - destruct (comprehension _ Y) as [sy|e2] eqn:HY; [done|].
    simpl. intros [= <-].
    apply comprehension_raise in HY as (_ & y & _ & _ & _ & Hy).
    by apply weat_association_raise_kinds in Hy.
  - simpl. intros [= <-].
    apply comprehension_raise in HX as (_ & x & _ & _ & _ & Hx).
    by apply weat_association_raise_kinds in Hx.
Qed.

Lemma permutation_loop_outcome s XY A B E parts total total_true :
  match permutation_loop s XY A B E parts total total_true with
  | Ok (t, c) =>
      t = total + length parts ∧ total_true ≤ c ≤ total_true + length parts
  | Raise e => e = KeyError ∨ e = ValueError
  end.
Proof.
  revert total total_true.
  induction parts as [|X_i parts IH]; intros total total_true; simpl.
  - lia.
  - destruct (weat_differential_association X_i (complement XY X_i) A B E
                weat_association) as [s_i|e] eqn:Hs; simpl.
    + specialize (IH (S total) (if fgt s_i s then S total_true else total_true)).
      destruct (permutation_loop _ _ _ _ _ _ _ _) as [[t c]|e]; [|done].
      destruct (fgt s_i s); lia.
    + by apply weat_differential_association_raise in Hs.
Qed.

Lemma length_compute_partitions_pos (XY : list string) :
  0 < length (compute_partitions XY).
Proof.
  unfold compute_partitions. rewrite length_combinations.
  apply binom_pos, Nat.Div0.div_le_upper_bound. lia.
Qed.

Section PValueOutcome.
Local Open Scope R_scope.

(** X6. [p_value_permutation_test] does not check that [X] and [Y] have one
    length and never divides by zero: there is always at least one
    partition. It can only raise the lookup error or the shape error of
    the statistics, and every value it returns is a finite number between
    0 and 1 (never [nan]). *)
Theorem p_value_permutation_test_outcome (X Y A B : list string) (E : table) :
  match p_value_permutation_test X Y A B E with
  | Ok p => ∃ r, p = Fin r ∧ 0 <= r <= 1
  | Raise e => e = KeyError ∨ e = ValueError
  end.
Proof.
  unfold p_value_permutation_test.
  destruct (weat_differential_association X Y A B E weat_association)
    as [s|e] eqn:Hs; simpl.
  2:{ by apply weat_differential_association_raise in Hs. }
  pose proof (permutation_loop_outcome s (X ++ Y) A B E
                (compute_partitions (X ++ Y)) 0 0) as Hloop.
  pose proof (length_compute_partitions_pos (X ++ Y)) as Hpos.
  destruct (permutation_loop _ _ _ _ _ _ _ _) as [[t c]|e]; [|done].
  simpl. destruct Hloop as [-> [_ Hc]]. unfold py_truediv.
  rewrite decide_False by lia.
  eexists. split; [done|]. apply fraction_bounds; lia.
Qed.

(** X7. With no target word at all there is one (empty) partition, its
    statistic equals the statistic of the given split, and the result is
    0.0, whatever the attribute lists and the table are. *)
Theorem p_value_permutation_test_no_targets (A B : list string) (E : table) :
  compute_partitions ([] ++ []) = [[]]
  ∧ p_value_permutation_test [] [] A B E = Ok (Fin 0).
Proof.
  split; [done|].
  unfold p_value_permutation_test, weat_differential_association. simpl.
  rewrite bool_decide_eq_false_2 by lra.
  unfold py_truediv. rewrite decide_False by lia.
  do 2 f_equal. simpl. lra.
Qed.
End PValueOutcome.

(** ** Geometry of [project] and [cosine_similarity] *)

Section Geometry.
Local Open Scope R_scope.



Lemma Exists_nonzero_vscale (c : R) (b : list R) :
  c ≠ 0 → Exists (λ x, x ≠ 0) b → Exists (λ x, x ≠ 0) (vscale c b).
Proof.
  intros Hc Hb. unfold vscale. apply Exists_fmap.
  eapply Exists_impl; [exact Hb|]. intros x Hx. simpl. nra.
Qed.



Lemma fmul_comm (x y : float) : fmul x y = fmul y x.
Proof.
  destruct x as [a| | |], y as [b| | |]; simpl; try done.
  f_equal. lra.
Qed.

Lemma dot_sum_comm (a b : list float) : dot_sum a b = dot_sum b a.
Proof.
  unfold dot_sum. revert b.
  induction a as [|x a IH]; intros [|y b]; simpl; try done.
  by rewrite IH, fmul_comm.
Qed.

(** X9. [cosine_similarity] is symmetric in its two arguments, for all
    arrays: same value, same exception. *)
Theorem cosine_similarity_symmetric (a b : list float) :
  cosine_similarity a b = cosine_similarity b a.
Proof.
  unfold cosine_similarity, np_dot.
  destruct (decide (length a = length b)) as [H|H].
  - rewrite decide_True by done. simpl.
    by rewrite dot_sum_comm, (fmul_comm (np_linalg_norm a)).
  - by rewrite decide_False by done.
Qed.



End Geometry.

(** ** Retrieval of similar words *)

Lemma getitem_Some `{Countable K} {V} (d : gmap K V) (k : K) (v : V) :
  d !! k = Some v → getitem d k = Ok v.
Proof. intros Hk. unfold getitem. by rewrite Hk. Qed.

Lemma tensor_getrow_ok (W : tensor2) (i : Z) :
  wf2 W → (- Z.of_nat (shape2 W).1 ≤ i < Z.of_nat (shape2 W).1)%Z →
  ∃ row, tensor_getrow W i = Ok row ∧ length row = (shape2 W).2
         ∧ data2 W !! Z.to_nat (i `mod` Z.of_nat (shape2 W).1) = Some row.
Proof.
  intros [HV HD] Hi. unfold tensor_getrow. rewrite decide_True by done.
  set (j := (if decide (i < 0)%Z then i + Z.of_nat (shape2 W).1 else i)%Z).
  assert (Hj : (0 ≤ j < Z.of_nat (shape2 W).1)%Z)
    by (subst j; case_decide; lia).
  assert (Hmod : (i `mod` Z.of_nat (shape2 W).1 = j)%Z).
  { subst j. case_decide.
    - rewrite <-(Z.mod_add i 1) by lia. rewrite Z.mod_small; lia.
    - rewrite Z.mod_small; lia. }
  destruct (lookup_lt_is_Some_2 (data2 W) (Z.to_nat j)) as [row Hrow]; [lia|].
  exists row. rewrite Hrow, Hmod. split_and!; [done| |done].
  by apply (Forall_lookup_1 _ _ _ _ HD Hrow).
Qed.

Lemma compute_topk_similar_ok (q : list R) (W : tensor2) (k : Z) :
  wf2 W → (shape2 W).2 = length q →
  (0 ≤ k)%Z → (k + 1 ≤ Z.of_nat (shape2 W).1)%Z →
  compute_topk_similar q W k = Ok (take (Z.to_nat k) (drop 1 (ranking W q)))
  ∧ length (take (Z.to_nat k) (drop 1 (ranking W q))) = Z.to_nat k
  ∧ ranking W q ≡ₚ seq 0 (shape2 W).1.
Proof.
  intros [HV HD] Hd Hk0 Hk.
  assert (Hlen : length (ranking W q) = (shape2 W).1).
  { unfold ranking. rewrite length_fmap, length_ranked.
    unfold similarities. by rewrite length_fmap. }
  split_and!.
  - apply compute_topk_similar_unfold; [done..|]. by rewrite HV.
  - rewrite length_take, length_drop, Hlen. lia.
  - unfold ranking. rewrite ranked_positions. unfold similarities.
    by rewrite length_fmap, HV.
Qed.

(** X11. [retrieve_similar_words] raises [KeyError] as soon as the word is
    not in the index map. When the word has an index among the rows of
    the matrix (a negative index counts from the last row), [0 <= k],
    [k + 1] is at most the number of rows and every row position has a
    word, it returns exactly [k] words: those of the positions ranked 2nd
    to [(k+1)]-th for the row of the word. *)
Theorem retrieve_similar_words_returns_k
    (σ : store) (emb : loc) (word : string)
    (index_map : gmap string Z) (index_to_word : gmap Z string)
    (k : Z) (W : tensor2) (i : Z) :
  (index_map !! word = None →
   retrieve_similar_words σ emb word index_map index_to_word k
   = Raise KeyError)
  ∧ (weight σ emb = Some W → wf2 W →
     index_map !! word = Some i →
     (- Z.of_nat (shape2 W).1 ≤ i < Z.of_nat (shape2 W).1)%Z →
     (0 ≤ k)%Z → (k + 1 ≤ Z.of_nat (shape2 W).1)%Z →
     (∀ j, j < (shape2 W).1 → is_Some (index_to_word !! Z.of_nat j)) →
     ∃ row results,
       data2 W !! Z.to_nat (i `mod` Z.of_nat (shape2 W).1) = Some row
       ∧ retrieve_similar_words σ emb word index_map index_to_word k
         = Ok results
       ∧ length results = Z.to_nat k
       ∧ Forall2 (λ (idx : nat) w, index_to_word !! Z.of_nat idx = Some w)
                 (take (Z.to_nat k) (drop 1 (ranking W row))) results).
Proof.
  split.
  - intros Hw. unfold retrieve_similar_words, getitem. by rewrite Hw.
  - intros HW Hwf Hw Hi Hk0 Hk Hwords.
    destruct (tensor_getrow_ok W i Hwf Hi) as (row & Hrow & Hlen & Hdata).
    destruct (compute_topk_similar_ok row W k Hwf
                (eq_sym Hlen) Hk0 Hk) as (Htop & Htoplen & Hperm).
    set (top := take (Z.to_nat k) (drop 1 (ranking W row))) in *.
    assert (Hin : ∀ idx, idx ∈ top → idx < (shape2 W).1).
    { intros idx Hidx. apply elem_of_seq with (j := 0%nat). rewrite <-Hperm.
      subst top. apply elem_of_take in Hidx as (n & Hn & _).
      rewrite lookup_drop in Hn. by eapply list_elem_of_lookup_2. }
    assert (Hall : ∃ results,
      comprehension (λ idx : nat, getitem index_to_word (Z.of_nat idx)) top
      = Ok results
      ∧ Forall2 (λ (idx : nat) w, index_to_word !! Z.of_nat idx = Some w)
                top results).
    { clear Htop Htoplen. induction top as [|idx top IH].
      - exists []. by split; [|constructor].
      - destruct (Hwords idx) as [w Hidx]; [apply Hin; by left|].
        destruct IH as (results & Hres & HF2).
        { intros j Hj. apply Hin. by right. }
        exists (w :: results). split; [|by constructor].
        cbn [comprehension]. rewrite (getitem_Some _ _ _ Hidx), Hres. done. }
    destruct Hall as (results & Hres & HF2).
    exists row, results. split_and!; [done| | |done].
    + unfold retrieve_similar_words, emb_weight.
      rewrite (getitem_Some _ _ _ Hw), HW.
      cbv beta iota delta [mbind result_bind].
      rewrite Hrow, Htop. by rewrite Hres.
    + by rewrite <-(Forall2_length _ _ _ HF2).
Qed.

Lemma retrieve_similar_words_returns_k_witness :
  let rand := λ i j : nat, INR (i + j) in
  let W := tabulate2 (3, 2) rand in
  let m := SkipGram.init 3 2 rand rand ∅ in
  let index_map : gmap string Z := <["the" := 1%Z]> ∅ in
  let index_to_word : gmap Z string :=
    <[0%Z := "[PAD]"]> (<[1%Z := "the"]> (<[2%Z := "cat"]> ∅)) in
  (weight m.2 (SkipGram.emb m.1) = Some W ∧ wf2 W
   ∧ index_map !! "the" = Some 1%Z
   ∧ (∀ j, j < 3 → is_Some (index_to_word !! Z.of_nat j)))
  ∧ ∃ results,
      retrieve_similar_words m.2 (SkipGram.emb m.1) "the"
        index_map index_to_word 1 = Ok results
      ∧ length results = 1.
Proof.
  intros rand W m index_map index_to_word.
  assert (H1 : weight m.2 (SkipGram.emb m.1) = Some W).
  { destruct (tied_weight _ _ _ _ (SkipGram_init_tied 3 2 rand rand ∅))
      as (_ & _ & _ & _ & Hw & _). exact Hw. }
  assert (H2 : wf2 W) by apply tabulate2_wf.
  assert (H3 : index_map !! "the" = Some 1%Z) by done.
  assert (H4 : ∀ j, j < 3 → is_Some (index_to_word !! Z.of_nat j)).
  { intros j Hj. destruct j as [|[|[|j]]]; [by eexists..|lia]. }
  split; [done|].
  destruct (proj2 (retrieve_similar_words_returns_k m.2 (SkipGram.emb m.1)
              "the" index_map index_to_word 1 W 1) H1 H2 H3)
    as (row & results & _ & Hres & Hlen & _); [simpl; lia | lia | simpl; lia | done |].
  by exists results.
Defined.

(** ** Vocabulary and indices *)

Example build_word_counts_demo :
  build_word_counts [["b"; "a"; "b"]; ["c"; "a"; "b"]]
  = [("b", 3); ("a", 2); ("c", 1)].
Proof. reflexivity. Qed.

Example sorted_by_count_stable :
  sorted_by_count [("x", 1); ("y", 2); ("z", 1); ("u", 2)]
  = [("y", 2); ("u", 2); ("x", 1); ("z", 1)].
Proof. reflexivity. Qed.

Example build_index_map_demo :
  build_index_map [("x", 1); ("y", 2); ("z", 1)] (Some 3%Z)
  = <["[PAD]" := 0%Z]> (<["y" := 1%Z]> (<["x" := 2%Z]> ∅)).
Proof. by apply map_eq; intros w; vm_compute. Qed.

Section OrderedDict.
Context {V : Type}.
Implicit Types (d : list (string * V)) (k : string) (v : V).

Lemma odict_get_nil k (default : V) : odict_get [] k default = default.
Proof. done. Qed.

Lemma odict_get_cons k' v' d k (default : V) :
  odict_get ((k', v') :: d) k default
  = if decide (k' = k) then v' else odict_get d k default.
Proof.
  unfold odict_get. cbn [list_find]. simpl.
  destruct (decide (k' = k)); [done|].
  by destruct (list_find (λ kv, kv.1 = k) d) as [[? ?]|].
Qed.

Lemma odict_get_set_eq d k v (default : V) :
  odict_get (odict_set d k v) k default = v.
Proof.
  induction d as [|[k' v'] d IH]; cbn [odict_set fst].
  - rewrite odict_get_cons. by rewrite decide_True.
  - destruct (decide (k' = k)).
    + rewrite odict_get_cons. by rewrite decide_True.
    + rewrite odict_get_cons. by rewrite decide_False.
Qed.

Lemma odict_get_set_ne d k k' v (default : V) :
  k ≠ k' → odict_get (odict_set d k v) k' default = odict_get d k' default.
Proof.
  intros Hne. induction d as [|[k0 v0] d IH]; cbn [odict_set fst].
  - rewrite odict_get_cons, odict_get_nil. by rewrite decide_False.
  - destruct (decide (k0 = k)) as [->|].
    + rewrite !odict_get_cons. by rewrite !decide_False.
    + rewrite !odict_get_cons. by rewrite IH.
Qed.

Lemma odict_set_keys d k v :
  (odict_set d k v).*1 = if decide (k ∈ d.*1) then d.*1 else d.*1 ++ [k].
Proof.
  induction d as [|[k0 v0] d IH].
  - destruct (decide (k ∈ ([] : list (string * V)).*1)) as [H|H]; [|done].
    by apply elem_of_nil in H.
  - cbn [odict_set fst]. rewrite !fmap_cons. cbn [fst].
    destruct (decide (k0 = k)) as [->|Hne].
    + rewrite fmap_cons. cbn [fst]. rewrite decide_True; [done|]. by left.
    + rewrite fmap_cons, IH. cbn [fst].
      destruct (decide (k ∈ d.*1)) as [Hin|Hin].
      * rewrite decide_True; [done|]. by right.
      * rewrite decide_False; [done|].
        intros [?|?]%elem_of_cons; [congruence|done].
Qed.

Lemma odict_set_NoDup d k v : NoDup d.*1 → NoDup (odict_set d k v).*1.
Proof.
  intros Hnd. rewrite odict_set_keys. case_decide; [done|].
  apply NoDup_app. split_and!; [done| |apply NoDup_singleton].
  intros x Hx ->%list_elem_of_singleton. done.
Qed.

Lemma odict_get_elem_of d k v (default : V) :
  NoDup d.*1 → (k, v) ∈ d → odict_get d k default = v.
Proof.
  induction d as [|[k0 v0] d IH]; intros Hnd Hin.
  - by apply elem_of_nil in Hin.
  - rewrite odict_get_cons. simpl in Hnd. apply NoDup_cons in Hnd as [Hk0 Hnd].
    apply elem_of_cons in Hin as [[= <- <-]|Hin].
    + by rewrite decide_True.
    + rewrite decide_False; [by apply IH|].
      intros ->. apply Hk0. apply list_elem_of_fmap. by exists (k, v).
Qed.
End OrderedDict.

Lemma occurrences_cons (w x : string) (ws : list string) :
  occurrences w (x :: ws)
  = (if decide (x = w) then 1 else 0) + occurrences w ws.
Proof.
  unfold occurrences. rewrite filter_cons. by case_decide.
Qed.

Lemma occurrences_app (w : string) (l1 l2 : list string) :
  occurrences w (l1 ++ l2) = occurrences w l1 + occurrences w l2.
Proof. unfold occurrences. by rewrite filter_app, length_app. Qed.

Lemma occurrences_pos (w : string) (ws : list string) :
  0 < occurrences w ws ↔ w ∈ ws.
Proof.
  induction ws as [|x ws IH].
  - split; [unfold occurrences; simpl; lia | by intros ?%elem_of_nil].
  - rewrite occurrences_cons, elem_of_cons.
    destruct (decide (x = w)) as [->|Hne].
    + split; [by left | lia].
    + rewrite <-IH. split; [intros ?; right; lia|].
      intros [?|?]; [congruence | lia].
Qed.

(** The state of the counting loop after the words [ws], starting from [d]. *)
Lemma count_words_spec (d : list (string * nat)) (ws : list string) :
  NoDup d.*1 →
  let d' := foldl (λ wc word, odict_set wc word (odict_get wc word 0 + 1)) d ws in
  NoDup d'.*1
  ∧ (∀ w, odict_get d' w 0 = odict_get d w 0 + occurrences w ws)
  ∧ (∀ w, w ∈ d'.*1 ↔ w ∈ d.*1 ∨ w ∈ ws).
Proof.
  revert d. induction ws as [|x ws IH]; intros d Hnd; cbn [foldl].
  - split_and!; [done| |].
    + intros w. unfold occurrences. simpl. lia.
    + intros w. split; [by left|]. intros [?|?%elem_of_nil]; done.
  - destruct (IH (odict_set d x (odict_get d x 0 + 1)))
      as (Hnd' & Hget & Hkeys); [by apply odict_set_NoDup|].
    split_and!; [done| |].
    + intros w. rewrite Hget, occurrences_cons.
      destruct (decide (x = w)) as [->|Hne].
      * rewrite odict_get_set_eq. lia.
      * rewrite odict_get_set_ne by done. lia.
    + intros w. rewrite Hkeys, odict_set_keys, elem_of_cons.
      destruct (decide (x ∈ d.*1)) as [Hx|Hx].
      * split; [intros [?|?]; auto|].
        intros [?|[->|?]]; auto.
      * rewrite elem_of_app, list_elem_of_singleton.
        split; [intros [[?|?]|?]; auto|].
        intros [?|[?|?]]; auto.
Qed.

Lemma build_word_counts_spec (d : list (string * nat)) (tl : list (list string)) :
  NoDup d.*1 →
  let d' := foldl (λ word_counts words,
                     foldl (λ wc word, odict_set wc word (odict_get wc word 0 + 1))
                           word_counts words) d tl in
  NoDup d'.*1
  ∧ (∀ w, odict_get d' w 0 = odict_get d w 0 + occurrences w (concat tl))
  ∧ (∀ w, w ∈ d'.*1 ↔ w ∈ d.*1 ∨ w ∈ concat tl).
Proof.
  revert d. induction tl as [|ws tl IH]; intros d Hnd; cbn [foldl concat].
  - split_and!; [done| |].
    + intros w. unfold occurrences. simpl. lia.
    + intros w. split; [by left|]. intros [?|?%elem_of_nil]; done.
  - destruct (count_words_spec d ws Hnd) as (Hnd1 & Hget1 & Hkeys1).
    destruct (IH _ Hnd1) as (Hnd2 & Hget2 & Hkeys2).
    split_and!; [done| |].
    + intros w. rewrite Hget2, Hget1, occurrences_app. lia.
    + intros w. rewrite Hkeys2, Hkeys1, elem_of_app. tauto.
Qed.

(** X12. [build_word_counts] returns one entry per distinct word of the
    corpus, and the count of a word is the number of its occurrences in
    all the token lists together (so every count is at least 1); a word
    that does not occur has no entry. *)
Theorem build_word_counts_counts (token_list : list (list string)) :
  let word_counts := build_word_counts token_list in
  NoDup word_counts.*1
  ∧ (∀ w, w ∈ word_counts.*1 ↔ w ∈ concat token_list)
  ∧ (∀ w c, (w, c) ∈ word_counts →
            c = occurrences w (concat token_list) ∧ 1 ≤ c)
  ∧ (∀ w, odict_get word_counts w 0 = occurrences w (concat token_list)).
Proof.
  intros word_counts.
  destruct (build_word_counts_spec [] token_list) as (Hnd & Hget & Hkeys);
    [apply NoDup_nil_2|].
  fold (build_word_counts token_list) in Hnd, Hget, Hkeys.
  fold word_counts in Hnd, Hget, Hkeys.
  assert (Hget' : ∀ w, odict_get word_counts w 0
                       = occurrences w (concat token_list)).
  { intros w. by rewrite Hget. }
  assert (Hkeys' : ∀ w, w ∈ word_counts.*1 ↔ w ∈ concat token_list).
  { intros w. rewrite Hkeys. split; [|by right].
    intros [?%elem_of_nil|?]; done. }
  split_and!; [done..| |done].
  intros w c Hin.
  assert (Hc : c = occurrences w (concat token_list)).
  { rewrite <-Hget'. symmetry. by apply odict_get_elem_of. }
  split; [done|]. rewrite Hc. apply occurrences_pos, Hkeys'.
  apply list_elem_of_fmap. by exists (w, c).
Qed.

(** *** The index map *)

Lemma insert_by_count_Permutation x l : insert_by_count x l ≡ₚ x :: l.
Proof.
  induction l as [|y l IH]; simpl; [done|].
  case_decide; [done|]. by rewrite IH, Permutation_swap.
Qed.

Lemma sorted_by_count_acc_Permutation acc items :
  foldl (λ acc x, insert_by_count x acc) acc items ≡ₚ acc ++ items.
Proof.
  revert acc. induction items as [|x items IH]; intros acc; simpl.
  - by rewrite app_nil_r.
  - rewrite IH, insert_by_count_Permutation. simpl. apply Permutation_middle.
Qed.

Lemma sorted_by_count_Permutation items : sorted_by_count items ≡ₚ items.
Proof. apply sorted_by_count_acc_Permutation. Qed.

(** [x] before [y] in a list sorted by decreasing count. *)
Lemma insert_by_count_sorted x l :
  StronglySorted (λ a b : string * nat, b.2 ≤ a.2) l →
  StronglySorted (λ a b : string * nat, b.2 ≤ a.2) (insert_by_count x l).
Proof.
  induction 1 as [|y l Hl IH Hy]; simpl.
  - repeat constructor.
  - case_decide as Hlt.
    + constructor; [by constructor|].
      apply Forall_cons. split; [lia|].
      eapply Forall_impl; [exact Hy|]. intros z Hz. simpl in *. lia.
    + constructor; [done|].
      rewrite insert_by_count_Permutation. apply Forall_cons. split; [lia|done].
Qed.

Lemma sorted_by_count_sorted items :
  StronglySorted (λ a b : string * nat, b.2 ≤ a.2) (sorted_by_count items).
Proof.
  unfold sorted_by_count.
  assert (H : StronglySorted (λ a b : string * nat, b.2 ≤ a.2) [])
    by constructor.
  revert H. generalize (@nil (string * nat)) as acc.
  induction items as [|x items IH]; intros acc Hacc; simpl; [done|].
  by apply IH, insert_by_count_sorted.
Qed.

(** The index of a word in a list without duplicates. *)
Lemma index_dict_acc (words : list string) (k : nat) (m : gmap string Z) w :
  NoDup words →
  foldl (λ m iw, <[iw.2 := Z.of_nat iw.1]> m) m
        (imap (λ ix word, (k + ix, word)) words) !! w
  = match list_find (λ x, x = w) words with
    | Some (n, _) => Some (Z.of_nat (k + n))
    | None => m !! w
    end.
Proof.
  revert k m. induction words as [|x words IH]; intros k m Hnd; [done|].
  apply NoDup_cons in Hnd as [Hx Hnd].
  cbn [imap foldl list_find]. simpl.
  rewrite (imap_ext _ (λ ix word, (S k + ix, word)))
    by (intros; simpl; f_equal; lia).
  rewrite IH by done.
  destruct (decide (x = w)) as [->|Hne].
  - destruct (list_find (λ x, x = w) words) as [[n y]|] eqn:Hfind.
    + apply list_find_Some in Hfind as (Hn & -> & _).
      destruct Hx. by eapply list_elem_of_lookup_2.
    + by rewrite lookup_insert_eq.
  - destruct (list_find (λ x, x = w) words) as [[n y]|]; simpl.
    + do 2 f_equal. lia.
    + by rewrite lookup_insert_ne.
Qed.

Lemma index_dict_lookup (words : list string) w i :
  NoDup words →
  index_dict words !! w = Some i
  ↔ ∃ n, i = Z.of_nat n ∧ words !! n = Some w.
Proof.
  intros Hnd. unfold index_dict.
  rewrite (index_dict_acc words 0 ∅ w Hnd).
  destruct (list_find (λ x, x = w) words) as [[n y]|] eqn:Hfind.
  - apply list_find_Some in Hfind as (Hn & -> & _). split.
    + intros [= <-]. by exists n.
    + intros (n' & -> & Hn'). do 2 f_equal.
      by eapply NoDup_lookup.
  - rewrite lookup_empty. split; [done|]. intros (n & _ & Hn).
    rewrite list_find_None, Forall_forall in Hfind.
    destruct (Hfind w); [by eapply list_elem_of_lookup_2 | done].
Qed.

Lemma StronglySorted_lookup_lt {A} (R : relation A) (l : list A) i j x y :
  StronglySorted R l → i < j → l !! i = Some x → l !! j = Some y → R x y.
Proof.
  intros Hs. revert i j. induction Hs as [|z l Hs IH Hz]; intros i j Hij Hi Hj.
  - done.
  - destruct j as [|j]; [lia|]. destruct i as [|i]; simplify_eq/=.
    + rewrite Forall_forall in Hz. apply Hz. by eapply list_elem_of_lookup_2.
    + apply (IH i j); [lia|done..].
Qed.

Lemma index_dict_size (words : list string) :
  NoDup words → size (index_dict words) = length words.
Proof.
  intros Hnd.
  set (l := imap (λ (n : nat) (w : string), (w, Z.of_nat n)) words).
  assert (Hfst : l.*1 = words).
  { subst l. apply list_eq. intros n.
    rewrite list_lookup_fmap, list_lookup_imap. by destruct (words !! n). }
  assert (Heq : index_dict words = list_to_map l).
  { apply map_eq. intros w. apply option_eq. intros i.
    rewrite index_dict_lookup by done.
    rewrite <-elem_of_list_to_map by (by rewrite Hfst).
    subst l. rewrite elem_of_lookup_imap. split.
    - intros (n & -> & Hn). by exists n, w.
    - intros (n & w' & [= -> ->] & Hn). by exists n. }
  rewrite Heq, map_size_list_to_map by (by rewrite Hfst).
  subst l. by rewrite length_imap.
Qed.

(** The index map built from the first [n] items of the sorted counts. *)
Lemma index_of_kept_words (wc : list (string * nat)) (n : nat) :
  NoDup wc.*1 → "[PAD]" ∉ wc.*1 →
  let kept := take n (sorted_by_count wc) in
  let im := index_dict ("[PAD]" :: kept.*1) in
  NoDup ("[PAD]" :: kept.*1)
  ∧ size im = S (n `min` length wc)
  ∧ ∀ w i, im !! w = Some i
           ↔ (w = "[PAD]" ∧ i = 0%Z)
             ∨ ∃ j c, i = Z.of_nat (S j) ∧ kept !! j = Some (w, c).
Proof.
  intros Hnd Hpad kept im.
  assert (Hnd_sorted : NoDup (sorted_by_count wc).*1)
    by (by rewrite sorted_by_count_Permutation).
  assert (Hnd_kept : NoDup kept.*1).
  { subst kept. rewrite fmap_take.
    eapply sublist_NoDup; [done | apply sublist_take]. }
  assert (Hpad_kept : "[PAD]" ∉ kept.*1).
  { intros Hin. apply Hpad. rewrite <-(sorted_by_count_Permutation wc).
    subst kept. rewrite fmap_take in Hin.
    eapply elem_of_sublist; [exact Hin | apply sublist_take]. }
  assert (Hall : NoDup ("[PAD]" :: kept.*1)) by (by apply NoDup_cons).
  split_and!; [done| |].
  - subst im. rewrite index_dict_size by done. simpl.
    subst kept. rewrite length_fmap, length_take.
    by rewrite (Permutation_length (sorted_by_count_Permutation wc)).
  - intros w i. subst im. rewrite index_dict_lookup by done. split.
    + intros ([|j] & -> & Hj); simpl in Hj.
      * left. by simplify_eq.
      * right. rewrite list_lookup_fmap in Hj.
        destruct (kept !! j) as [[w' c]|] eqn:Hk; simplify_eq/=.
        by exists j, c.
    + intros [[-> ->]|(j & c & -> & Hj)].
      * by exists 0%nat.
      * exists (S j). split; [done|]. simpl.
        by rewrite list_lookup_fmap, Hj.
Qed.

Lemma py_slice_prefix {A} (l : list A) (j : nat) :
  py_slice l 0 (Z.of_nat j) = take j l.
Proof.
  unfold py_slice, adjust_index.
  destruct (Z.ltb_spec 0 0); [lia|].
  destruct (Z.ltb_spec (Z.of_nat j) 0); [lia|].
  replace (Z.to_nat (0 `min` Z.of_nat (length l))) with 0%nat by lia.
  change (drop 0 l) with l.
  destruct (decide (j ≤ length l)).
  - f_equal. lia.
  - rewrite !take_ge by lia. done.
Qed.

Lemma build_index_map_unfold (wc : list (string * nat)) (mw : option Z) :
  build_index_map wc mw
  = index_dict ("[PAD]" ::
      (take (match mw with
             | Some m => if decide (m = 0%Z) then length wc
                         else if decide (1 ≤ m)%Z then Z.to_nat (m - 1)
                         else length wc - Z.to_nat (1 - m)
             | None => length wc
             end) (sorted_by_count wc)).*1).
Proof.
  assert (Hlen : length (sorted_by_count wc) = length wc)
    by apply Permutation_length, sorted_by_count_Permutation.
  unfold build_index_map. do 3 f_equal.
  destruct mw as [m|]; [|by rewrite take_ge by lia].
  destruct (decide (m = 0%Z)); [by rewrite take_ge by lia|].
  destruct (decide (1 ≤ m)%Z).
  - replace (m - 1)%Z with (Z.of_nat (Z.to_nat (m - 1))) at 1 by lia.
    apply py_slice_prefix.
  - unfold py_slice, adjust_index.
    destruct (Z.ltb_spec 0 0); [lia|].
    destruct (Z.ltb_spec (m - 1) 0); [|lia].
    replace (Z.to_nat (0 `min` Z.of_nat (length (sorted_by_count wc))))
      with 0%nat by lia.
    change (drop 0 (sorted_by_count wc)) with (sorted_by_count wc).
    rewrite Hlen. f_equal. lia.
Qed.

Lemma sorted_by_count_entry (wc : list (string * nat)) j w c c' :
  NoDup wc.*1 → sorted_by_count wc !! j = Some (w, c) → (w, c') ∈ wc → c = c'.
Proof.
  intros Hnd Hj Hin.
  assert (Hin' : (w, c) ∈ wc).
  { rewrite <-(sorted_by_count_Permutation wc). by eapply list_elem_of_lookup_2. }
  rewrite <-(odict_get_elem_of wc w c 0 Hnd Hin').
  by rewrite <-(odict_get_elem_of wc w c' 0 Hnd Hin).
Qed.

(** The index map of word counts with distinct words, none of them
    ["[PAD]"]. *)
Lemma build_index_map_spec
    (word_counts : list (string * nat)) (max_words : option Z) :
  NoDup word_counts.*1 → "[PAD]" ∉ word_counts.*1 →
  let index_map := build_index_map word_counts max_words in
  let kept := kept_words (length word_counts) max_words in
  index_map !! "[PAD]" = Some 0%Z
  ∧ size index_map = S kept
  ∧ (∀ w i, index_map !! w = Some i → (0 ≤ i ≤ Z.of_nat kept)%Z)
  ∧ (∀ i, (0 ≤ i ≤ Z.of_nat kept)%Z → ∃ w, index_map !! w = Some i)
  ∧ (∀ w1 w2 i, index_map !! w1 = Some i → index_map !! w2 = Some i → w1 = w2)
  ∧ (∀ w, is_Some (index_map !! w) → w = "[PAD]" ∨ w ∈ word_counts.*1)
  ∧ (∀ w1 c1 w2 c2 i1 i2,
       (w1, c1) ∈ word_counts → (w2, c2) ∈ word_counts → c2 < c1 →
       index_map !! w1 = Some i1 → index_map !! w2 = Some i2 → (i1 < i2)%Z)
  ∧ (∀ w1 c1 w2 c2,
       (w1, c1) ∈ word_counts → (w2, c2) ∈ word_counts →
       is_Some (index_map !! w1) → index_map !! w2 = None → c2 ≤ c1).
Proof.
  intros Hnd Hpad index_map kept.
  set (n := match max_words with
            | Some m => if decide (m = 0%Z) then length word_counts
                        else if decide (1 ≤ m)%Z then Z.to_nat (m - 1)
                        else length word_counts - Z.to_nat (1 - m)
            | None => length word_counts
            end).
  assert (Hmap : index_map
                 = index_dict ("[PAD]" :: (take n (sorted_by_count word_counts)).*1))
    by apply build_index_map_unfold.
  assert (Hkept : kept = n `min` length word_counts).
  { subst kept n. unfold kept_words. destruct max_words as [m|]; [|lia].
    repeat case_decide; lia. }
  destruct (index_of_kept_words word_counts n Hnd Hpad) as (_ & Hsize & Hiff).
  rewrite <-Hmap in Hsize, Hiff. rewrite <-Hkept in Hsize.
  set (sorted := sorted_by_count word_counts) in *.
  assert (Hlen : length sorted = length word_counts)
    by apply Permutation_length, sorted_by_count_Permutation.
  assert (Hsorted : StronglySorted (λ a b : string * nat, b.2 ≤ a.2) sorted)
    by apply sorted_by_count_sorted.
  assert (Hpos : ∀ w c, (w, c) ∈ word_counts → ∃ j, sorted !! j = Some (w, c)).
  { intros w c Hin. apply list_elem_of_lookup.
    subst sorted. by rewrite sorted_by_count_Permutation. }
  assert (Hkeys : NoDup sorted.*1)
    by (subst sorted; by rewrite sorted_by_count_Permutation).
  assert (Huniq : ∀ j1 j2 w c1 c2,
            sorted !! j1 = Some (w, c1) → sorted !! j2 = Some (w, c2) → j1 = j2).
  { intros j1 j2 w c1 c2 H1 H2. apply (NoDup_lookup sorted.*1 j1 j2 w Hkeys).
    - by rewrite list_lookup_fmap, H1.
    - by rewrite list_lookup_fmap, H2. }
  assert (Htake : ∀ j x, take n sorted !! j = Some x
                         ↔ sorted !! j = Some x ∧ j < n).
  { intros j x. apply lookup_take_Some. }
  split_and!.
  - apply Hiff. by left.
  - done.
  - intros w i [[_ ->]|(j & c & -> & [Hj Hjn]%Htake)]%Hiff; [lia|].
    apply lookup_lt_Some in Hj. lia.
  - intros i Hi. destruct (decide (i = 0%Z)) as [->|Hne].
    + exists "[PAD]". apply Hiff. by left.
    + destruct (lookup_lt_is_Some_2 sorted (Z.to_nat i - 1)) as [[w c] Hw]; [lia|].
      exists w. apply Hiff. right. exists (Z.to_nat i - 1)%nat, c.
      split; [lia|]. apply Htake. split; [done|lia].
  - intros w1 w2 i [[-> ->]|(j1 & c1 & -> & [H1 _]%Htake)]%Hiff
                   [[-> Heq]|(j2 & c2 & Heq & [H2 _]%Htake)]%Hiff;
      try done; try lia.
    assert (j1 = j2) by lia. subst j2. congruence.
  - intros w [i [[-> _]|(j & c & _ & [Hj _]%Htake)]%Hiff]; [by left|].
    right. rewrite <-(sorted_by_count_Permutation word_counts).
    apply list_elem_of_fmap. exists (w, c). split; [done|].
    by eapply list_elem_of_lookup_2.
  - intros w1 c1 w2 c2 i1 i2 Hin1 Hin2 Hlt
      [[-> _]|(j1 & c1' & -> & [H1 _]%Htake)]%Hiff
      [[-> _]|(j2 & c2' & -> & [H2 _]%Htake)]%Hiff.
    + destruct Hpad. apply list_elem_of_fmap. by exists ("[PAD]", c1).
    + destruct Hpad. apply list_elem_of_fmap. by exists ("[PAD]", c1).
    + destruct Hpad. apply list_elem_of_fmap. by exists ("[PAD]", c2).
    + assert (c1' = c1)
        by apply (sorted_by_count_entry word_counts j1 w1 c1' c1 Hnd H1 Hin1).
      assert (c2' = c2)
        by apply (sorted_by_count_entry word_counts j2 w2 c2' c2 Hnd H2 Hin2).
      subst c1' c2'.
      destruct (decide (j1 < j2)) as [|Hge]; [lia|].
      destruct (decide (j1 = j2)) as [->|]; [simplify_eq; lia|].
      pose proof (StronglySorted_lookup_lt _ _ j2 j1 _ _ Hsorted
                    ltac:(lia) H2 H1) as Hle. simpl in Hle. lia.
  - intros w1 c1 w2 c2 Hin1 Hin2 [i1 H1] Hnone.
    apply Hiff in H1 as [[-> _]|(j1 & c1' & _ & [H1 Hj1]%Htake)].
    { destruct Hpad. apply list_elem_of_fmap. by exists ("[PAD]", c1). }
    assert (c1' = c1)
      by apply (sorted_by_count_entry word_counts j1 w1 c1' c1 Hnd H1 Hin1).
    subst c1'.
    destruct (Hpos w2 c2 Hin2) as [j2 H2].
    destruct (decide (j2 < n)) as [Hj2|Hj2].
    { assert (index_map !! w2 = Some (Z.of_nat (S j2))); [|congruence].
      apply Hiff. right. exists j2, c2. split; [done|]. by apply Htake. }
    pose proof (StronglySorted_lookup_lt _ _ j1 j2 _ _ Hsorted
                  ltac:(lia) H1 H2) as Hle. simpl in Hle. lia.
Qed.

(** X13. For word counts with distinct words, none of them ["[PAD]"],
    [build_index_map] maps ["[PAD]"] to 0 and the kept words, which are
    the most frequent ones, one-to-one onto [1 .. kept]: no index is used
    twice or skipped, a word with a strictly higher count gets a smaller
    index, and no dropped word has a higher count than a kept one. *)
Theorem build_index_map_ranks_by_count
    (word_counts : list (string * nat)) (max_words : option Z) :
  NoDup word_counts.*1 → "[PAD]" ∉ word_counts.*1 →
  let index_map := build_index_map word_counts max_words in
  let kept := kept_words (length word_counts) max_words in
  index_map !! "[PAD]" = Some 0%Z
  ∧ size index_map = S kept
  ∧ (∀ w i, index_map !! w = Some i → (0 ≤ i ≤ Z.of_nat kept)%Z)
  ∧ (∀ i, (0 ≤ i ≤ Z.of_nat kept)%Z → ∃ w, index_map !! w = Some i)
  ∧ (∀ w1 w2 i, index_map !! w1 = Some i → index_map !! w2 = Some i → w1 = w2)
  ∧ (∀ w, is_Some (index_map !! w) → w = "[PAD]" ∨ w ∈ word_counts.*1)
  ∧ (∀ w1 c1 w2 c2 i1 i2,
       (w1, c1) ∈ word_counts → (w2, c2) ∈ word_counts → c2 < c1 →
       index_map !! w1 = Some i1 → index_map !! w2 = Some i2 → (i1 < i2)%Z)
  ∧ (∀ w1 c1 w2 c2,
       (w1, c1) ∈ word_counts → (w2, c2) ∈ word_counts →
       is_Some (index_map !! w1) → index_map !! w2 = None → c2 ≤ c1).
Proof. apply build_index_map_spec. Qed.

Lemma build_index_map_ranks_by_count_witness :
  let word_counts := [("x", 1); ("y", 2); ("z", 1)] in
  (NoDup word_counts.*1 ∧ "[PAD]" ∉ word_counts.*1)
  ∧ build_index_map word_counts (Some 3%Z) !! "[PAD]" = Some 0%Z
  ∧ size (build_index_map word_counts (Some 3%Z)) = 3.
Proof.
  intros word_counts.
  assert (H1 : NoDup word_counts.*1) by compute_done.
  assert (H2 : "[PAD]" ∉ word_counts.*1) by compute_done.
  split; [done|].
  destruct (build_index_map_ranks_by_count word_counts (Some 3%Z) H1 H2)
    as (Hpad & Hsize & _).
  by split.
Defined.

(** X14. The size of the vocabulary: without [max_words] every distinct
    word gets an index, so the map has one entry more than there are
    words; [max_words = 0] is the same as no limit; for [max_words >= 1]
    the map, ["[PAD]"] included, has [max_words] entries, or all words
    when there are fewer. *)
Theorem build_index_map_size (word_counts : list (string * nat)) (m : Z) :
  NoDup word_counts.*1 → "[PAD]" ∉ word_counts.*1 →
  size (build_index_map word_counts None) = S (length word_counts)
  ∧ (∀ w, w ∈ word_counts.*1 →
          is_Some (build_index_map word_counts None !! w))
  ∧ build_index_map word_counts (Some 0%Z) = build_index_map word_counts None
  ∧ ((1 ≤ m)%Z →
     size (build_index_map word_counts (Some m))
     = (Z.to_nat m) `min` (S (length word_counts))).
Proof.
  intros Hnd Hpad.
  destruct (build_index_map_spec word_counts None Hnd Hpad)
    as (_ & Hsize & _ & _ & _ & _ & _ & Hdropped).
  split_and!.
  - exact Hsize.
  - intros w Hw.
    destruct (build_index_map word_counts None !! w) as [i|] eqn:Hi; [by eexists|].
    exfalso.
    assert (Hn : size (build_index_map word_counts None) = S (length word_counts))
      by exact Hsize.
    rewrite build_index_map_unfold in Hi.
    destruct (index_of_kept_words word_counts (length word_counts) Hnd Hpad)
      as (_ & _ & Hiff).
    apply list_elem_of_fmap in Hw as ([w' c] & -> & Hin).
    assert (Hin' : (w', c) ∈ sorted_by_count word_counts)
      by (by rewrite sorted_by_count_Permutation).
    apply list_elem_of_lookup in Hin' as [j Hj].
    assert (Hsome : index_dict
              ("[PAD]" :: (take (length word_counts)
                             (sorted_by_count word_counts)).*1) !! w'
            = Some (Z.of_nat (S j))).
    { apply Hiff. right. exists j, c. split; [done|].
      apply lookup_take_Some. split; [done|].
      apply lookup_lt_Some in Hj.
      by rewrite (Permutation_length (sorted_by_count_Permutation word_counts))
        in Hj. }
    simpl in Hi. congruence.
  - done.
  - intros Hm.
    destruct (build_index_map_spec word_counts (Some m) Hnd Hpad)
      as (_ & Hsize' & _).
    rewrite Hsize'. unfold kept_words.
    rewrite decide_False, decide_True by lia. lia.
Qed.

Lemma build_index_map_size_witness :
  let word_counts := [("x", 1); ("y", 2); ("z", 1)] in
  (NoDup word_counts.*1 ∧ ("[PAD]" ∉ word_counts.*1) ∧ (1 ≤ 2)%Z)
  ∧ size (build_index_map word_counts (Some 2%Z)) = 2.
Proof.
  intros word_counts.
  assert (H1 : NoDup word_counts.*1) by compute_done.
  assert (H2 : "[PAD]" ∉ word_counts.*1) by compute_done.
  split; [split_and!; [done | done | lia]|].
  destruct (build_index_map_size word_counts 2 H1 H2) as (_ & _ & _ & H).
  by apply H.
Defined.

(** X15. [tokens_to_ix] never fails: in every token list it drops exactly
    the words that have no index and replaces the others, in their order,
    by their index. The number of token lists is unchanged, and a list all
    of whose words have an index keeps its length. *)
Theorem tokens_to_ix_drops_unknown
    (tokens : list (list string)) (index_map : gmap string Z) :
  length (tokens_to_ix tokens index_map) = length tokens
  ∧ Forall2 (λ words ixs,
               Forall2 (λ w i, index_map !! w = Some i)
                       (filter (λ w, is_Some (index_map !! w)) words) ixs
               ∧ (Forall (λ w, is_Some (index_map !! w)) words →
                  length ixs = length words))
            tokens (tokens_to_ix tokens index_map).
Proof.
  unfold tokens_to_ix. split; [by rewrite length_fmap|].
  apply Forall2_fmap_r, Forall_Forall2_diag, Forall_forall.
  intros words _.
  assert (H : Forall2 (λ w i, index_map !! w = Some i)
                (filter (λ w, is_Some (index_map !! w)) words)
                (omap (λ word, index_map !! word) words)).
  { induction words as [|w words IH]; [constructor|].
    rewrite filter_cons. simpl.
    destruct (index_map !! w) as [i|] eqn:Hw.
    - rewrite decide_True by done. by constructor.
    - rewrite decide_False; [done|]. by intros [? ?]. }
  split; [done|]. intros Hall.
  rewrite <-(Forall2_length _ _ _ H). f_equal.
  clear H. induction Hall as [|w words Hw _ IH]; [done|].
  rewrite filter_cons, decide_True by done. simpl. by rewrite IH.
Qed.

(** ** Tokenization *)

(** The example of the docstring of [tokenize_w2v]. *)
Example tokenize_w2v_docstring :
  tokenize_w2v ["Hello, world!"; "This is a test."] None true
  = [["hello"; "world"]; ["this"; "is"; "a"; "test"]].
Proof. reflexivity. Qed.

(** A tab is removed by the pattern before the split, so it does not
    separate words; without normalisation it does. *)
Example tokenize_w2v_tab :
  let t := "a" +:+ String (Ascii.ascii_of_nat 9) "b c d" in
  tokenize_w2v [t] (Some 2%Z) true = [["ab"; "c"]]
  ∧ tokenize_w2v [t] (Some 2%Z) false = [["a"; "b"]].
Proof. split; reflexivity. Qed.

Lemma lowered_kept_char (c : Ascii.ascii) :
  is_letter_or_blank (py_lower c) = true →
  is_lower_letter (py_lower c) = true ∨ is_space (py_lower c) = true.
Proof.
  destruct c as [[] [] [] [] [] [] [] []]; vm_compute; auto.
Qed.

Lemma lower_letter_not_space (c : Ascii.ascii) :
  is_lower_letter c = true → is_space c = false.
Proof.
  destruct c as [[] [] [] [] [] [] [] []]; vm_compute; auto.
Qed.

Lemma chars_app (s t : string) :
  String.list_ascii_of_string (s +:+ t)
  = String.list_ascii_of_string s ++ String.list_ascii_of_string t.
Proof. induction s as [|c s IH]; simpl; [done|]. by rewrite IH. Qed.

Lemma normalized_chars (s : string) :
  Forall (λ c, is_lower_letter c = true ∨ is_space c = true)
         (String.list_ascii_of_string (regexp_sub (lower s))).
Proof.
  induction s as [|c s IH]; simpl; [constructor|].
  destruct (is_letter_or_blank (py_lower c)) eqn:Hc; [|done].
  simpl. constructor; [|done]. by apply lowered_kept_char.
Qed.

Lemma split_from_lowercase (cur s : string) :
  Forall (λ c, is_lower_letter c = true) (String.list_ascii_of_string cur) →
  Forall (λ c, is_lower_letter c = true ∨ is_space c = true)
         (String.list_ascii_of_string s) →
  Forall lowercase_word (split_from cur s).
Proof.
  revert cur. induction s as [|c s IH]; intros cur Hcur Hs; simpl.
  - case_decide; [constructor|]. by repeat constructor.
  - simpl in Hs. apply Forall_cons in Hs as [Hc Hs].
    destruct (is_space c) eqn:Hsp.
    + case_decide.
      * apply IH; [constructor | done].
      * constructor; [done|]. apply IH; [constructor | done].
    + destruct Hc as [Hc|Hc]; [|congruence].
      apply IH; [|done]. rewrite chars_app. apply Forall_app. split; [done|].
      by repeat constructor.
Qed.

Lemma length_py_slice_to_le {A} (l : list A) (m : Z) :
  (0 ≤ m)%Z → length (py_slice_to l (Some m)) ≤ Z.to_nat m.
Proof.
  intros Hm. simpl. replace m with (Z.of_nat (Z.to_nat m)) at 1 by lia.
  rewrite py_slice_prefix, length_take. lia.
Qed.

Lemma py_slice_to_sublist {A} (l : list A) (stop : option Z) :
  py_slice_to l stop `sublist_of` l.
Proof.
  destruct stop as [m|]; [|done]. unfold py_slice_to, py_slice.
  etrans; [apply sublist_take | apply sublist_drop].
Qed.

Lemma elem_of_concat {A} (x : A) (ll : list (list A)) :
  x ∈ concat ll ↔ ∃ l, x ∈ l ∧ l ∈ ll.
Proof.
  induction ll as [|l ll IH]; simpl.
  - split; [by intros ?%elem_of_nil | by intros (? & _ & ?%elem_of_nil)].
  - rewrite elem_of_app, IH. split.
    + intros [?|(l' & ? & ?)]; [exists l | exists l'];
        (split; [done|]); [left | by right].
    + intros (l' & Hx & [->|?]%elem_of_cons); [by left | right; by exists l'].
Qed.

Lemma Forall_of_sublist {A} (P : A → Prop) (l k : list A) :
  l `sublist_of` k → Forall P k → Forall P l.
Proof.
  intros Hsub Hk. apply Forall_forall. intros x Hx.
  rewrite Forall_forall in Hk. apply Hk. by eapply elem_of_sublist.
Qed.

Lemma tokenize_w2v_lowercase (text : list string) (max_length : option Z) :
  Forall (Forall lowercase_word) (tokenize_w2v text max_length true).
Proof.
  unfold tokenize_w2v.
  apply Forall_fmap, Forall_fmap, Forall_forall. intros t _. simpl.
  eapply Forall_of_sublist; [apply py_slice_to_sublist|].
  apply split_from_lowercase; [constructor | apply normalized_chars].
Qed.

Lemma lowercase_word_not_pad : ¬ lowercase_word "[PAD]".
Proof.
  intros [_ Hc]. apply Forall_cons in Hc as [Hc _]. vm_compute in Hc.
  discriminate.
Qed.

Lemma tokenize_w2v_no_pad (text : list string) (max_length : option Z) :
  "[PAD]" ∉ concat (tokenize_w2v text max_length true).
Proof.
  intros Hin. apply elem_of_concat in Hin as (words & Hin & Hwd).
  pose proof (tokenize_w2v_lowercase text max_length) as Hwords.
  rewrite Forall_forall in Hwords. specialize (Hwords _ Hwd).
  rewrite Forall_forall in Hwords.
  by apply lowercase_word_not_pad, Hwords.
Qed.

(** X16. With [normalize=True] (strings of code points below 256),
    [tokenize_w2v] returns one token list per text, every token is a
    non-empty word of the letters a-z (so ["[PAD]"] is never a token), and
    with [max_length = m >= 0] no list has more than [m] tokens. *)
Theorem tokenize_w2v_normalized (text : list string) (max_length : option Z) :
  let tokens := tokenize_w2v text max_length true in
  length tokens = length text
  ∧ Forall (Forall lowercase_word) tokens
  ∧ ("[PAD]" ∉ concat tokens)
  ∧ (∀ m, max_length = Some m → (0 ≤ m)%Z →
          Forall (λ words, length words ≤ Z.to_nat m) tokens).
Proof.
  intros tokens. subst tokens. split_and!.
  - unfold tokenize_w2v. by rewrite !length_fmap.
  - apply tokenize_w2v_lowercase.
  - apply tokenize_w2v_no_pad.
  - intros m -> Hm. unfold tokenize_w2v.
    apply Forall_fmap, Forall_forall. intros t _. simpl.
    by apply length_py_slice_to_le.
Qed.

Lemma text_indices_range (text : list string) (max_length max_words : option Z) :
  let tokens := tokenize_w2v text max_length true in
  let word_to_index := build_index_map (build_word_counts tokens) max_words in
  Forall (Forall (λ i, (1 ≤ i < Z.of_nat (size word_to_index))%Z))
         (tokens_to_ix tokens word_to_index).
Proof.
  intros tokens word_to_index.
  destruct (build_word_counts_spec [] tokens) as (Hnd & _ & Hkeys);
    [apply NoDup_nil_2|].
  fold (build_word_counts tokens) in Hnd, Hkeys.
  assert (Hpad : "[PAD]" ∉ (build_word_counts tokens).*1).
  { rewrite Hkeys. intros [?%elem_of_nil|Hin]; [done|].
    by apply (tokenize_w2v_no_pad text max_length). }
  destruct (build_index_map_spec _ max_words Hnd Hpad)
    as (Hzero & Hsize & Hrange & _ & Hinj & _).
  fold word_to_index in Hzero, Hsize, Hrange, Hinj.
  unfold tokens_to_ix.
  apply Forall_fmap, Forall_forall. intros words Hwords. simpl.
  apply Forall_forall. intros i Hi.
  apply list_elem_of_omap in Hi as (w & Hw & Hlook).
  rewrite Hsize. specialize (Hrange _ _ Hlook).
  assert (i ≠ 0%Z); [|lia]. intros ->.
  assert (w = "[PAD]") by (by eapply Hinj). subst w.
  apply (tokenize_w2v_no_pad text max_length).
  apply elem_of_concat. by exists words.
Qed.

(** X17. The script's way from text to indices: with normalised tokens,
    the counts of [build_word_counts] and the map of [build_index_map]
    (any [max_words]), every index that [tokens_to_ix] produces is at least
    1 (never the padding index) and smaller than [len(index_map)], so it is
    a row of an embedding table with [len(index_map)] rows; without
    [max_words] no word is dropped: every token list is mapped word by
    word. *)
Theorem text_indices_in_vocabulary
    (text : list string) (max_length max_words : option Z) :
  let tokens := tokenize_w2v text max_length true in
  let word_counts := build_word_counts tokens in
  let word_to_index := build_index_map word_counts max_words in
  let text_indices := tokens_to_ix tokens word_to_index in
  Forall (Forall (λ i, (1 ≤ i < Z.of_nat (size word_to_index))%Z)) text_indices
  ∧ (max_words = None →
     Forall2 (Forall2 (λ w i, word_to_index !! w = Some i))
             tokens text_indices).
Proof.
  intros tokens word_counts word_to_index text_indices.
  destruct (build_word_counts_spec [] tokens) as (Hnd & _ & Hkeys);
    [apply NoDup_nil_2|].
  fold (build_word_counts tokens) in Hnd, Hkeys. fold word_counts in Hnd, Hkeys.
  assert (Hpad : "[PAD]" ∉ word_counts.*1).
  { rewrite Hkeys. intros [?%elem_of_nil|Hin]; [done|].
    by apply (tokenize_w2v_no_pad text max_length). }
  split.
  - apply text_indices_range.
  - intros ->. subst text_indices. unfold tokens_to_ix.
    apply Forall2_fmap_r, Forall_Forall2_diag, Forall_forall.
    intros words Hwords.
    assert (Hall : Forall (λ w, is_Some (word_to_index !! w)) words).
    { apply Forall_forall. intros w Hw.
      destruct (index_of_kept_words word_counts (length word_counts) Hnd Hpad)
        as (_ & _ & Hiff).
      assert (Hin : w ∈ word_counts.*1).
      { apply Hkeys. right. apply elem_of_concat. by exists words. }
      apply list_elem_of_fmap in Hin as ([w' c] & -> & Hin).
      assert (Hin' : (w', c) ∈ sorted_by_count word_counts)
        by (by rewrite sorted_by_count_Permutation).
      apply list_elem_of_lookup in Hin' as [j Hj].
      exists (Z.of_nat (S j)). subst word_to_index.
      rewrite build_index_map_unfold. apply Hiff. right. exists j, c.
      split; [done|]. apply lookup_take_Some. split; [done|].
      apply lookup_lt_Some in Hj.
      by rewrite (Permutation_length (sorted_by_count_Permutation word_counts))
        in Hj. }
    clear Hwords. induction Hall as [|w words [i Hi] _ IH]; [constructor|].
    simpl. rewrite Hi. simpl. by constructor.
Qed.

(** ** Training data and the models *)

Section Closure.
Context {A : Type} (P : A → Prop).

Lemma py_slice_sublist {B} (l : list B) (a b : Z) : py_slice l a b `sublist_of` l.
Proof. unfold py_slice. etrans; [apply sublist_take | apply sublist_drop]. Qed.

Lemma Forall_py_slice {B} (Q : B → Prop) (l : list B) (a b : Z) :
  Forall Q l → Forall Q (py_slice l a b).
Proof. apply Forall_of_sublist, py_slice_sublist. Qed.

Lemma build_pairs_Forall (indices : list A) (window_size : Z) :
  Forall P indices →
  Forall (Forall P) (build_current_surrounding_pairs indices window_size).1
  ∧ Forall P (build_current_surrounding_pairs indices window_size).2.
Proof.
  intros H. unfold build_current_surrounding_pairs. cbn [fst snd]. split.
  - apply Forall_py_slice, Forall_forall.
    intros win (i & cur & -> & _)%elem_of_lookup_imap.
    apply Forall_app. split; by apply Forall_py_slice.
  - by apply Forall_py_slice.
Qed.

Lemma expand_Forall (sur : list (list A)) (cur : list A) :
  Forall (Forall P) sur → Forall P cur →
  Forall P (expand_surrounding_words sur cur).1
  ∧ Forall P (expand_surrounding_words sur cur).2.
Proof.
  intros Hs Hc. unfold expand_surrounding_words.
  destruct sur as [|first rest]; [by split|]. cbn [fst snd]. split.
  - by apply Forall_concat.
  - apply Forall_concat, Forall_forall.
    intros l (c & -> & Hin)%(list_elem_of_fmap (replicate (length first))).
    apply Forall_replicate. rewrite Forall_forall in Hc. by apply Hc.
Qed.

Lemma cbow_preprocessing_Forall (indices_list : list (list A)) (w : Z) :
  Forall (Forall P) indices_list →
  Forall (Forall P) (cbow_preprocessing indices_list w).1
  ∧ Forall P (cbow_preprocessing indices_list w).2.
Proof.
  intros H. unfold cbow_preprocessing. rewrite cbow_preprocessing_acc.
  cbn [fst snd app]. rewrite Forall_forall in H.
  split; apply Forall_concat, Forall_fmap, Forall_forall; intros s Hs; simpl;
    by apply build_pairs_Forall, H.
Qed.

Lemma skipgram_preprocessing_Forall (indices_list : list (list A)) (w : Z) :
  Forall (Forall P) indices_list →
  Forall P (skipgram_preprocessing indices_list w).1
  ∧ Forall P (skipgram_preprocessing indices_list w).2.
Proof.
  intros H. unfold skipgram_preprocessing. rewrite skipgram_preprocessing_acc.
  cbn [fst snd app]. rewrite Forall_forall in H.
  split; apply Forall_concat, Forall_fmap, Forall_forall; intros s Hs; simpl;
    by apply expand_Forall; apply build_pairs_Forall, H.
Qed.

End Closure.

(** X18. The preprocessing functions never invent a token: for every
    window size (also 0 or negative), every element of a CBOW context,
    every CBOW target, every Skip-Gram source and every Skip-Gram target
    is a token of the input sequences. *)
Theorem preprocessing_keeps_tokens {A} (indices_list : list (list A)) (w : Z) :
  let cbow := cbow_preprocessing indices_list w in
  let skip := skipgram_preprocessing indices_list w in
  (∀ x, x ∈ concat cbow.1 → x ∈ concat indices_list)
  ∧ (∀ x, x ∈ cbow.2 → x ∈ concat indices_list)
  ∧ (∀ x, x ∈ skip.1 → x ∈ concat indices_list)
  ∧ (∀ x, x ∈ skip.2 → x ∈ concat indices_list).
Proof.
  intros cbow skip.
  assert (H : Forall (Forall (λ x, x ∈ concat indices_list)) indices_list).
  { apply Forall_forall. intros l Hl. apply Forall_forall. intros x Hx.
    apply elem_of_concat. by exists l. }
  destruct (cbow_preprocessing_Forall _ indices_list w H) as [Hc1 Hc2].
  destruct (skipgram_preprocessing_Forall _ indices_list w H) as [Hs1 Hs2].
  apply Forall_concat in Hc1.
  rewrite Forall_forall in Hc1, Hc2, Hs1, Hs2. by split_and!.
Qed.

(** *** Index errors of the forward passes *)

Lemma comprehension_raise_only {A B} (f : A → result B) (e0 : exn) (l : list A) e :
  (∀ x e', x ∈ l → f x = Raise e' → e' = e0) →
  comprehension f l = Raise e ↔ e = e0 ∧ Exists (λ x, f x = Raise e0) l.
Proof.
  revert e. induction l as [|x l IH]; intros e Hf; simpl.
  - split; [done|]. by intros [_ ?%Exists_nil].
  - assert (Hf' : ∀ y e', y ∈ l → f y = Raise e' → e' = e0)
      by (intros y e' Hy; apply Hf; by right).
    destruct (f x) as [v|e'] eqn:Hx; simpl.
    + destruct (comprehension f l) as [vs|e''] eqn:Hl; simpl.
      * split; [done|]. intros [-> [?|Hex]%Exists_cons]; [congruence|].
        destruct (IH e0 Hf') as [_ IH']. by specialize (IH' (conj eq_refl Hex)).
      * destruct (IH e'' Hf') as [IH' _]. destruct (IH' eq_refl) as [-> Hex].
        split; [intros [= <-] | by intros [-> _]].
        split; [done|]. by apply Exists_cons_tl.
    + assert (e' = e0) as -> by (apply (Hf x); [by left | done]). split.
      * intros [= <-]. split; [done|]. by apply Exists_cons_hd.
      * by intros [-> _].
Qed.

Lemma Exists_equiv {B} (P Q : B → Prop) (l : list B) :
  (∀ x, P x ↔ Q x) → Exists P l ↔ Exists Q l.
Proof.
  intros H. split; intros Hex; (eapply Exists_impl; [exact Hex|]);
    intros x; by apply H.
Qed.

Lemma embedding_row_raise (W : tensor2) (i : Z) e :
  wf2 W →
  embedding_row W i = Raise e ↔ e = IndexError ∧ ¬ in_range (shape2 W).1 i.
Proof.
  intros [Hlen _]. unfold embedding_row, in_range.
  destruct (decide (0 ≤ i < Z.of_nat (shape2 W).1)%Z) as [Hi|Hi].
  - rewrite bool_decide_eq_true_2 by done.
    destruct (lookup_lt_is_Some_2 (data2 W) (Z.to_nat i)) as [r Hr]; [lia|].
    rewrite Hr. split; [done | by intros [_ ?]].
  - rewrite bool_decide_eq_false_2 by done. split; [by intros [= <-] | by intros [-> _]].
Qed.

Lemma embedding_rows_raise (W : tensor2) (xs : list Z) e :
  wf2 W →
  comprehension (embedding_row W) xs = Raise e
  ↔ e = IndexError ∧ Exists (λ i, ¬ in_range (shape2 W).1 i) xs.
Proof.
  intros HW.
  rewrite (comprehension_raise_only _ IndexError)
    by (by intros i e' _ [-> _]%embedding_row_raise).
  apply and_iff_compat_l, Exists_equiv. intros i.
  rewrite embedding_row_raise by done. split; [by intros [_ ?] | done].
Qed.

Lemma SkipGram_forward_raise σ (self : SkipGram.t) W xs e :
  tied σ (SkipGram.emb self) (SkipGram.proj self) W → wf2 W →
  SkipGram.forward σ self xs = Raise e
  ↔ e = IndexError ∧ Exists (λ i, ¬ in_range (shape2 W).1 i) xs.
Proof.
  intros (l & He & Hp & Hl) HW.
  rewrite <-embedding_rows_raise by done.
  unfold SkipGram.forward, call_embedding1, call_linear, param2.
  rewrite He, Hp, Hl. unfold F_embedding1.
  destruct (comprehension (embedding_row W) xs) as [rows|e']; simpl;
    [|by split; intros [= ->]].
  unfold F_linear. simpl. by rewrite bool_decide_eq_true_2.
Qed.

Lemma CBOW_forward_raise σ (self : CBOW.t) W x e :
  tied σ (CBOW.emb self) (CBOW.proj self) W → wf2 W →
  CBOW.forward σ self x = Raise e
  ↔ e = IndexError
    ∧ Exists (Exists (λ i, ¬ in_range (shape2 W).1 i)) (idata2 x).
Proof.
  intros (l & He & Hp & Hl) HW.
  assert (Hrows : comprehension (comprehension (embedding_row W)) (idata2 x)
                  = Raise e
                  ↔ e = IndexError
                    ∧ Exists (Exists (λ i, ¬ in_range (shape2 W).1 i)) (idata2 x)).
  { rewrite (comprehension_raise_only _ IndexError)
      by (by intros ctx e' _ [-> _]%embedding_rows_raise).
    apply and_iff_compat_l, Exists_equiv. intros ctx.
    rewrite embedding_rows_raise by done. split; [by intros [_ ?] | done]. }
  rewrite <-Hrows.
  unfold CBOW.forward, call_embedding2, call_linear, param2.
  rewrite He, Hp, Hl. unfold F_embedding2.
  destruct (comprehension (comprehension (embedding_row W)) (idata2 x))
    as [rows|e']; simpl; [|by split; intros [= ->]].
  unfold sum_axis1. simpl. destruct (ishape2 x) as [b c]. simpl.
  unfold F_linear. simpl. by rewrite bool_decide_eq_true_2.
Qed.

(** X19. With tied weights of shape (vocabulary size, dimension), the
    forward passes raise nothing but [IndexError], and raise it exactly
    when the batch holds an index outside [0, vocabulary size): a negative
    index does not count from the end. *)
Theorem forward_raises_only_index_error
    (σs σc : store) (sg : SkipGram.t) (cb : CBOW.t) (Ws Wc : tensor2)
    (xs : list Z) (xc : itensor2) :
  tied σs (SkipGram.emb sg) (SkipGram.proj sg) Ws → wf2 Ws →
  tied σc (CBOW.emb cb) (CBOW.proj cb) Wc → wf2 Wc →
  (∀ e, SkipGram.forward σs sg xs = Raise e
        ↔ e = IndexError ∧ Exists (λ i, ¬ in_range (shape2 Ws).1 i) xs)
  ∧ (∀ e, CBOW.forward σc cb xc = Raise e
          ↔ e = IndexError
            ∧ Exists (Exists (λ i, ¬ in_range (shape2 Wc).1 i)) (idata2 xc)).
Proof.
  intros HTs HWs HTc HWc. split; intros e.
  - by apply SkipGram_forward_raise.
  - by apply CBOW_forward_raise.
Qed.

Lemma forward_raises_only_index_error_witness :
  let rand := λ i j : nat, INR (i + j) in
  let W := tabulate2 (3, 2)%nat rand in
  let sg := SkipGram.init 3 2 rand rand ∅ in
  let cb := CBOW.init 3 2 rand rand ∅ in
  (tied sg.2 (SkipGram.emb sg.1) (SkipGram.proj sg.1) W ∧ wf2 W
   ∧ tied cb.2 (CBOW.emb cb.1) (CBOW.proj cb.1) W)
  ∧ SkipGram.forward sg.2 sg.1 [0; -1]%Z = Raise IndexError
  ∧ CBOW.forward cb.2 cb.1 (ITensor2 (1, 2)%nat [[1; 3]]%Z) = Raise IndexError.
Proof.
  intros rand W sg cb.
  assert (Hs : tied sg.2 (SkipGram.emb sg.1) (SkipGram.proj sg.1) W)
    by apply SkipGram_init_tied.
  assert (Hc : tied cb.2 (CBOW.emb cb.1) (CBOW.proj cb.1) W)
    by apply CBOW_init_tied.
  assert (HW : wf2 W) by apply tabulate2_wf.
  split; [done|].
  destruct (forward_raises_only_index_error sg.2 cb.2 sg.1 cb.1 W W
              [0; -1]%Z (ITensor2 (1, 2)%nat [[1; 3]]%Z) Hs HW Hc HW)
    as [H1 H2].
  split.
  - apply H1. split; [done|]. apply Exists_cons_tl, Exists_cons_hd.
    unfold in_range. simpl. lia.
  - apply H2. split; [done|]. apply Exists_cons_hd, Exists_cons_tl, Exists_cons_hd.
    unfold in_range. simpl. lia.
Defined.

(** X20. From text to a forward pass, as the script composes them: the
    model is created with [num_words = len(word_to_index)]. Whatever the
    text, [max_length], [max_words], window size and initial weights, every
    batch taken from the Skip-Gram sources and every index tensor whose
    rows are CBOW contexts is inside the embedding table, so the forward
    pass raises nothing and returns logits of shape (batch, num_words);
    every target is a valid class for these logits. *)
Theorem training_batches_fit_model
    (text : list string) (max_length max_words : option Z) (window_size : Z)
    (embed_dim : nat) (rand_emb rand_proj : nat → nat → R) (σ0 : store) :
  let tokens := tokenize_w2v text max_length true in
  let word_to_index := build_index_map (build_word_counts tokens) max_words in
  let text_indices := tokens_to_ix tokens word_to_index in
  let num_words := size word_to_index in
  let W := tabulate2 (num_words, embed_dim) rand_emb in
  let sg := SkipGram.init num_words embed_dim rand_emb rand_proj σ0 in
  let cb := CBOW.init num_words embed_dim rand_emb rand_proj σ0 in
  let data_sg := skipgram_preprocessing text_indices window_size in
  let data_cb := cbow_preprocessing text_indices window_size in
  (∀ x : list Z, x ⊆ data_sg.1 →
     SkipGram.forward sg.2 sg.1 x = Ok (skipgram_logits W x)
     ∧ shape2 (skipgram_logits W x) = (length x, num_words))
  ∧ (∀ x : itensor2, idata2 x ⊆ data_cb.1 →
       CBOW.forward cb.2 cb.1 x = Ok (cbow_logits W x)
       ∧ shape2 (cbow_logits W x) = ((ishape2 x).1, num_words))
  ∧ Forall (in_range num_words) data_sg.2
  ∧ Forall (in_range num_words) data_cb.2.
Proof.
  intros tokens word_to_index text_indices num_words W sg cb data_sg data_cb.
  assert (Hix : Forall (Forall (in_range num_words)) text_indices).
  { eapply Forall_impl; [apply text_indices_range|]. intros l Hl.
    eapply Forall_impl; [exact Hl|]. intros i [H1 H2].
    split; [lia | exact H2]. }
  destruct (skipgram_preprocessing_Forall _ text_indices window_size Hix)
    as [Hs1 Hs2].
  destruct (cbow_preprocessing_Forall _ text_indices window_size Hix)
    as [Hc1 Hc2].
  assert (HW : wf2 W) by apply tabulate2_wf.
  split_and!; [| |done..].
  - intros x Hx. split; [|done]. apply SkipGram_forward_tied.
    + apply SkipGram_init_tied.
    + done.
    + apply Forall_forall. intros i Hi. rewrite Forall_forall in Hs1.
      by apply Hs1, Hx.
  - intros x Hx. split; [|done]. apply CBOW_forward_tied.
    + apply CBOW_init_tied.
    + done.
    + apply Forall_forall. intros ctx Hctx. rewrite Forall_forall in Hc1.
      by apply Hc1, Hx.
Qed.

Lemma training_batches_fit_model_witness :
  let text := ["The cat sat."; "the cat"] in
  let rand := λ i j : nat, INR (i + j) in
  let tokens := tokenize_w2v text None true in
  let word_to_index := build_index_map (build_word_counts tokens) None in
  let text_indices := tokens_to_ix tokens word_to_index in
  let num_words := size word_to_index in
  let sg := SkipGram.init num_words 2 rand rand ∅ in
  let x := [1; 3]%Z in
  x ⊆ (skipgram_preprocessing text_indices 1).1
  ∧ SkipGram.forward sg.2 sg.1 x
    = Ok (skipgram_logits (tabulate2 (num_words, 2%nat) rand) x).
Proof.
  intros text rand tokens word_to_index text_indices num_words sg x.
  assert (Hx : x ⊆ (skipgram_preprocessing text_indices 1).1).
  { assert (Hd : (skipgram_preprocessing text_indices 1).1 = [1; 3]%Z)
      by (vm_compute; reflexivity).
    by rewrite Hd. }
  split; [done|].
  destruct (training_batches_fit_model text None None 1 2 rand rand ∅)
    as (H & _).
  by apply H.
Defined.

(** ** The reserved word *)

(** The index map when the first word occurs again later: the later
    index overwrites the first one. *)
Lemma index_dict_cons_lookup (p : string) (words : list string) (w : string) :
  NoDup words →
  index_dict (p :: words) !! w
  = match list_find (λ x, x = w) words with
    | Some (n, _) => Some (Z.of_nat (S n))
    | None => if decide (p = w) then Some 0%Z else None
    end.
Proof.
  intros Hnd. unfold index_dict. cbn [imap foldl]. simpl.
  rewrite (imap_ext _ (λ ix word, (1 + ix, word)))
    by (intros; simpl; f_equal).
  rewrite (index_dict_acc words 1 (<[p:=0%Z]> ∅) w Hnd).
  destruct (list_find (λ x, x = w) words) as [[n y]|]; [done|].
  destruct (decide (p = w)) as [->|Hne].
  - by rewrite lookup_insert_eq.
  - by rewrite lookup_insert_ne, lookup_empty.
Qed.

Lemma index_dict_repeated_head (p : string) (words : list string) :
  NoDup words → p ∈ words →
  index_dict (p :: words) = Z.succ <$> index_dict words.
Proof.
  intros Hnd Hp. apply map_eq. intros w.
  rewrite index_dict_cons_lookup, lookup_fmap by done.
  unfold index_dict at 1. rewrite (index_dict_acc words 0 ∅ w Hnd).
  destruct (list_find (λ x, x = w) words) as [[n y]|] eqn:Hfind; simpl.
  - f_equal. lia.
  - rewrite lookup_empty. simpl. rewrite decide_False; [done|]. intros <-.
    rewrite list_find_None, Forall_forall in Hfind. by destruct (Hfind p).
Qed.

(** X21. [build_index_map] does not check that ["[PAD]"] is free. When it
    is one of the counted words (distinct words, no [max_words]), its
    index 0 is overwritten: the map has only as many entries as there are
    words, no word has index 0, the indices are [1 .. len(index_map)], and
    so one word has the index [len(index_map)], which is not a row of an
    embedding table with [len(index_map)] rows. *)
Theorem build_index_map_reserved_word_collision
    (word_counts : list (string * nat)) :
  NoDup word_counts.*1 → "[PAD]" ∈ word_counts.*1 →
  let index_map := build_index_map word_counts None in
  size index_map = length word_counts
  ∧ (∀ w i, index_map !! w = Some i → (1 ≤ i ≤ Z.of_nat (size index_map))%Z)
  ∧ (∀ w, w ∈ word_counts.*1 → is_Some (index_map !! w))
  ∧ (∃ w, index_map !! w = Some (Z.of_nat (size index_map))).
Proof.
  intros Hnd Hpad index_map.
  set (words := (sorted_by_count word_counts).*1).
  assert (Hperm : words ≡ₚ word_counts.*1)
    by (subst words; by rewrite sorted_by_count_Permutation).
  assert (Hnd' : NoDup words) by (by rewrite Hperm).
  assert (Hlen : length words = length word_counts)
    by (by rewrite Hperm, length_fmap).
  assert (Hmap : index_map = Z.succ <$> index_dict words).
  { subst index_map. rewrite build_index_map_unfold.
    rewrite take_ge
      by (by rewrite (Permutation_length (sorted_by_count_Permutation _))).
    apply index_dict_repeated_head; [done | by rewrite Hperm]. }
  assert (Hsize : size index_map = length word_counts).
  { by rewrite Hmap, map_size_fmap, index_dict_size. }
  assert (Hlook : ∀ w i, index_map !! w = Some i
                         ↔ ∃ n, i = Z.of_nat (S n) ∧ words !! n = Some w).
  { intros w i. rewrite Hmap, lookup_fmap, fmap_Some. split.
    - intros (j & (n & -> & Hn)%index_dict_lookup & ->); [|done].
      exists n. split; [lia | done].
    - intros (n & -> & Hn). exists (Z.of_nat n).
      split; [|lia]. apply index_dict_lookup; [done|]. by exists n. }
  split_and!.
  - done.
  - intros w i (n & -> & Hn)%Hlook. apply lookup_lt_Some in Hn. lia.
  - intros w Hw. rewrite <-Hperm in Hw.
    apply list_elem_of_lookup in Hw as [n Hn].
    exists (Z.of_nat (S n)). apply Hlook. by exists n.
  - destruct (lookup_lt_is_Some_2 words (length word_counts - 1)) as [w Hw].
    { apply list_elem_of_fmap in Hpad as (x & _ & Hx).
      apply list_elem_of_lookup in Hx as [j Hj%lookup_lt_Some]. lia. }
    exists w. apply Hlook. exists (length word_counts - 1). split; [|done].
    apply list_elem_of_fmap in Hpad as (x & _ & Hx).
    apply list_elem_of_lookup in Hx as [j Hj%lookup_lt_Some]. lia.
Qed.

Lemma build_index_map_reserved_word_collision_witness :
  let word_counts := [("a", 2); ("[PAD]", 1)] in
  (NoDup word_counts.*1 ∧ ("[PAD]" ∈ word_counts.*1))
  ∧ size (build_index_map word_counts None) = 2.
Proof.
  intros word_counts.
  assert (H1 : NoDup word_counts.*1) by compute_done.
  assert (H2 : "[PAD]" ∈ word_counts.*1) by compute_done.
  split; [done|].
  by destruct (build_index_map_reserved_word_collision word_counts H1 H2)
    as (H & _).
Defined.

(** Without normalisation the collision can happen: the token ["[PAD]"]
    then gets the index 2 in a map of 2 entries. *)
Example reserved_word_in_corpus :
  let tokens := tokenize_w2v ["[PAD] a a"] None false in
  let index_map := build_index_map (build_word_counts tokens) None in
  tokens_to_ix tokens index_map = [[2; 1; 1]%Z] ∧ size index_map = 2.
Proof. by vm_compute. Qed.

(** ** The dataset *)

Lemma list_getitem_nat {A} (l : list A) (n : nat) (x : A) :
  l !! n = Some x → list_getitem l (Z.of_nat n) = Ok x.
Proof.
  intros Hn. pose proof (lookup_lt_Some _ _ _ Hn). unfold list_getitem.
  rewrite decide_True by lia. rewrite decide_False by lia.
  by rewrite Nat2Z.id, Hn.
Qed.

Lemma list_getitem_from_end {A} (l : list A) (n : nat) (x : A) :
  l !! n = Some x →
  list_getitem l (Z.of_nat n - Z.of_nat (length l)) = Ok x.
Proof.
  intros Hn. pose proof (lookup_lt_Some _ _ _ Hn). unfold list_getitem.
  rewrite decide_True by lia. rewrite decide_True by lia.
  replace (Z.to_nat (Z.of_nat n - Z.of_nat (length l) + Z.of_nat (length l)))
    with n by lia.
  by rewrite Hn.
Qed.

Lemma list_getitem_out_of_range {A} (l : list A) (idx : Z) :
  ¬ (- Z.of_nat (length l) ≤ idx < Z.of_nat (length l))%Z →
  list_getitem l idx = Raise IndexError.
Proof. intros H. unfold list_getitem. by rewrite decide_False. Qed.

Section Dataset.
Context {Src Tgt : Type}.
Implicit Types (s : list Src) (t : list Tgt).

Lemma dataset_getitem_nat s t (n : nat) x y :
  s !! n = Some x → t !! n = Some y →
  Word2VecDataset.getitem (Word2VecDataset.Build s t) (Z.of_nat n) = Ok (x, y).
Proof.
  intros Hx Hy. unfold Word2VecDataset.getitem. simpl.
  by rewrite (list_getitem_nat _ _ _ Hx), (list_getitem_nat _ _ _ Hy).
Qed.

Lemma dataset_iterate_from s t (k : nat) :
  length s = length t →
  comprehension (Word2VecDataset.getitem (Word2VecDataset.Build s t))
                (Z.of_nat <$> seq k (length s - k))
  = Ok (drop k (zip s t)).
Proof.
  intros Hlen. remember (length s - k) as m eqn:Hm.
  revert k Hm. induction m as [|m IH]; intros k Hm.
  - simpl. rewrite drop_ge; [done|]. rewrite length_zip. lia.
  - cbn [seq fmap list_fmap comprehension].
    destruct (lookup_lt_is_Some_2 s k) as [x Hx]; [lia|].
    destruct (lookup_lt_is_Some_2 t k) as [y Hy]; [lia|].
    change (list_fmap nat Z Z.of_nat (seq (S k) m))
      with (Z.of_nat <$> seq (S k) m).
    simpl. rewrite (dataset_getitem_nat s t k x y Hx Hy).
    cbv beta iota delta [mbind result_bind].
    rewrite (IH (S k)) by lia.
    f_equal. symmetry. apply drop_S.
    by rewrite lookup_zip_with, Hx, Hy.
Qed.

Lemma dataset_semantics s t :
  length s = length t →
  let d := Word2VecDataset.Build s t in
  Word2VecDataset.init s t = Some d
  ∧ Word2VecDataset.len d = length t
  ∧ comprehension (Word2VecDataset.getitem d)
                  (Z.of_nat <$> seq 0 (Word2VecDataset.len d))
    = Ok (zip s t)
  ∧ (∀ (n : nat) p, zip s t !! n = Some p →
       Word2VecDataset.getitem d (Z.of_nat n) = Ok p
       ∧ Word2VecDataset.getitem d
           (Z.of_nat n - Z.of_nat (Word2VecDataset.len d)) = Ok p)
  ∧ (∀ idx, ¬ (- Z.of_nat (Word2VecDataset.len d) ≤ idx
               < Z.of_nat (Word2VecDataset.len d))%Z →
       Word2VecDataset.getitem d idx = Raise IndexError).
Proof.
  intros Hlen d. split_and!.
  - unfold Word2VecDataset.init. simpl. by rewrite decide_True.
  - done.
  - unfold Word2VecDataset.len. simpl.
    pose proof (dataset_iterate_from s t 0 Hlen) as H.
    by rewrite Nat.sub_0_r in H.
  - intros n [x y] Hn. rewrite lookup_zip_with in Hn.
    destruct (s !! n) as [x'|] eqn:Hx; [|done].
    destruct (t !! n) as [y'|] eqn:Hy; [|done].
    simpl in Hn. injection Hn as -> ->. split.
    + by apply dataset_getitem_nat.
    + unfold Word2VecDataset.getitem, Word2VecDataset.len. simpl.
      rewrite (list_getitem_from_end _ _ _ Hx).
      rewrite Hlen, (list_getitem_from_end _ _ _ Hy). done.
  - intros idx Hidx. unfold Word2VecDataset.getitem. simpl.
    by rewrite (list_getitem_out_of_range s idx Hidx).
Qed.

End Dataset.

Section DatasetOfPreprocessing.
Context {A : Type}.
Implicit Types (indices : list A) (indices_list : list (list A)).

Lemma py_slice_zero {B} (l : list B) : py_slice l 0 0 = [].
Proof.
  unfold py_slice, adjust_index. destruct (Z.ltb_spec 0 0); [lia|].
  by rewrite Z.sub_diag.
Qed.

Lemma build_pairs_zero indices :
  build_current_surrounding_pairs indices 0 = ([], []).
Proof.
  unfold build_current_surrounding_pairs. change (- 0)%Z with 0%Z.
  by rewrite !py_slice_zero.
Qed.

Lemma expand_pairs_lengths indices (window_size : Z) :
  (0 ≤ window_size)%Z →
  length (expand_surrounding_words
            (build_current_surrounding_pairs indices window_size).1
            (build_current_surrounding_pairs indices window_size).2).1
  = length (expand_surrounding_words
              (build_current_surrounding_pairs indices window_size).1
              (build_current_surrounding_pairs indices window_size).2).2.
Proof.
  intros Hw. destruct (decide (window_size = 0%Z)) as [->|Hne].
  { by rewrite build_pairs_zero. }
  set (w := Z.to_nat window_size).
  assert (Hws : window_size = Z.of_nat w) by (subst w; lia).
  assert (1 ≤ w) by lia.
  rewrite (expand_as_flattening _ _ (2 * w)).
  - cbn [fst snd].
    rewrite (length_concat_uniform _ (2 * w))
      by (rewrite Hws; by apply build_pairs_widths).
    rewrite (length_concat_uniform _ (2 * w)).
    + by rewrite length_fmap, build_pairs_same_length.
    + apply Forall_fmap, Forall_forall. intros c _. simpl.
      apply length_replicate.
  - rewrite Hws. by apply build_pairs_widths.
  - apply build_pairs_same_length.
Qed.

Lemma skipgram_preprocessing_lengths indices_list (window_size : Z) :
  (0 ≤ window_size)%Z →
  length (skipgram_preprocessing indices_list window_size).1
  = length (skipgram_preprocessing indices_list window_size).2.
Proof.
  intros Hw. unfold skipgram_preprocessing.
  rewrite skipgram_preprocessing_acc. cbn [fst snd app].
  induction indices_list as [|s l IH]; [done|].
  rewrite !fmap_cons. cbn [concat]. rewrite !length_app.
  by rewrite expand_pairs_lengths, IH.
Qed.

(** X22. For a window size [w >= 0] the outputs of both preprocessing
    functions pass the assertion of [Word2VecDataset]; reading the dataset
    at [0 .. len - 1] gives the (source, target) pairs in order, an index
    [i - len] gives the same item as [i], and any index outside
    [-len .. len - 1] raises [IndexError]. *)
Theorem dataset_of_preprocessing indices_list (window_size : Z) :
  (0 ≤ window_size)%Z →
  let skip := skipgram_preprocessing indices_list window_size in
  let cbow := cbow_preprocessing indices_list window_size in
  ∃ d_sg d_cb,
    Word2VecDataset.init skip.1 skip.2 = Some d_sg
    ∧ Word2VecDataset.init cbow.1 cbow.2 = Some d_cb
    ∧ Word2VecDataset.len d_sg = length skip.2
    ∧ Word2VecDataset.len d_cb = length cbow.2
    ∧ comprehension (Word2VecDataset.getitem d_sg)
                    (Z.of_nat <$> seq 0 (Word2VecDataset.len d_sg))
      = Ok (zip skip.1 skip.2)
    ∧ comprehension (Word2VecDataset.getitem d_cb)
                    (Z.of_nat <$> seq 0 (Word2VecDataset.len d_cb))
      = Ok (zip cbow.1 cbow.2)
    ∧ (∀ (n : nat) p, zip skip.1 skip.2 !! n = Some p →
         Word2VecDataset.getitem d_sg
           (Z.of_nat n - Z.of_nat (Word2VecDataset.len d_sg)) = Ok p)
    ∧ (∀ (n : nat) p, zip cbow.1 cbow.2 !! n = Some p →
         Word2VecDataset.getitem d_cb
           (Z.of_nat n - Z.of_nat (Word2VecDataset.len d_cb)) = Ok p)
    ∧ (∀ idx, ¬ (- Z.of_nat (Word2VecDataset.len d_sg) ≤ idx
                 < Z.of_nat (Word2VecDataset.len d_sg))%Z →
         Word2VecDataset.getitem d_sg idx = Raise IndexError)
    ∧ (∀ idx, ¬ (- Z.of_nat (Word2VecDataset.len d_cb) ≤ idx
                 < Z.of_nat (Word2VecDataset.len d_cb))%Z →
         Word2VecDataset.getitem d_cb idx = Raise IndexError).
Proof.
  intros Hw skip cbow.
  destruct (dataset_semantics skip.1 skip.2
              (skipgram_preprocessing_lengths indices_list window_size Hw))
    as (Hs1 & Hs2 & Hs3 & Hs4 & Hs5).
  destruct (dataset_semantics cbow.1 cbow.2
              (cbow_preprocessing_lengths indices_list window_size))
    as (Hc1 & Hc2 & Hc3 & Hc4 & Hc5).
  eexists _, _. split_and!; try done.
  - intros n p Hn. by apply Hs4.
  - intros n p Hn. by apply Hc4.
Qed.

End DatasetOfPreprocessing.

Lemma dataset_of_preprocessing_witness :
  (0 ≤ 1)%Z
  ∧ ∃ d, Word2VecDataset.init
           (skipgram_preprocessing [[10; 11; 12; 13]; [20; 21]] 1).1
           (skipgram_preprocessing [[10; 11; 12; 13]; [20; 21]] 1).2 = Some d
         ∧ comprehension (Word2VecDataset.getitem d)
                         (Z.of_nat <$> seq 0 (Word2VecDataset.len d))
           = Ok [(10, 11); (12, 11); (11, 12); (13, 12)].
Proof.
  split; [lia|].
  destruct (dataset_of_preprocessing [[10; 11; 12; 13]; [20; 21]] 1 ltac:(lia))
    as (d & _ & Hd & _ & _ & _ & Hit & _).
  exists d. split; [done|]. exact Hit.
Defined.

(** With a negative window size the Skip-Gram output can have more targets
    than sources, and the assertion fails. *)
Example dataset_assertion_fails :
  skipgram_preprocessing [[1; 2; 3; 4]] (-3) = ([3], [2; 3])
  ∧ Word2VecDataset.init (skipgram_preprocessing [[1; 2; 3; 4]] (-3)).1
                         (skipgram_preprocessing [[1; 2; 3; 4]] (-3)).2 = None.
Proof. by vm_compute. Qed.

(** ** The gender subspace and hard debiasing *)

Section GenderPairs.
Local Open Scope R_scope.










End GenderPairs.





Section HardDebias.
Variable pca_components : Z → list (list float) → result (list (list float)).





End HardDebias.


